(** * The HTTP span collector of zipkin-go-opentracing (collector-http.go)

    A shallow embedding of [HTTPCollector]: the batch buffer with its
    drop-oldest backlog bound, the deadline of the flush scheduler, the
    dispatch loop, the sender and the shutdown path.

    The Go program is concurrent.  Its goroutines are modelled as an
    interleaving of atomic sections: the dispatch loop, every
    [go c.sendNow()] invocation, and the callers of [Collect] and [Close]
    each contribute events, and [step] executes one event on the shared
    state.  The sections guarded by [batchMutex] contain no blocking
    operation, so each of them is one atomic piece of a step and the mutex
    needs no state of its own.  [sendMutex] is held across the network call
    and is modelled explicitly. *)

From Stdlib Require Import ZArith Lia Strings.Byte.
From stdpp Require Import base numbers list strings.

Open Scope Z_scope.

Module zipkintracer.

(** ** Go values *)

(** A Go [error]: [None] is [nil], [Some msg] an error whose [Error()] is
    [msg]. *)
Definition error : Type := option string.

(** The result of running a piece of Go code that may panic. *)
Inductive outcome (A : Type) : Type :=
| Returns (a : A)
| Panics (msg : string).
Arguments Returns {A} a.
Arguments Panics {A} msg.

(** [time.Time] and [time.Duration], both counted in nanoseconds. *)
Definition Time : Type := Z.
Definition Duration : Type := Z.
Definition Second : Duration := 1000000000.

Definition Time_Add (t : Time) (d : Duration) : Time := t + d.

(** [t.After(u)] reports whether [t] is strictly later than [u]. *)
Definition Time_After (t u : Time) : bool := u <? t.

(** Go's [int] is 64 bits wide here; arithmetic on it wraps around. *)
Definition int_wrap (z : Z) : Z := (z + 2 ^ 63) mod 2 ^ 64 - 2 ^ 63.
Definition int_sub (a b : Z) : Z := int_wrap (a - b).

(** [len(s)] of a slice. *)
Definition len {A : Type} (s : list A) : Z := Z.of_nat (length s).

(** The slice expression [s[lo:]]: it panics unless [0 <= lo <= len(s)]. *)
Definition slice_from {A : Type} (s : list A) (lo : Z) : outcome (list A) :=
  if (0 <=? lo) && (lo <=? len s)
  then Returns (drop (Z.to_nat lo) s)
  else Panics "slice bounds out of range".

(** One argument of [Logger.Log(keyvals ...interface{})]. *)
Inductive keyval : Type :=
| KString (s : string)
| KInt (n : Z).

(** One call of [c.logger.Log]. *)
Definition LogCall : Type := list keyval.

(** Modelled from the spec: the [Logger] interface and [NewNopLogger] are
    declared outside collector-http.go.  A logger is the diagnostic sink
    that receives the collector's reports; the model keeps which sink is
    installed and records every call made to it. *)
Inductive Logger : Type :=
| NopLogger
| UserLogger (name : string).

Definition NewNopLogger : Logger := NopLogger.

(** [http.Client], of which the collector sets only [Timeout]. *)
Record Client : Type := mkClient { Timeout : Duration }.

(** ** Constants *)

Definition defaultHTTPTimeout : Duration := Second * 5.
Definition defaultHTTPBatchInterval : Z := 1.
Definition defaultBatchSize : Z := 100.
Definition defaultMaxBacklog : Z := 1000.

(** The in-memory buffer a payload is written to. *)
Definition Buffer : Type := list byte.

Section Collector.

(** A span is opaque to the collector. *)
Context {Span : Type}.

(** ** External ports

    The thrift binary protocol writer used by [httpSerialize] and
    [http.NewRequest].  A write extends the buffer and returns an error
    value.  The response of [client.Do] differs from call to call and is
    supplied with the event that completes a send. *)
Record Ports : Type := mkPorts {
  WriteListBegin : Z -> Buffer -> Buffer * error;
  Span_Write : Span -> Buffer -> Buffer * error;
  WriteListEnd : Buffer -> Buffer * error;
  NewRequest : string -> string -> Buffer -> error
}.

(** ** The collector *)

(** The struct [HTTPCollector].  [quit] and [shutdown] are channels of
    capacity one, given by their pending contents; [spanc] is unbuffered
    and has no state; [sendMutex] is [true] while it is held. *)
Record HTTPCollector : Type := mkHTTPCollector {
  logger : Logger;
  url : string;
  client : Client;
  nextSend : Time;
  batchInterval : Duration;
  batchSize : Z;
  maxBacklog : Z;
  batch : list Span;
  quit : nat;
  shutdown : list error;
  sendMutex : bool
}.

Definition with_logger (l : Logger) (c : HTTPCollector) : HTTPCollector :=
  mkHTTPCollector l (url c) (client c) (nextSend c) (batchInterval c)
    (batchSize c) (maxBacklog c) (batch c) (quit c) (shutdown c) (sendMutex c).

Definition with_client (cl : Client) (c : HTTPCollector) : HTTPCollector :=
  mkHTTPCollector (logger c) (url c) cl (nextSend c) (batchInterval c)
    (batchSize c) (maxBacklog c) (batch c) (quit c) (shutdown c) (sendMutex c).

Definition with_nextSend (t : Time) (c : HTTPCollector) : HTTPCollector :=
  mkHTTPCollector (logger c) (url c) (client c) t (batchInterval c)
    (batchSize c) (maxBacklog c) (batch c) (quit c) (shutdown c) (sendMutex c).

Definition with_batchInterval (d : Duration) (c : HTTPCollector) : HTTPCollector :=
  mkHTTPCollector (logger c) (url c) (client c) (nextSend c) d
    (batchSize c) (maxBacklog c) (batch c) (quit c) (shutdown c) (sendMutex c).

Definition with_batchSize (n : Z) (c : HTTPCollector) : HTTPCollector :=
  mkHTTPCollector (logger c) (url c) (client c) (nextSend c) (batchInterval c)
    n (maxBacklog c) (batch c) (quit c) (shutdown c) (sendMutex c).

Definition with_maxBacklog (n : Z) (c : HTTPCollector) : HTTPCollector :=
  mkHTTPCollector (logger c) (url c) (client c) (nextSend c) (batchInterval c)
    (batchSize c) n (batch c) (quit c) (shutdown c) (sendMutex c).

Definition with_batch (b : list Span) (c : HTTPCollector) : HTTPCollector :=
  mkHTTPCollector (logger c) (url c) (client c) (nextSend c) (batchInterval c)
    (batchSize c) (maxBacklog c) b (quit c) (shutdown c) (sendMutex c).

Definition with_quit (q : nat) (c : HTTPCollector) : HTTPCollector :=
  mkHTTPCollector (logger c) (url c) (client c) (nextSend c) (batchInterval c)
    (batchSize c) (maxBacklog c) (batch c) q (shutdown c) (sendMutex c).

Definition with_shutdown (s : list error) (c : HTTPCollector) : HTTPCollector :=
  mkHTTPCollector (logger c) (url c) (client c) (nextSend c) (batchInterval c)
    (batchSize c) (maxBacklog c) (batch c) (quit c) s (sendMutex c).

Definition with_sendMutex (m : bool) (c : HTTPCollector) : HTTPCollector :=
  mkHTTPCollector (logger c) (url c) (client c) (nextSend c) (batchInterval c)
    (batchSize c) (maxBacklog c) (batch c) (quit c) (shutdown c) m.

(** ** Options *)

Definition HTTPOption : Type := HTTPCollector -> HTTPCollector.

Definition HTTPLogger (l : Logger) : HTTPOption := with_logger l.
Definition HTTPTimeout (duration : Duration) : HTTPOption :=
  with_client (mkClient duration).
Definition HTTPBatchSize (n : Z) : HTTPOption := with_batchSize n.
Definition HTTPMaxBacklog (n : Z) : HTTPOption := with_maxBacklog n.
Definition HTTPBatchInterval (d : Duration) : HTTPOption := with_batchInterval d.

(** ** The running system *)

(** Where one invocation of [sendNow] stands: blocked on [sendMutex],
    between its snapshot and the end of the network call (holding
    [sendMutex]), or returned. *)
Inductive sender : Type :=
| Waiting
| Sending (sendBatch : list Span)
| Returned.

(** Where the goroutine running [loop] stands: before the ticker exists, in
    the [select], inside the final [sendNow] after the quit signal, or
    returned. *)
Inductive loop_state : Type :=
| Starting
| Running
| Draining (s : sender)
| Stopped.

(** The collector together with its goroutines and what it has done so
    far: the calls made to the logger, the calls of [send] that returned
    (argument and result), the calls of [Collect] that returned (argument
    and result), the callers of [Close] blocked on [shutdown], the results
    of the calls of [Close] that returned, and the value of an unrecovered
    panic. *)
Record world : Type := mkWorld {
  coll : HTTPCollector;
  looper : loop_state;
  goroutines : list sender;
  logged : list LogCall;
  sends : list (list Span * error);
  collected : list (Span * error);
  closing : nat;
  closed : list error;
  panicked : option string
}.

Definition with_coll (c : HTTPCollector) (w : world) : world :=
  mkWorld c (looper w) (goroutines w) (logged w) (sends w) (collected w)
    (closing w) (closed w) (panicked w).

Definition with_looper (l : loop_state) (w : world) : world :=
  mkWorld (coll w) l (goroutines w) (logged w) (sends w) (collected w)
    (closing w) (closed w) (panicked w).

Definition with_goroutines (g : list sender) (w : world) : world :=
  mkWorld (coll w) (looper w) g (logged w) (sends w) (collected w)
    (closing w) (closed w) (panicked w).

Definition with_logged (l : list LogCall) (w : world) : world :=
  mkWorld (coll w) (looper w) (goroutines w) l (sends w) (collected w)
    (closing w) (closed w) (panicked w).

Definition with_sends (s : list (list Span * error)) (w : world) : world :=
  mkWorld (coll w) (looper w) (goroutines w) (logged w) s (collected w)
    (closing w) (closed w) (panicked w).

Definition with_collected (s : list (Span * error)) (w : world) : world :=
  mkWorld (coll w) (looper w) (goroutines w) (logged w) (sends w) s
    (closing w) (closed w) (panicked w).

Definition with_closing (n : nat) (w : world) : world :=
  mkWorld (coll w) (looper w) (goroutines w) (logged w) (sends w) (collected w)
    n (closed w) (panicked w).

Definition with_closed (l : list error) (w : world) : world :=
  mkWorld (coll w) (looper w) (goroutines w) (logged w) (sends w) (collected w)
    (closing w) l (panicked w).

(** [panic(msg)]: nothing runs after an unrecovered panic. *)
Definition panic (msg : string) (w : world) : world :=
  mkWorld (coll w) (looper w) (goroutines w) (logged w) (sends w) (collected w)
    (closing w) (closed w) (Some msg).

(** [c.logger.Log(keyvals...)]. *)
Definition Log (call : LogCall) (w : world) : world :=
  with_logged (logged w ++ [call]) w.

End Collector.

Arguments Ports Span : clear implicits.
Arguments HTTPCollector Span : clear implicits.
Arguments HTTPOption Span : clear implicits.
Arguments sender Span : clear implicits.
Arguments loop_state Span : clear implicits.
Arguments world Span : clear implicits.

Section Operations.

Context {Span : Type} (P : Ports Span).

(** ** Serialization *)

(** The loop [for _, s := range spans] of [httpSerialize]: the first write
    that fails panics. *)
Fixpoint write_spans (spans : list Span) (t : Buffer) : outcome Buffer :=
  match spans with
  | [] => Returns t
  | s :: rest =>
      match Span_Write P s t with
      | (t', None) => write_spans rest t'
      | (_, Some err) => Panics err
      end
  end.

Definition httpSerialize (spans : list Span) : outcome Buffer :=
  match WriteListBegin P (len spans) [] with
  | (_, Some err) => Panics err
  | (t, None) =>
      match write_spans spans t with
      | Panics err => Panics err
      | Returns t' =>
          match WriteListEnd P t' with
          | (_, Some err) => Panics err
          | (t'', None) => Returns t''
          end
      end
  end.

(** ** The batch buffer *)

Definition disposing (count : Z) : LogCall :=
  [KString "Backlog too long, disposing spans."; KString "count"; KInt count].

(** [c.append(span)], one section under [batchMutex]; the second component
    is [newBatchSize]. *)
Definition append (span : Span) (w : world Span) : world Span * Z :=
  let b := batch (coll w) ++ [span] in
  let w1 := with_coll (with_batch b (coll w)) w in
  if maxBacklog (coll w) <? len b then
    let dispose := int_sub (len b) (maxBacklog (coll w)) in
    let w2 := Log (disposing dispose) w1 in
    match slice_from b dispose with
    | Returns b' => (with_coll (with_batch b' (coll w2)) w2, len b')
    | Panics msg => (panic msg w2, 0)
    end
  else (w1, len b).

Definition currentBatchSize (w : world Span) : Z := len (batch (coll w)).

(** ** The flush scheduler *)

(** [c.scheduleNextSend()], where [now] is what [time.Now()] returns. *)
Definition scheduleNextSend (now : Time) (c : HTTPCollector Span)
  : HTTPCollector Span :=
  with_nextSend (Time_Add now (batchInterval c)) c.

(** ** The sender *)

(** [c.send(spans)], where [resp] is the error [c.client.Do] returns.  The
    body is serialized before the request is built. *)
Definition send (c : HTTPCollector Span) (spans : list Span) (resp : error)
  : outcome error :=
  match httpSerialize spans with
  | Panics msg => Panics msg
  | Returns body =>
      match NewRequest P "POST" (url c) body with
      | Some err => Returns (Some err)
      | None => Returns resp
      end
  end.

Definition Unlock (w : world Span) : world Span :=
  with_coll (with_sendMutex false (coll w)) w.

(** The first part of [sendNow]: take [sendMutex] (blocking while it is
    held: [None]), snapshot the batch under [batchMutex], and return at once
    when the snapshot is empty.  The result is the state of the shared data
    and where this invocation stands. *)
Definition sendNow_begin (w : world Span) : option (world Span * sender Span) :=
  if sendMutex (coll w) then None
  else
    let sendBatch := batch (coll w) in
    if len sendBatch =? 0 then Some (w, Returned)
    else Some (with_coll (with_sendMutex true (coll w)) w, Sending sendBatch).

(** The second part of [sendNow], entered holding [sendMutex]: send the
    snapshot, then either report the error or remove the sent spans from
    the head of the batch; the deferred [Unlock] runs on every exit.  The
    send reads only the snapshot, so a span appended after the network call
    and before the removal has the same effect as one appended before the
    call: the call and the section under [batchMutex] that follows it make
    one step. *)
Definition sendNow_end (sendBatch : list Span) (resp : error) (w : world Span)
  : world Span :=
  match send (coll w) sendBatch resp with
  | Panics msg => panic msg (Unlock w)
  | Returns (Some err) =>
      let w1 := with_sends (sends w ++ [(sendBatch, Some err)]) w in
      Unlock (Log [KString "err"; KString err] w1)
  | Returns None =>
      let w1 := with_sends (sends w ++ [(sendBatch, None)]) w in
      match slice_from (batch (coll w1)) (len sendBatch) with
      | Returns b' => Unlock (with_coll (with_batch b' (coll w1)) w1)
      | Panics msg => panic msg (Unlock w1)
      end
  end.

(** ** Goroutines *)

(** The goroutine of the dispatch loop, or the [i]-th [go c.sendNow()]. *)
Inductive thread : Type :=
| TLoop
| TGo (i : nat).

(** Where the [sendNow] invocation of a thread stands, if it runs one. *)
Definition sendNow_of (t : thread) (w : world Span) : option (sender Span) :=
  match t with
  | TLoop => match looper w with Draining s => Some s | _ => None end
  | TGo i => goroutines w !! i
  end.

Definition set_sendNow (t : thread) (s : sender Span) (w : world Span)
  : world Span :=
  match t with
  | TLoop => with_looper (Draining s) w
  | TGo i => with_goroutines (<[i:=s]> (goroutines w)) w
  end.

(** [go c.sendNow()]: the new goroutine has not run yet. *)
Definition go_sendNow (w : world Span) : world Span :=
  with_goroutines (goroutines w ++ [Waiting]) w.

(** ** The dispatch loop *)

(** The period of the ticker, [c.batchInterval / 10] on [int64]. *)
Definition tickPeriod (c : HTTPCollector Span) : Duration :=
  Z.quot (batchInterval c) 10.

(** The start of [loop]: [time.NewTicker] panics on a period that is not
    positive. *)
Definition loop_start (w : world Span) : world Span :=
  if 0 <? tickPeriod (coll w) then with_looper Running w
  else panic "non-positive interval for NewTicker" w.

(** The case of the [select] that is taken, with what [time.Now()] returns
    where the case reads the clock: in [scheduleNextSend] for a span, in the
    test and then in [scheduleNextSend] for a tick. *)
Inductive select_case : Type :=
| case_spanc (span : Span) (now : Time)
| case_tickc (now now' : Time)
| case_quit.

(** One iteration of the [for { select { ... } }] of [loop]. *)
Definition loop (k : select_case) (w : world Span) : option (world Span) :=
  match k with
  | case_spanc span now =>
      let (w1, currentBatchSize) := append span w in
      match panicked w1 with
      | Some _ => Some w1
      | None =>
          if batchSize (coll w1) <=? currentBatchSize
          then Some (go_sendNow (with_coll (scheduleNextSend now (coll w1)) w1))
          else Some w1
      end
  | case_tickc now now' =>
      if Time_After now (nextSend (coll w))
      then Some (go_sendNow (with_coll (scheduleNextSend now' (coll w)) w))
      else Some w
  | case_quit =>
      match quit (coll w) with
      | O => None
      | S q => Some (with_looper (Draining Waiting) (with_coll (with_quit q (coll w)) w))
      end
  end.

(** The end of the quit case, after [c.sendNow()] returned:
    [c.shutdown <- err; return], where [err] is the variable declared at
    the top of the iteration and never assigned. *)
Definition loop_shutdown (w : world Span) : option (world Span) :=
  let err : error := None in
  match shutdown (coll w) with
  | [] => Some (with_looper Stopped (with_coll (with_shutdown [err] (coll w)) w))
  | _ :: _ => None
  end.

(** ** The interface [Collector] *)

(** [Collect(s)]: hand the span to the loop, then [return nil]. *)
Definition Collect (s : Span) (w : world Span) : world Span :=
  with_collected (collected w ++ [(s, None)]) w.

(** [Close()], first statement: [c.quit <- struct{}{}]. *)
Definition Close_quit (w : world Span) : option (world Span) :=
  match quit (coll w) with
  | O => Some (with_closing (S (closing w)) (with_coll (with_quit 1 (coll w)) w))
  | S _ => None
  end.

(** [Close()], second statement: [return <-c.shutdown]. *)
Definition Close_return (w : world Span) : option (world Span) :=
  match closing w, shutdown (coll w) with
  | S n, err :: rest =>
      Some (with_closed (closed w ++ [err])
             (with_closing n (with_coll (with_shutdown rest (coll w)) w)))
  | _, _ => None
  end.

(** [NewHTTPCollector(url, options...)], where [now] is what [time.Now()]
    returns in [scheduleNextSend]; the second component is the error
    result. *)
Definition NewHTTPCollector (url : string) (options : list (HTTPOption Span))
    (now : Time) : world Span * error :=
  let c := mkHTTPCollector NewNopLogger url (mkClient defaultHTTPTimeout) 0
             (defaultHTTPBatchInterval * Second) defaultBatchSize
             defaultMaxBacklog [] O [] false in
  let c := fold_left (fun c option => option c) options c in
  let c := scheduleNextSend now c in
  (mkWorld c Starting [] [] [] [] O [] None, None).

(** ** Interleaving *)

Inductive event : Type :=
| EvStart
| EvCollect (s : Span) (now : Time)
| EvTick (now now' : Time)
| EvQuit
| EvShutdown
| EvBegin (t : thread)
| EvEnd (t : thread) (resp : error)
| EvClose
| EvClosed.

(** One atomic step of the system; [None] when the event cannot happen in
    this state (its goroutine is elsewhere or blocked, or the process has
    panicked). *)
Definition step (w : world Span) (ev : event) : option (world Span) :=
  match panicked w with
  | Some _ => None
  | None =>
      match ev with
      | EvStart =>
          match looper w with Starting => Some (loop_start w) | _ => None end
      | EvCollect s now =>
          match looper w with
          | Running => loop (case_spanc s now) (Collect s w)
          | _ => None
          end
      | EvTick now now' =>
          match looper w with
          | Running => loop (case_tickc now now') w
          | _ => None
          end
      | EvQuit =>
          match looper w with Running => loop case_quit w | _ => None end
      | EvShutdown =>
          match looper w with
          | Draining Returned => loop_shutdown w
          | _ => None
          end
      | EvBegin t =>
          match sendNow_of t w with
          | Some Waiting =>
              match sendNow_begin w with
              | Some (w1, s) => Some (set_sendNow t s w1)
              | None => None
              end
          | _ => None
          end
      | EvEnd t resp =>
          match sendNow_of t w with
          | Some (Sending sendBatch) =>
              Some (set_sendNow t Returned (sendNow_end sendBatch resp w))
          | _ => None
          end
      | EvClose => Close_quit w
      | EvClosed => Close_return w
      end
  end.

(** A schedule, run from a state. *)
Fixpoint run (w : world Span) (evs : list event) : option (world Span) :=
  match evs with
  | [] => Some w
  | ev :: rest =>
      match step w ev with
      | Some w1 => run w1 rest
      | None => None
      end
  end.

End Operations.

Arguments event Span : clear implicits.
Arguments select_case Span : clear implicits.

#[global] Instance thread_eq_dec : EqDecision thread.
Proof. solve_decision. Defined.

(** ** What an execution shows *)

Section Observations.

Context {Span : Type} (P : Ports Span).

(** The spans handed to [Collect], in order. *)
Definition spans_of (w : world Span) : list Span := (collected w).*1.

(** The spans of the sends that returned [nil], in order. *)
Definition delivered (w : world Span) : list Span :=
  concat (omap (fun a : list Span * error =>
                  match a.2 with None => Some a.1 | Some _ => None end)
               (sends w)).

(** The spans of all sends, failed or not. *)
Definition attempted (w : world Span) : list Span := concat (sends w).*1.

(** The number of spans an eviction report announces. *)
Definition dispose_count (call : LogCall) : option Z :=
  match call with
  | [KString _; KString _; KInt count] => Some count
  | _ => None
  end.

(** Whether the backlog overflowed: some eviction was reported. *)
Definition overflowed (w : world Span) : bool :=
  existsb (fun call => bool_decide (is_Some (dispose_count call))) (logged w).

(** The total number of spans reported as evicted. *)
Definition disposed (w : world Span) : Z :=
  foldr Z.add 0 (omap dispose_count (logged w)).

(** The number of evictions reported so far. *)
Definition evictions (w : world Span) : nat :=
  length (omap dispose_count (logged w)).


(** The spans that arrive in a schedule. *)
Definition arrivals (evs : list (event Span)) : list Span :=
  omap (fun ev => match ev with EvCollect s _ => Some s | _ => None end) evs.

(** The clock readings of a schedule. *)
Definition readings (evs : list (event Span)) : list Time :=
  evs ≫= (fun ev =>
    match ev with
    | EvCollect _ now => [now]
    | EvTick now now' => [now; now']
    | _ => []
    end).

(** The first [n] ticks of a ticker of period [p] that ticks at
    [base + p], [base + 2p], ..., each taken by the loop at the instant it
    fires. *)
Definition ticks (base : Time) (p : Duration) (n : nat) : list (event Span) :=
  (fun i : nat => EvTick (base + Z.of_nat i * p) (base + Z.of_nat i * p))
    <$> seq 1 n.

(** An event that begins a flush attempt. *)
Definition begins (ev : event Span) : bool :=
  match ev with EvBegin _ => true | _ => false end.

(** The options the package exports. *)
Inductive exported : HTTPOption Span -> Prop :=
| exported_HTTPLogger l : exported (HTTPLogger l)
| exported_HTTPTimeout d : exported (HTTPTimeout d)
| exported_HTTPBatchSize n : exported (HTTPBatchSize n)
| exported_HTTPMaxBacklog n : exported (HTTPMaxBacklog n)
| exported_HTTPBatchInterval d : exported (HTTPBatchInterval d).

(** The states of a collector built by [NewHTTPCollector] from exported
    options, after any schedule. *)
Definition reachable (w : world Span) : Prop :=
  exists url options now evs,
    Forall exported options /\
    run P (NewHTTPCollector url options now).1 evs = Some w.

End Observations.

(** ** Invariants of the running system *)

Section Invariants.

Context {Span : Type}.
Implicit Types (w : world Span) (t : thread).

(** [sendMutex] is held exactly while some [sendNow] is between its
    snapshot and the end of its network call, and at most one is. *)
Definition exclusive w : Prop :=
  (sendMutex (coll w) = false ->
   forall t sb, sendNow_of t w <> Some (Sending sb)) /\
  (forall t1 t2 sb1 sb2,
     sendNow_of t1 w = Some (Sending sb1) ->
     sendNow_of t2 w = Some (Sending sb2) -> t1 = t2).

(** No [sendNow] is between its snapshot and the end of its network call. *)
Definition idle w : Prop :=
  forall t sb, sendNow_of t w <> Some (Sending sb).

(** A snapshot that is being sent is not empty. *)
Definition loaded w : Prop :=
  forall t sb, sendNow_of t w = Some (Sending sb) -> sb <> [].

(** First in, first out: what was collected is what was delivered followed
    by what is buffered, and a snapshot being sent is the head of the
    batch. *)
Definition fifo w : Prop :=
  spans_of w = delivered w ++ batch (coll w) /\
  forall t sb, sendNow_of t w = Some (Sending sb) ->
               sb `prefix_of` batch (coll w).

(** The batch respects the backlog bound. *)
Definition bounded w : Prop := len (batch (coll w)) <= maxBacklog (coll w).

(** The batch never holds more than was collected, and an overflow needs
    more spans than the backlog holds. *)
Definition counted w : Prop :=
  len (batch (coll w)) <= len (spans_of w) /\
  (overflowed w = true -> maxBacklog (coll w) < len (spans_of w)).


(** A value is on [shutdown], or was received from it, only after the loop
    returned. *)
Definition stopped_first w : Prop :=
  shutdown (coll w) <> [] \/ closed w <> [] -> looper w = Stopped.

(** During the final [sendNow] of the loop the batch is its snapshot, and
    afterwards every span still buffered has been through a send. *)
Definition drained w : Prop :=
  match looper w with
  | Draining (Sending sb) => batch (coll w) = sb
  | Draining Returned =>
      panicked w = None -> forall x, x ∈ batch (coll w) -> x ∈ attempted w
  | Stopped => forall x, x ∈ batch (coll w) -> x ∈ attempted w
  | _ => True
  end.

End Invariants.

(** ** Further observations and invariants *)

Section Accounting.

Context {Span : Type}.
Implicit Types (w : world Span) (t : thread).

(** The error a report of a failed send carries. *)
Definition error_of (call : LogCall) : option string :=
  match call with
  | [KString _; KString err] => Some err
  | _ => None
  end.

(** The errors reported to the logger, in order. *)
Definition logged_errors w : list string := omap error_of (logged w).

(** The errors of the sends that failed, in order. *)
Definition failed w : list string :=
  omap (fun a : list Span * error => a.2) (sends w).

(** A snapshot that is being sent is no longer than the batch, nor than the
    backlog bound. *)
Definition fits w : Prop :=
  forall t sb, sendNow_of t w = Some (Sending sb) ->
               len sb <= len (batch (coll w)) /\ len sb <= maxBacklog (coll w).

(** [sendMutex] is held only by a [sendNow] that is between its snapshot and
    the end of its network call. *)
Definition held w : Prop :=
  sendMutex (coll w) = true -> exists t sb, sendNow_of t w = Some (Sending sb).

(** One value passes through [shutdown], after the loop returned. *)
Definition closes_once w : Prop :=
  match looper w with
  | Stopped => (length (shutdown (coll w)) + length (closed w) = 1)%nat
  | _ => shutdown (coll w) = [] /\ closed w = []
  end.

(** The loop has received the quit signal. *)
Definition quitting w : Prop :=
  match looper w with
  | Draining _ | Stopped => True
  | _ => False
  end.

(** Every call of the logger reports the eviction of one span, or an
    error. *)
Definition plain_reports w : Prop :=
  Forall (fun call => dispose_count call = Some 1 /\ error_of call = None \/
                      dispose_count call = None /\ is_Some (error_of call))
         (logged w).

(** Every span collected is buffered, was evicted, or was removed after a
    send that succeeded. *)
Definition accounted w : Prop :=
  len (spans_of w) = len (batch (coll w)) + disposed w + len (delivered w).

(** The settings the exported options make, and the option of a setting. *)
Inductive setting : Type :=
| SetLogger (l : Logger)
| SetTimeout (d : Duration)
| SetBatchSize (n : Z)
| SetMaxBacklog (n : Z)
| SetBatchInterval (d : Duration).

Definition option_of (s : setting) : HTTPOption Span :=
  match s with
  | SetLogger l => HTTPLogger l
  | SetTimeout d => HTTPTimeout d
  | SetBatchSize n => HTTPBatchSize n
  | SetMaxBacklog n => HTTPMaxBacklog n
  | SetBatchInterval d => HTTPBatchInterval d
  end.

(** The last value a list of settings gives to one field, or its default. *)
Definition last_of {A : Type} (pick : setting -> option A) (dflt : A)
    (ss : list setting) : A :=
  default dflt (last (omap pick ss)).

End Accounting.

(** ** Sample ports

    Spans numbered by [nat], written one byte each after a list header in
    the manner of the thrift binary protocol.  [sample_ports] never fails;
    [strict_ports] cannot encode span 13; [picky_ports] rejects the URL
    [":"] when the request is built. *)

Definition byte_of (z : Z) : byte :=
  match Byte.of_N (Z.to_N (z mod 256)) with
  | Some b => b
  | None => x00
  end.

Definition sample_ports : Ports nat :=
  mkPorts
    (fun n buf => (buf ++ [x0c; x00; x00; x00; byte_of n], None))
    (fun s buf => (buf ++ [byte_of (Z.of_nat s)], None))
    (fun buf => (buf, None))
    (fun _ _ _ => None).

Definition strict_ports : Ports nat :=
  mkPorts
    (WriteListBegin sample_ports)
    (fun s buf =>
       if Nat.eqb s 13 then (buf, Some "span cannot be encoded")
       else Span_Write sample_ports s buf)
    (WriteListEnd sample_ports)
    (NewRequest sample_ports).

Definition picky_ports : Ports nat :=
  mkPorts
    (WriteListBegin sample_ports)
    (Span_Write sample_ports)
    (WriteListEnd sample_ports)
    (fun _ u _ =>
       if String.eqb u ":" then Some "parse : missing protocol scheme"
       else None).

(** The state a newly built collector over [ports] reaches by a schedule
    (the initial state when the schedule cannot run). *)
Definition sample_run (ports : Ports nat) (options : list (HTTPOption nat))
    (evs : list (event nat)) : world nat :=
  let w0 := (NewHTTPCollector "http://zipkin:9411/api/v1/spans" options 0).1 in
  default w0 (run ports w0 evs).

End zipkintracer.

Import zipkintracer.

(** * Proofs *)

Section Basics.

Context {Span : Type} (P : Ports Span).
Implicit Types (w : world Span) (ev : event Span) (t : thread) (s : sender Span).

(** ** Schedules *)

Lemma run_app w evs1 evs2 :
  run P w (evs1 ++ evs2) = run P w evs1 ≫= fun w1 => run P w1 evs2.
Proof.
  revert w. induction evs1 as [|ev evs1 IH]; intros w; simpl; [done|].
  destruct (step P w ev); simpl; auto.
Qed.

Lemma run_snoc w evs ev w' :
  run P w (evs ++ [ev]) = Some w' <->
  exists w1, run P w evs = Some w1 /\ step P w1 ev = Some w'.
Proof.
  rewrite run_app. split.
  - destruct (run P w evs) as [w1|]; simpl; [|done].
    destruct (step P w1 ev) eqn:E; [|done]. intros [= <-]. eauto.
  - intros (w1 & -> & H). simpl. by rewrite H.
Qed.

Lemma reachable_step w ev w' :
  reachable P w -> step P w ev = Some w' -> reachable P w'.
Proof.
  intros (url & options & now & evs & Hopt & Hrun) Hstep.
  exists url, options, now, (evs ++ [ev]). split; [done|].
  apply run_snoc; eauto.
Qed.

Lemma reachable_run w evs w' :
  reachable P w -> run P w evs = Some w' -> reachable P w'.
Proof.
  revert w. induction evs as [|ev evs IH]; simpl; intros w Hw.
  - by intros [= <-].
  - destruct (step P w ev) eqn:E; [|done]. eauto using reachable_step.
Qed.

Lemma reachable_ind (I : world Span -> Prop) :
  (forall url options now,
      Forall exported options -> I (NewHTTPCollector url options now).1) ->
  (forall w ev w', reachable P w -> I w -> step P w ev = Some w' -> I w') ->
  forall w, reachable P w -> I w.
Proof.
  intros Hinit Hstep w (url & options & now & evs & Hopt & Hrun).
  revert w Hrun. induction evs as [|ev evs IH] using rev_ind; intros w.
  - intros [= <-]. by apply Hinit.
  - intros (w1 & H1 & H2)%run_snoc.
    apply (Hstep w1 ev w); [by exists url, options, now, evs | auto | done].
Qed.

(** ** Threads *)

Lemma sendNow_of_set_eq t s w :
  is_Some (sendNow_of t w) -> sendNow_of t (set_sendNow t s w) = Some s.
Proof.
  destruct t as [|i]; simpl.
  - intros _. reflexivity.
  - intros [s0 H]. apply list_lookup_insert_eq. eauto using lookup_lt_Some.
Qed.

Lemma sendNow_of_set_ne t t' s w :
  t <> t' -> sendNow_of t' (set_sendNow t s w) = sendNow_of t' w.
Proof.
  destruct t as [|i], t' as [|j]; simpl; intros H; try done.
  apply list_lookup_insert_ne. congruence.
Qed.

Lemma sendNow_of_go t w s :
  sendNow_of t (go_sendNow w) = Some s ->
  sendNow_of t w = Some s \/ s = Waiting.
Proof.
  destruct t as [|i]; simpl; [auto|].
  intros [H|[_ H]]%lookup_app_Some; [auto|].
  apply list_lookup_singleton_Some in H as [_ <-]. auto.
Qed.

(** ** Inversion of the primitives *)

Lemma append_cases span w :
  let b := batch (coll w) ++ [span] in
  let d := int_sub (len b) (maxBacklog (coll w)) in
  (len b <= maxBacklog (coll w) /\
   append span w = (with_coll (with_batch b (coll w)) w, len b)) \/
  (maxBacklog (coll w) < len b /\ 0 <= d <= len b /\
   append span w =
     (with_coll (with_batch (drop (Z.to_nat d) b) (coll w)) (Log (disposing d) w),
      len (drop (Z.to_nat d) b))) \/
  (maxBacklog (coll w) < len b /\ ~ (0 <= d <= len b) /\
   append span w =
     (panic "slice bounds out of range"
        (Log (disposing d) (with_coll (with_batch b (coll w)) w)), 0)).
Proof.
  intros b d. unfold append. fold b.
  destruct (Z.ltb_spec (maxBacklog (coll w)) (len b)) as [Hlt|Hle]; [|auto].
  right. fold d. unfold slice_from.
  destruct (Z.leb_spec 0 d), (Z.leb_spec d (len b)); simpl.
  - left. split; [done|]. split; [lia|]. done.
  - right. split; [done|]. split; [lia|]. done.
  - right. split; [done|]. split; [lia|]. done.
  - right. split; [done|]. split; [lia|]. done.
Qed.

Lemma append_within span w :
  len (batch (coll w) ++ [span]) <= maxBacklog (coll w) ->
  append span w =
    (with_coll (with_batch (batch (coll w) ++ [span]) (coll w)) w,
     len (batch (coll w) ++ [span])).
Proof.
  intros H. unfold append.
  destruct (Z.ltb_spec (maxBacklog (coll w)) (len (batch (coll w) ++ [span])));
    [lia|done].
Qed.

Lemma sendNow_end_cases sb resp w :
  (exists msg, send P (coll w) sb resp = Panics msg /\
     sendNow_end P sb resp w = panic msg (Unlock w)) \/
  (exists err, send P (coll w) sb resp = Returns (Some err) /\
     sendNow_end P sb resp w =
       Unlock (Log [KString "err"; KString err]
                 (with_sends (sends w ++ [(sb, Some err)]) w))) \/
  (send P (coll w) sb resp = Returns None /\
   len sb <= len (batch (coll w)) /\
   sendNow_end P sb resp w =
     Unlock (with_coll (with_batch (drop (length sb) (batch (coll w))) (coll w))
               (with_sends (sends w ++ [(sb, None)]) w))) \/
  (send P (coll w) sb resp = Returns None /\
   len (batch (coll w)) < len sb /\
   sendNow_end P sb resp w =
     panic "slice bounds out of range"
       (Unlock (with_sends (sends w ++ [(sb, None)]) w))).
Proof.
  unfold sendNow_end. destruct (send P (coll w) sb resp) as [[err|]|msg].
  - right. left. eauto.
  - right. right. unfold slice_from. simpl.
    destruct (Z.leb_spec (len sb) (len (batch (coll w)))).
    + left. assert ((0 <=? len sb) = true) as -> by (apply Z.leb_le; unfold len; lia).
      simpl. unfold len at 3. rewrite Nat2Z.id. auto.
    + right. rewrite andb_false_r. auto.
  - left. eauto.
Qed.

Lemma step_live w ev w' : step P w ev = Some w' -> panicked w = None.
Proof. unfold step. by destruct (panicked w). Qed.

Lemma start_inv w w' :
  step P w EvStart = Some w' -> looper w = Starting /\ w' = loop_start w.
Proof.
  unfold step. destruct (panicked w); [done|].
  destruct (looper w); naive_solver.
Qed.

Lemma collect_inv w span now w' :
  step P w (EvCollect span now) = Some w' ->
  looper w = Running /\
  exists w1 n, append span (Collect span w) = (w1, n) /\
    ((exists msg, panicked w1 = Some msg /\ w' = w1) \/
     (panicked w1 = None /\ n < batchSize (coll w1) /\ w' = w1) \/
     (panicked w1 = None /\ batchSize (coll w1) <= n /\
      w' = go_sendNow (with_coll (scheduleNextSend now (coll w1)) w1))).
Proof.
  unfold step. destruct (panicked w); [done|].
  destruct (looper w); try done. simpl.
  destruct (append span (Collect span w)) as [w1 n]. intros H.
  split; [done|]. exists w1, n. split; [done|].
  destruct (panicked w1) as [msg|]; [left; naive_solver|right].
  destruct (Z.leb_spec (batchSize (coll w1)) n); naive_solver.
Qed.

Lemma tick_inv w now now' w' :
  step P w (EvTick now now') = Some w' ->
  looper w = Running /\
  ((now <= nextSend (coll w) /\ w' = w) \/
   (nextSend (coll w) < now /\
    w' = go_sendNow (with_coll (scheduleNextSend now' (coll w)) w))).
Proof.
  unfold step. destruct (panicked w); [done|].
  destruct (looper w); try done. simpl. unfold Time_After.
  destruct (Z.ltb_spec (nextSend (coll w)) now); naive_solver.
Qed.

Lemma quit_inv w w' :
  step P w EvQuit = Some w' ->
  looper w = Running /\
  exists q, quit (coll w) = S q /\
    w' = with_looper (Draining Waiting) (with_coll (with_quit q (coll w)) w).
Proof.
  unfold step. destruct (panicked w); [done|].
  destruct (looper w); try done. simpl.
  destruct (quit (coll w)) as [|q]; naive_solver.
Qed.

Lemma shutdown_inv w w' :
  step P w EvShutdown = Some w' ->
  looper w = Draining Returned /\ shutdown (coll w) = [] /\
  w' = with_looper Stopped (with_coll (with_shutdown [None] (coll w)) w).
Proof.
  unfold step. destruct (panicked w); [done|].
  destruct (looper w) as [| |[]|]; try done. unfold loop_shutdown.
  destruct (shutdown (coll w)); naive_solver.
Qed.

Lemma begin_inv w t w' :
  step P w (EvBegin t) = Some w' ->
  sendNow_of t w = Some Waiting /\ sendMutex (coll w) = false /\
  ((batch (coll w) = [] /\ w' = set_sendNow t Returned w) \/
   (batch (coll w) <> [] /\
    w' = set_sendNow t (Sending (batch (coll w)))
           (with_coll (with_sendMutex true (coll w)) w))).
Proof.
  unfold step. destruct (panicked w); [done|].
  destruct (sendNow_of t w) as [[]|]; try done.
  unfold sendNow_begin. destruct (sendMutex (coll w)); [done|].
  destruct (batch (coll w)) as [|x b] eqn:E; simpl; [naive_solver|].
  intros [= <-]. split; [done|]. split; [done|]. by right.
Qed.

Lemma end_inv w t resp w' :
  step P w (EvEnd t resp) = Some w' ->
  exists sb, sendNow_of t w = Some (Sending sb) /\
    w' = set_sendNow t Returned (sendNow_end P sb resp w).
Proof.
  unfold step. destruct (panicked w); [done|].
  destruct (sendNow_of t w) as [[]|]; naive_solver.
Qed.

Lemma close_inv w w' :
  step P w EvClose = Some w' ->
  quit (coll w) = O /\
  w' = with_closing (S (closing w)) (with_coll (with_quit 1 (coll w)) w).
Proof.
  unfold step. destruct (panicked w); [done|]. unfold Close_quit.
  destruct (quit (coll w)); naive_solver.
Qed.

Lemma closed_inv w w' :
  step P w EvClosed = Some w' ->
  exists n err rest, closing w = S n /\ shutdown (coll w) = err :: rest /\
    w' = with_closed (closed w ++ [err])
           (with_closing n (with_coll (with_shutdown rest (coll w)) w)).
Proof.
  unfold step. destruct (panicked w); [done|]. unfold Close_return.
  destruct (closing w), (shutdown (coll w)); naive_solver.
Qed.

Lemma sendNow_of_ext t w w' :
  looper w' = looper w -> goroutines w' = goroutines w ->
  sendNow_of t w' = sendNow_of t w.
Proof. intros Hl Hg. destruct t; simpl; by rewrite ?Hl, ?Hg. Qed.

Lemma append_frame span w w1 n :
  append span w = (w1, n) ->
  looper w1 = looper w /\ goroutines w1 = goroutines w /\
  sendMutex (coll w1) = sendMutex (coll w) /\ sends w1 = sends w /\
  collected w1 = collected w /\ closed w1 = closed w /\
  shutdown (coll w1) = shutdown (coll w) /\ closing w1 = closing w /\
  quit (coll w1) = quit (coll w).
Proof.
  destruct (append_cases span w) as [[_ ->]|[(_ & _ & ->)|(_ & _ & ->)]];
    intros [= <- <-]; done.
Qed.

Lemma sendNow_end_frame sb resp w :
  let w1 := sendNow_end P sb resp w in
  looper w1 = looper w /\ goroutines w1 = goroutines w /\
  sendMutex (coll w1) = false /\
  collected w1 = collected w /\ closed w1 = closed w /\
  shutdown (coll w1) = shutdown (coll w) /\ closing w1 = closing w /\
  quit (coll w1) = quit (coll w).
Proof.
  destruct (sendNow_end_cases sb resp w)
    as [(? & _ & ->)|[(? & _ & ->)|[(_ & _ & ->)|(_ & _ & ->)]]]; done.
Qed.

Lemma set_sendNow_frame t s w :
  coll (set_sendNow t s w) = coll w.
Proof. by destruct t. Qed.

Lemma set_sendNow_history t s w :
  logged (set_sendNow t s w) = logged w /\
  sends (set_sendNow t s w) = sends w /\
  collected (set_sendNow t s w) = collected w /\
  closed (set_sendNow t s w) = closed w /\
  closing (set_sendNow t s w) = closing w /\
  panicked (set_sendNow t s w) = panicked w.
Proof. by destruct t. Qed.

(** ** Mutual exclusion *)

Lemma exclusive_mono w w' :
  (forall t sb, sendNow_of t w' = Some (Sending sb) ->
                sendNow_of t w = Some (Sending sb)) ->
  (sendMutex (coll w') = false -> sendMutex (coll w) = false) ->
  exclusive w -> exclusive w'.
Proof.
  intros Hsub Hm [Hfree Huniq]. split.
  - intros H t sb Ht. eapply Hfree; eauto.
  - intros t1 t2 sb1 sb2 H1 H2. eapply Huniq; eauto.
Qed.

Lemma exclusive_ext w w' :
  looper w' = looper w -> goroutines w' = goroutines w ->
  sendMutex (coll w') = sendMutex (coll w) ->
  exclusive w -> exclusive w'.
Proof.
  intros Hl Hg Hm. apply exclusive_mono.
  - intros t sb. by rewrite (sendNow_of_ext t w w').
  - by rewrite Hm.
Qed.

Lemma exclusive_go w : exclusive w -> exclusive (go_sendNow w).
Proof.
  apply exclusive_mono; [|done].
  intros t sb [H|H]%sendNow_of_go; done.
Qed.

Lemma exclusive_step w ev w' :
  exclusive w -> step P w ev = Some w' -> exclusive w'.
Proof.
  intros Hex Hstep. destruct ev as [|span now|now now'| | |t|t resp| |].
  - apply start_inv in Hstep as [Hl ->]. revert Hex.
    apply exclusive_mono; [|unfold loop_start; by case_match].
    intros [|i] sb; unfold loop_start; case_match; simpl; try done.
  - apply collect_inv in Hstep as (Hl & w1 & n & Happ & Hcases).
    apply append_frame in Happ as (? & ? & ? & _).
    assert (exclusive w1) by (by apply (exclusive_ext (Collect span w))).
    destruct Hcases as [(? & _ & ->)|[(_ & _ & ->)|(_ & _ & ->)]]; try done.
    by apply exclusive_go, (exclusive_ext w1).
  - apply tick_inv in Hstep as (Hl & [[_ ->]|[_ ->]]); [done|].
    by apply exclusive_go, (exclusive_ext w).
  - apply quit_inv in Hstep as (Hl & q & _ & ->). revert Hex.
    apply exclusive_mono; [|done].
    intros [|i] sb; simpl; done.
  - apply shutdown_inv in Hstep as (Hl & _ & ->). revert Hex.
    apply exclusive_mono; [|done].
    intros [|i] sb; simpl; done.
  - apply begin_inv in Hstep as (Ht & Hm & [[_ ->]|[_ ->]]);
      destruct Hex as [Hfree Huniq]; specialize (Hfree Hm).
    + split; [intros _|]; intros t1.
      * intros sb. destruct (decide (t = t1)) as [<-|Hne].
        -- by rewrite sendNow_of_set_eq.
        -- rewrite sendNow_of_set_ne by done. apply Hfree.
      * intros t2 sb1 sb2 H1. exfalso. revert H1.
        destruct (decide (t = t1)) as [<-|Hne].
        -- by rewrite sendNow_of_set_eq.
        -- rewrite sendNow_of_set_ne by done. apply Hfree.
    + split; [by rewrite set_sendNow_frame|]. intros t1 t2 sb1 sb2 H1 H2.
      destruct (decide (t = t1)) as [<-|Hne1], (decide (t = t2)) as [<-|Hne2];
        try done; exfalso.
      * rewrite sendNow_of_set_ne in H2 by done. by eapply Hfree.
      * rewrite sendNow_of_set_ne in H1 by done. by eapply Hfree.
      * rewrite sendNow_of_set_ne in H1 by done. by eapply Hfree.
  - apply end_inv in Hstep as (sb & Ht & ->).
    destruct (sendNow_end_frame sb resp w) as (Hl & Hg & Hm & _).
    destruct Hex as [Hfree Huniq].
    assert (forall t1 sb1,
      sendNow_of t1 (set_sendNow t Returned (sendNow_end P sb resp w))
        <> Some (Sending sb1)) as Hnone.
    { intros t1 sb1. destruct (decide (t = t1)) as [<-|Hne].
      - rewrite sendNow_of_set_eq; [done|].
        rewrite (sendNow_of_ext t w) by done. by rewrite Ht.
      - rewrite sendNow_of_set_ne by done.
        rewrite (sendNow_of_ext t1 w) by done. intros H1.
        by specialize (Huniq _ _ _ _ Ht H1). }
    split; [auto|]. intros t1 t2 sb1 sb2 H1. by apply Hnone in H1.
  - apply close_inv in Hstep as (_ & ->). by apply (exclusive_ext w).
  - apply closed_inv in Hstep as (n & err & rest & _ & _ & ->).
    by apply (exclusive_ext w).
Qed.

(** ** Overflow *)

Lemma overflowed_logged w w' :
  logged w' = logged w -> overflowed w' = overflowed w.
Proof. unfold overflowed. by intros ->. Qed.

Lemma overflowed_Log call w :
  overflowed (Log call w) =
  overflowed w || bool_decide (is_Some (dispose_count call)).
Proof.
  unfold overflowed. simpl. rewrite existsb_app. simpl. by rewrite orb_false_r.
Qed.

Lemma append_fit span w w1 n :
  append span w = (w1, n) -> overflowed w1 = false ->
  len (batch (coll w) ++ [span]) <= maxBacklog (coll w) /\
  w1 = with_coll (with_batch (batch (coll w) ++ [span]) (coll w)) w /\
  n = len (batch (coll w) ++ [span]).
Proof.
  destruct (append_cases span w) as [[? ->]|[(_ & _ & ->)|(_ & _ & ->)]];
    intros [= <- <-]; [done|..].
  - rewrite (overflowed_logged (Log (disposing (int_sub (len (batch (coll w) ++ [span])) (maxBacklog (coll w)))) w)) by done.
    rewrite overflowed_Log. simpl. by rewrite orb_true_r.
  - rewrite (overflowed_logged (Log (disposing (int_sub (len (batch (coll w) ++ [span])) (maxBacklog (coll w)))) w)) by done.
    rewrite overflowed_Log. simpl. by rewrite orb_true_r.
Qed.

Lemma end_no_sender t sb w w1 :
  exclusive w -> sendNow_of t w = Some (Sending sb) ->
  looper w1 = looper w -> goroutines w1 = goroutines w ->
  forall t1 sb1, sendNow_of t1 (set_sendNow t Returned w1) <> Some (Sending sb1).
Proof.
  intros [_ Huniq] Ht Hl Hg t1 sb1. destruct (decide (t = t1)) as [<-|Hne].
  - rewrite sendNow_of_set_eq; [done|].
    rewrite (sendNow_of_ext t w) by done. by rewrite Ht.
  - rewrite sendNow_of_set_ne by done.
    rewrite (sendNow_of_ext t1 w) by done. intros H1.
    by specialize (Huniq _ _ _ _ Ht H1).
Qed.

(** ** First in, first out *)

Lemma fifo_mono w w' :
  collected w' = collected w -> sends w' = sends w ->
  batch (coll w') = batch (coll w) ->
  (forall t sb, sendNow_of t w' = Some (Sending sb) ->
                sendNow_of t w = Some (Sending sb)) ->
  fifo w -> fifo w'.
Proof.
  unfold fifo, spans_of, delivered. intros -> -> -> Hsub [H1 H2]. eauto.
Qed.

Lemma fifo_ext w w' :
  collected w' = collected w -> sends w' = sends w ->
  batch (coll w') = batch (coll w) ->
  looper w' = looper w -> goroutines w' = goroutines w ->
  fifo w -> fifo w'.
Proof.
  intros ? ? ? ? ?. apply fifo_mono; try done.
  intros t sb. by rewrite (sendNow_of_ext t w w').
Qed.

Lemma fifo_go w : fifo w -> fifo (go_sendNow w).
Proof.
  apply fifo_mono; try done. intros t sb [H|H]%sendNow_of_go; done.
Qed.

Lemma fifo_step w ev w' :
  exclusive w -> fifo w -> step P w ev = Some w' ->
  overflowed w' = false -> fifo w'.
Proof.
  intros Hex Hfifo Hstep Hov.
  destruct ev as [|span now|now now'| | |t|t resp| |].
  - apply start_inv in Hstep as [Hl ->]. revert Hfifo.
    unfold loop_start. case_match; [|by apply fifo_ext].
    apply fifo_mono; try done. intros [|i] sb; simpl; done.
  - apply collect_inv in Hstep as (Hl & w1 & n & Happ & Hcases).
    assert (overflowed w1 = false) as Hov1.
    { destruct Hcases as [(? & _ & ->)|[(_ & _ & ->)|(_ & _ & ->)]]; done. }
    apply append_fit in Happ as (_ & -> & ->); [|done].
    assert (fifo (with_coll
      (with_batch (batch (coll (Collect span w)) ++ [span])
         (coll (Collect span w))) (Collect span w))) as Hf1.
    { destruct Hfifo as [H1 H2]. split.
      - unfold spans_of, delivered in *. simpl. rewrite fmap_app, H1. simpl.
        by rewrite app_assoc.
      - simpl. intros t sb Ht. apply prefix_app_r, (H2 t). exact Ht. }
    destruct Hcases as [(? & _ & ->)|[(_ & _ & ->)|(_ & _ & ->)]]; try done.
    by apply fifo_go, (fifo_ext _ _ eq_refl eq_refl eq_refl eq_refl eq_refl).
  - apply tick_inv in Hstep as (Hl & [[_ ->]|[_ ->]]); [done|].
    by apply fifo_go, (fifo_ext w).
  - apply quit_inv in Hstep as (Hl & q & _ & ->). revert Hfifo.
    apply fifo_mono; try done. intros [|i] sb; simpl; done.
  - apply shutdown_inv in Hstep as (Hl & _ & ->). revert Hfifo.
    apply fifo_mono; try done. intros [|i] sb; simpl; done.
  - apply begin_inv in Hstep as (Ht & Hm & [[_ ->]|[_ ->]]).
    + revert Hfifo. apply fifo_mono; try (by destruct t).
      intros t1 sb. destruct (decide (t = t1)) as [<-|Hne].
      * by rewrite sendNow_of_set_eq.
      * by rewrite sendNow_of_set_ne.
    + destruct Hfifo as [H1 H2]. split; [by destruct t|].
      intros t1 sb. rewrite set_sendNow_frame. simpl.
      destruct (decide (t = t1)) as [<-|Hne].
      * rewrite sendNow_of_set_eq by done. by intros [= <-].
      * rewrite sendNow_of_set_ne by done. apply H2.
  - apply end_inv in Hstep as (sb & Ht & ->).
    destruct (sendNow_end_frame sb resp w) as (Hl & Hg & _).
    pose proof (end_no_sender t sb w _ Hex Ht Hl Hg) as Hnone.
    split; [|intros t1 sb1 H1; by apply Hnone in H1].
    destruct Hfifo as [H1 H2]. apply H2 in Ht as [k Hk].
    unfold spans_of, delivered in *. rewrite set_sendNow_frame.
    destruct (set_sendNow_history t Returned (sendNow_end P sb resp w))
      as (_ & -> & -> & _).
    destruct (sendNow_end_cases sb resp w)
      as [(? & _ & ->)|[(? & _ & ->)|[(_ & _ & ->)|(_ & Hlen & ->)]]]; simpl.
    + done.
    + rewrite omap_app. simpl. by rewrite app_nil_r.
    + rewrite omap_app, concat_app. simpl. rewrite app_nil_r, H1, Hk.
      by rewrite drop_app_length, app_assoc.
    + rewrite Hk in Hlen. unfold len in Hlen. rewrite length_app in Hlen. lia.
  - apply close_inv in Hstep as (_ & ->). by apply (fifo_ext w).
  - apply closed_inv in Hstep as (n & err & rest & _ & _ & ->).
    by apply (fifo_ext w).
Qed.

(** ** Simple effects of a step *)

Ltac step_brute H :=
  unfold step, loop, loop_start, loop_shutdown, Close_quit, Close_return,
    sendNow_begin, sendNow_end, append, set_sendNow in H;
  repeat (case_match; simplify_eq/=; try done).

Lemma step_config w ev w' :
  step P w ev = Some w' ->
  url (coll w') = url (coll w) /\
  batchInterval (coll w') = batchInterval (coll w) /\
  batchSize (coll w') = batchSize (coll w) /\
  maxBacklog (coll w') = maxBacklog (coll w) /\
  logger (coll w') = logger (coll w) /\
  client (coll w') = client (coll w).
Proof. intros H. step_brute H. Qed.

Lemma step_history w ev w' :
  step P w ev = Some w' ->
  logged w `prefix_of` logged w' /\ sends w `prefix_of` sends w' /\
  collected w `prefix_of` collected w' /\ closed w `prefix_of` closed w'.
Proof.
  intros H. step_brute H.
  all: repeat split; try done; try (by apply prefix_app_r).
Qed.

Lemma step_results w ev w' :
  step P w ev = Some w' ->
  Forall (fun a => a.2 = None) (collected w) ->
  Forall (fun err => err = None) (closed w) ->
  Forall (fun err => err = None) (shutdown (coll w)) ->
  Forall (fun a => a.2 = None) (collected w') /\
  Forall (fun err => err = None) (closed w') /\
  Forall (fun err => err = None) (shutdown (coll w')).
Proof.
  intros H Hc Hd Hs. destruct ev; try (by step_brute H).
  - step_brute H.
    all: repeat split; try done; apply Forall_app; split; [done|by constructor].
  - apply shutdown_inv in H as (_ & _ & ->). repeat split; try done.
    by constructor.
  - apply closed_inv in H as (n & err & rest & _ & Hsh & ->).
    rewrite Hsh in Hs. apply Forall_cons in Hs as [-> Hs].
    repeat split; try done. apply Forall_app; split; [done|by constructor].
Qed.

(** ** The newly built collector *)

Lemma options_keep (options : list (HTTPOption Span)) c :
  Forall exported options ->
  let c' := fold_left (fun c option => option c) options c in
  url c' = url c /\ batch c' = batch c /\ quit c' = quit c /\
  shutdown c' = shutdown c /\ sendMutex c' = sendMutex c.
Proof.
  intros Hopt. revert c. induction Hopt as [|o options Ho _ IH]; intros c.
  - done.
  - simpl. destruct (IH (o c)) as (-> & -> & -> & -> & ->).
    by destruct Ho.
Qed.

Lemma new_collector url0 (options : list (HTTPOption Span)) now :
  Forall exported options ->
  let w := (NewHTTPCollector url0 options now).1 in
  url (coll w) = url0 /\ batch (coll w) = [] /\ quit (coll w) = O /\
  shutdown (coll w) = [] /\ sendMutex (coll w) = false /\
  looper w = Starting /\ goroutines w = [] /\ logged w = [] /\
  sends w = [] /\ collected w = [] /\ closing w = O /\ closed w = [] /\
  panicked w = None.
Proof.
  intros Hopt. unfold NewHTTPCollector. simpl.
  match goal with |- context [fold_left ?f options ?c] =>
    destruct (options_keep options c Hopt) as (-> & -> & -> & -> & ->) end.
  done.
Qed.

(** ** Bounded backlog *)

Lemma int_wrap_small z : - 2 ^ 63 <= z < 2 ^ 63 -> int_wrap z = z.
Proof. intros H. unfold int_wrap. rewrite Z.mod_small; lia. Qed.

Lemma append_bounded span w w1 n :
  bounded w -> append span w = (w1, n) ->
  bounded w1 /\
  (maxBacklog (coll w) < len (batch (coll w) ++ [span]) ->
   w1 = with_coll (with_batch (drop 1 (batch (coll w) ++ [span])) (coll w))
          (Log (disposing 1) w) /\
   len (batch (coll w)) = maxBacklog (coll w)).
Proof.
  unfold bounded. intros Hb.
  assert (len (batch (coll w) ++ [span]) = len (batch (coll w)) + 1) as Hlen.
  { unfold len. rewrite length_app. simpl. lia. }
  destruct (append_cases span w) as [[? ->]|[(Hlt & Hd & ->)|(Hlt & Hd & ->)]];
    intros [= <- <-]; simpl.
  - split; [done|lia].
  - assert (int_sub (len (batch (coll w) ++ [span])) (maxBacklog (coll w)) = 1)
      as Hone.
    { unfold int_sub. replace (_ - _) with 1 by lia. by apply int_wrap_small. }
    rewrite Hone in *. split.
    + unfold len in *. rewrite length_drop. lia.
    + intros _. split; [done|lia].
  - exfalso. apply Hd.
    assert (int_sub (len (batch (coll w) ++ [span])) (maxBacklog (coll w)) = 1)
      as ->.
    { unfold int_sub. replace (_ - _) with 1 by lia. by apply int_wrap_small. }
    unfold len in *. lia.
Qed.

Lemma bounded_step w ev w' :
  bounded w -> step P w ev = Some w' -> bounded w'.
Proof.
  intros Hb Hstep.
  destruct ev as [|span now|now now'| | |t|t resp| |].
  - apply start_inv in Hstep as [_ ->]. unfold loop_start. by case_match.
  - apply collect_inv in Hstep as (Hl & w1 & n & Happ & Hcases).
    apply append_bounded in Happ as [Hb1 _]; [|done].
    destruct Hcases as [(? & _ & ->)|[(_ & _ & ->)|(_ & _ & ->)]]; done.
  - by apply tick_inv in Hstep as (Hl & [[_ ->]|[_ ->]]).
  - by apply quit_inv in Hstep as (Hl & q & _ & ->).
  - by apply shutdown_inv in Hstep as (Hl & _ & ->).
  - apply begin_inv in Hstep as (Ht & Hm & [[_ ->]|[_ ->]]);
      unfold bounded; by rewrite set_sendNow_frame.
  - apply end_inv in Hstep as (sb & Ht & ->).
    unfold bounded in *. rewrite set_sendNow_frame.
    destruct (sendNow_end_cases sb resp w)
      as [(? & _ & ->)|[(? & _ & ->)|[(_ & _ & ->)|(_ & Hlen & ->)]]];
      simpl; try done.
    unfold len in *. rewrite length_drop. lia.
  - by apply close_inv in Hstep as (_ & ->).
  - by apply closed_inv in Hstep as (n & err & rest & _ & _ & ->).
Qed.

(** ** Shutdown *)

Lemma stopped_first_step w ev w' :
  stopped_first w -> step P w ev = Some w' -> stopped_first w'.
Proof.
  unfold stopped_first. intros Hs Hstep.
  destruct ev as [|span now|now now'| | |t|t resp| |].
  - apply start_inv in Hstep as [Hl ->]. unfold loop_start.
    case_match; simpl; intros Hx; apply Hs in Hx; congruence.
  - apply collect_inv in Hstep as (Hl & w1 & n & Happ & Hcases).
    apply append_frame in Happ as (Hl1 & _ & _ & _ & _ & Hc & Hsh & _).
    assert (shutdown (coll w') = shutdown (coll w) /\ closed w' = closed w)
      as [-> ->].
    { destruct Hcases as [(? & _ & ->)|[(_ & _ & ->)|(_ & _ & ->)]]; done. }
    intros Hx. apply Hs in Hx. simpl in *. congruence.
  - apply tick_inv in Hstep as (Hl & [[_ ->]|[_ ->]]); simpl; [done|].
    intros Hx. apply Hs in Hx. congruence.
  - apply quit_inv in Hstep as (Hl & q & _ & ->). simpl.
    intros Hx. apply Hs in Hx. congruence.
  - by apply shutdown_inv in Hstep as (Hl & _ & ->).
  - apply begin_inv in Hstep as (Ht & Hm & [[_ ->]|[_ ->]]);
      destruct t; simpl in *; intros Hx; apply Hs in Hx;
      first [done | by rewrite Hx in Ht].
  - apply end_inv in Hstep as (sb & Ht & ->).
    destruct (sendNow_end_frame sb resp w) as (Hl & _ & _ & _ & Hc & Hsh & _).
    rewrite set_sendNow_frame.
    destruct (set_sendNow_history t Returned (sendNow_end P sb resp w))
      as (_ & _ & _ & -> & _).
    rewrite Hc, Hsh. intros Hx. apply Hs in Hx.
    destruct t; simpl in *; first [congruence | by rewrite Hx in Ht].
  - by apply close_inv in Hstep as (_ & ->).
  - apply closed_inv in Hstep as (n & err & rest & _ & Hsh & ->). simpl.
    intros _. apply Hs. left. by rewrite Hsh.
Qed.

Lemma attempted_snoc w (a : list Span * error) x :
  x ∈ attempted w \/ x ∈ a.1 ->
  x ∈ attempted (with_sends (sends w ++ [a]) w).
Proof.
  unfold attempted. simpl. rewrite fmap_app, concat_app. simpl.
  rewrite app_nil_r, elem_of_app. tauto.
Qed.

Lemma drained_shrink w w' :
  looper w' = looper w ->
  (panicked w' = None -> panicked w = None) ->
  (forall x, x ∈ batch (coll w') -> x ∈ batch (coll w)) ->
  (forall x, x ∈ attempted w -> x ∈ attempted w') ->
  (forall sb, looper w = Draining (Sending sb) ->
              batch (coll w') = batch (coll w)) ->
  drained w -> drained w'.
Proof.
  unfold drained. intros -> Hp Hb Ha Hs.
  destruct (looper w) as [| |[]|]; try done.
  - intros <-. by eapply Hs.
  - intros H Hp' x Hx. apply Ha, H; auto.
  - intros H x Hx. apply Ha, H; auto.
Qed.

Lemma drained_ext w w' :
  looper w' = looper w -> panicked w' = panicked w ->
  batch (coll w') = batch (coll w) -> sends w' = sends w ->
  drained w -> drained w'.
Proof.
  intros Hl Hp Hb Hs. apply drained_shrink; try done.
  - by rewrite Hp.
  - by rewrite Hb.
  - unfold attempted. by rewrite Hs.
Qed.

Lemma drained_step w ev w' :
  exclusive w -> drained w -> step P w ev = Some w' -> drained w'.
Proof.
  intros Hex Hd Hstep.
  destruct ev as [|span now|now now'| | |t|t resp| |].
  - apply start_inv in Hstep as [Hl ->]. unfold drained, loop_start.
    destruct (0 <? tickPeriod (coll w)); simpl; rewrite ?Hl; done.
  - apply collect_inv in Hstep as (Hl & w1 & n & Happ & Hcases).
    apply append_frame in Happ as (Hl1 & _). simpl in Hl1.
    unfold drained.
    assert (looper w' = Running) as ->; [|done].
    destruct Hcases as [(? & _ & ->)|[(_ & _ & ->)|(_ & _ & ->)]];
      simpl; congruence.
  - apply tick_inv in Hstep as (Hl & [[_ ->]|[_ ->]]); [done|].
    unfold drained. simpl. by rewrite Hl.
  - by apply quit_inv in Hstep as (Hl & q & _ & ->).
  - pose proof (step_live _ _ _ Hstep) as Hp.
    apply shutdown_inv in Hstep as (Hl & _ & ->).
    unfold drained in *. rewrite Hl in Hd. simpl. auto.
  - apply begin_inv in Hstep as (Ht & Hm & [[Hb ->]|[Hb ->]]).
    + destruct t as [|i]; [|by apply (drained_ext w)].
      unfold drained. simpl. rewrite Hb. intros _ x Hx. by apply elem_of_nil in Hx.
    + destruct t as [|i]; [done|by apply (drained_ext w)].
  - apply end_inv in Hstep as (sb & Ht & ->).
    destruct t as [|i].
    + simpl in Ht. destruct (looper w) as [| |s|] eqn:Hl; try done.
      injection Ht as ->. unfold drained in Hd. rewrite Hl in Hd.
      unfold drained. simpl.
      destruct (sendNow_end_cases sb resp w)
        as [(msg & _ & ->)|[(err & _ & ->)|[(_ & _ & ->)|(_ & Hlen & ->)]]];
        simpl; try done.
      * intros _ x Hx. apply (attempted_snoc w (sb, Some err)). right.
        simpl. by rewrite <-Hd.
      * rewrite Hd, drop_all. intros _ x Hx. by apply elem_of_nil in Hx.
    + assert (forall sb', looper w <> Draining (Sending sb')) as Hns.
      { intros sb' Hl. destruct Hex as [_ Huniq].
        assert (TGo i = TLoop); [|done].
        eapply Huniq; [done|]. simpl. by rewrite Hl. }
      assert (drained (sendNow_end P sb resp w)); [|done].
      revert Hd.
      destruct (sendNow_end_cases sb resp w)
        as [(msg & _ & ->)|[(err & _ & ->)|[(_ & _ & ->)|(_ & Hlen & ->)]]];
        apply drained_shrink; simpl; try done;
        try (intros sb' Hl; by apply Hns in Hl);
        try (intros x Hx; apply (attempted_snoc w (sb, Some err)); by left);
        try (intros x Hx; apply (attempted_snoc w (sb, None)); by left).
      intros x Hx.
      by apply (subseteq_drop (length sb)) in Hx.
  - by apply close_inv in Hstep as (_ & ->).
  - by apply closed_inv in Hstep as (n & err & rest & _ & _ & ->).
Qed.

(** ** Snapshots are never empty *)

Lemma loaded_mono w w' :
  (forall t sb, sendNow_of t w' = Some (Sending sb) ->
                sendNow_of t w = Some (Sending sb)) ->
  loaded w -> loaded w'.
Proof. unfold loaded. eauto. Qed.

Lemma loaded_step w ev w' :
  loaded w -> step P w ev = Some w' -> loaded w'.
Proof.
  intros Hld Hstep.
  destruct ev as [|span now|now now'| | |t|t resp| |].
  - apply start_inv in Hstep as [Hl ->]. revert Hld. apply loaded_mono.
    unfold loop_start. destruct (0 <? tickPeriod (coll w)); [|done].
    intros [|i] sb; simpl; done.
  - apply collect_inv in Hstep as (Hl & w1 & n & Happ & Hcases).
    apply append_frame in Happ as (Hl1 & Hg1 & _).
    assert (loaded w1).
    { revert Hld. apply loaded_mono. intros t sb.
      by rewrite (sendNow_of_ext t (Collect span w) w1). }
    destruct Hcases as [(? & _ & ->)|[(_ & _ & ->)|(_ & _ & ->)]]; try done.
    revert H. apply loaded_mono. intros t sb [H|H]%sendNow_of_go; done.
  - apply tick_inv in Hstep as (Hl & [[_ ->]|[_ ->]]); [done|].
    revert Hld. apply loaded_mono. intros t sb [H|H]%sendNow_of_go; done.
  - apply quit_inv in Hstep as (Hl & q & _ & ->). revert Hld.
    apply loaded_mono. intros [|i] sb; simpl; done.
  - apply shutdown_inv in Hstep as (Hl & _ & ->). revert Hld.
    apply loaded_mono. intros [|i] sb; simpl; done.
  - apply begin_inv in Hstep as (Ht & Hm & [[_ ->]|[Hb ->]]).
    + revert Hld. apply loaded_mono. intros t1 sb.
      destruct (decide (t = t1)) as [<-|Hne].
      * by rewrite sendNow_of_set_eq.
      * by rewrite sendNow_of_set_ne.
    + intros t1 sb. destruct (decide (t = t1)) as [<-|Hne].
      * rewrite sendNow_of_set_eq by done. by intros [= <-].
      * rewrite sendNow_of_set_ne by done. apply Hld.
  - apply end_inv in Hstep as (sb & Ht & ->).
    destruct (sendNow_end_frame sb resp w) as (Hl & Hg & _).
    intros t1 sb1. destruct (decide (t = t1)) as [<-|Hne].
    + rewrite sendNow_of_set_eq; [done|].
      rewrite (sendNow_of_ext t w) by done. by rewrite Ht.
    + rewrite sendNow_of_set_ne by done.
      rewrite (sendNow_of_ext t1 w) by done. apply Hld.
  - apply close_inv in Hstep as (_ & ->). done.
  - apply closed_inv in Hstep as (n & err & rest & _ & _ & ->). done.
Qed.

(** ** How many spans the batch can hold *)

Lemma len_app {A} (l k : list A) : len (l ++ k) = len l + len k.
Proof. unfold len. rewrite length_app. lia. Qed.

Lemma counted_ext w w' :
  batch (coll w') = batch (coll w) -> collected w' = collected w ->
  logged w' = logged w -> maxBacklog (coll w') = maxBacklog (coll w) ->
  counted w -> counted w'.
Proof.
  unfold counted, spans_of. intros -> -> Hlog ->.
  by rewrite (overflowed_logged w w').
Qed.

Lemma counted_step w ev w' :
  counted w -> step P w ev = Some w' -> counted w'.
Proof.
  intros Hc Hstep.
  destruct ev as [|span now|now now'| | |t|t resp| |].
  - apply start_inv in Hstep as [_ ->]. unfold loop_start.
    by destruct (0 <? tickPeriod (coll w)).
  - apply collect_inv in Hstep as (Hl & w1 & n & Happ & Hcases).
    assert (counted w1).
    { destruct Hc as [Hc1 Hc2]. unfold counted, spans_of in *.
      pose proof (len_app (batch (coll w)) [span]) as Hlen.
      pose proof (len_app (collected w).*1 [span]) as Hlen'.
      change (len [span]) with 1 in *.
      destruct (append_cases span (Collect span w))
        as [[? Heq]|[(Hlt & Hd & Heq)|(Hlt & Hd & Heq)]];
        rewrite Heq in Happ; injection Happ as <- <-; simpl in *;
        rewrite fmap_app; simpl.
      - split; [lia|]. intros Hov. apply Hc2 in Hov. lia.
      - split; [|lia]. unfold len in *. rewrite length_drop. lia.
      - split; lia. }
    destruct Hcases as [(? & _ & ->)|[(_ & _ & ->)|(_ & _ & ->)]]; done.
  - by apply tick_inv in Hstep as (Hl & [[_ ->]|[_ ->]]).
  - by apply quit_inv in Hstep as (Hl & q & _ & ->).
  - by apply shutdown_inv in Hstep as (Hl & _ & ->).
  - apply begin_inv in Hstep as (Ht & Hm & [[_ ->]|[_ ->]]);
      revert Hc; apply counted_ext; by destruct t.
  - apply end_inv in Hstep as (sb & Ht & ->).
    assert (counted (sendNow_end P sb resp w)) as Hc';
      [|revert Hc'; apply counted_ext; by destruct t].
    destruct Hc as [Hc1 Hc2].
    destruct (sendNow_end_cases sb resp w)
      as [(msg & _ & ->)|[(err & _ & ->)|[(_ & _ & ->)|(_ & Hlen & ->)]]];
      try done.
    + split; [done|]. rewrite (overflowed_logged (Log [KString "err"; KString err] w)) by done.
      rewrite overflowed_Log. simpl. by rewrite orb_false_r.
    + split; [|done]. simpl. unfold len in *. rewrite length_drop.
      unfold spans_of in *. simpl. lia.
  - by apply close_inv in Hstep as (_ & ->).
  - by apply closed_inv in Hstep as (n & err & rest & _ & _ & ->).
Qed.

(** ** Only the newest spans survive *)

Lemma foldr_add_snoc (l : list Z) x :
  foldr Z.add 0 (l ++ [x]) = foldr Z.add 0 l + x.
Proof. induction l as [|y l IH]; simpl; lia. Qed.

Lemma disposed_Log call w :
  disposed (Log call w) = disposed w + default 0 (dispose_count call).
Proof.
  unfold disposed. simpl. rewrite omap_app. simpl.
  destruct (dispose_count call); simpl.
  - apply foldr_add_snoc.
  - rewrite app_nil_r. lia.
Qed.

Lemma disposed_logged w w' : logged w' = logged w -> disposed w' = disposed w.
Proof. unfold disposed. by intros ->. Qed.



(** ** Overflow is never forgotten *)

Lemma overflowed_prefix w w' :
  logged w `prefix_of` logged w' -> overflowed w' = false ->
  overflowed w = false.
Proof.
  intros [k Hk]. unfold overflowed. rewrite Hk, existsb_app.
  by intros [? _]%orb_false_elim.
Qed.

Lemma overflowed_step w ev w' :
  step P w ev = Some w' -> overflowed w' = false -> overflowed w = false.
Proof. intros (H & _)%step_history. by apply overflowed_prefix. Qed.

Lemma overflowed_run w evs w' :
  run P w evs = Some w' -> overflowed w' = false -> overflowed w = false.
Proof.
  revert w. induction evs as [|ev evs IH]; simpl; intros w.
  - by intros [= <-].
  - destruct (step P w ev) as [w1|] eqn:E; [|done].
    intros Hrun Hov. eapply overflowed_step; eauto.
Qed.

(** ** Between two flush attempts *)

Lemma idle_mono w w' :
  (forall t sb, sendNow_of t w' = Some (Sending sb) ->
                sendNow_of t w = Some (Sending sb)) ->
  idle w -> idle w'.
Proof. unfold idle. intros Hsub Hi t sb Ht. eapply Hi; eauto. Qed.

Lemma quiet_step w ev w' :
  idle w -> step P w ev = Some w' -> begins ev = false ->
  overflowed w' = false ->
  idle w' /\ batch (coll w') = batch (coll w) ++ arrivals [ev].
Proof.
  intros Hi Hstep Hev Hov.
  destruct ev as [|span now|now now'| | |t|t resp| |]; try done; simpl.
  - apply start_inv in Hstep as [Hl ->]. unfold loop_start.
    rewrite app_nil_r.
    destruct (0 <? tickPeriod (coll w)); [|done]. split; [|done].
    revert Hi. apply idle_mono. intros [|i] sb; simpl; done.
  - apply collect_inv in Hstep as (Hl & w1 & n & Happ & Hcases).
    assert (overflowed w1 = false) as Hov1.
    { destruct Hcases as [(? & _ & ->)|[(_ & _ & ->)|(_ & _ & ->)]]; done. }
    apply append_fit in Happ as (_ & -> & ->); [|done].
    destruct Hcases as [(? & _ & ->)|[(_ & _ & ->)|(_ & _ & ->)]];
      (split; [|done]); try done.
    revert Hi. apply idle_mono. intros t sb [H|H]%sendNow_of_go; done.
  - rewrite app_nil_r.
    apply tick_inv in Hstep as (Hl & [[_ ->]|[_ ->]]); [done|].
    split; [|done]. revert Hi. apply idle_mono.
    intros t sb [H|H]%sendNow_of_go; done.
  - rewrite app_nil_r.
    apply quit_inv in Hstep as (Hl & q & _ & ->). split; [|done].
    revert Hi. apply idle_mono. intros [|i] sb; simpl; done.
  - rewrite app_nil_r.
    apply shutdown_inv in Hstep as (Hl & _ & ->). split; [|done].
    revert Hi. apply idle_mono. intros [|i] sb; simpl; done.
  - apply end_inv in Hstep as (sb & Ht & ->). by apply Hi in Ht.
  - rewrite app_nil_r. by apply close_inv in Hstep as (_ & ->).
  - rewrite app_nil_r.
    by apply closed_inv in Hstep as (n & err & rest & _ & _ & ->).
Qed.

Lemma quiet_run w evs w' :
  idle w -> run P w evs = Some w' ->
  Forall (fun ev => begins ev = false) evs ->
  overflowed w' = false ->
  idle w' /\ batch (coll w') = batch (coll w) ++ arrivals evs.
Proof.
  intros Hi Hrun Hq Hov. revert w Hi Hrun.
  induction Hq as [|ev evs Hev _ IH]; simpl; intros w Hi.
  - intros [= <-]. by rewrite app_nil_r.
  - destruct (step P w ev) as [w1|] eqn:E; [|done]. intros Hrun.
    pose proof (overflowed_run _ _ _ Hrun Hov) as Hov1.
    destruct (quiet_step w ev w1 Hi E Hev Hov1) as [Hi1 Hb1].
    destruct (IH w1 Hi1 Hrun) as [Hi' Hb']. split; [done|].
    rewrite Hb', Hb1, <-app_assoc. f_equal.
    unfold arrivals. simpl. by destruct ev.
Qed.

(** ** The deadline *)

Lemma deadline_step w ev w' (t0 : Time) :
  step P w ev = Some w' -> Forall (fun r : Time => t0 <= r) (readings [ev]) ->
  t0 + batchInterval (coll w) <= nextSend (coll w) ->
  t0 + batchInterval (coll w') <= nextSend (coll w').
Proof.
  intros Hstep Hclock Hd.
  destruct ev as [|span now|now now'| | |t|t resp| |]; simpl in Hclock.
  - apply start_inv in Hstep as [_ ->]. unfold loop_start.
    by destruct (0 <? tickPeriod (coll w)).
  - apply collect_inv in Hstep as (Hl & w1 & n & Happ & Hcases).
    apply Forall_cons in Hclock as [Hnow _].
    assert (batchInterval (coll w1) = batchInterval (coll w) /\
            nextSend (coll w1) = nextSend (coll w)) as [Hb1 Hn1].
    { destruct (append_cases span (Collect span w))
        as [[_ Heq]|[(_ & _ & Heq)|(_ & _ & Heq)]];
        rewrite Heq in Happ; by injection Happ as <- <-. }
    destruct Hcases as [(? & _ & ->)|[(_ & _ & ->)|(_ & _ & ->)]];
      simpl; unfold Time_Add; lia.
  - apply Forall_cons in Hclock as [_ [Hnow _]%Forall_cons].
    apply tick_inv in Hstep as (Hl & [[_ ->]|[_ ->]]); [done|].
    simpl. unfold Time_Add. lia.
  - by apply quit_inv in Hstep as (Hl & q & _ & ->).
  - by apply shutdown_inv in Hstep as (Hl & _ & ->).
  - apply begin_inv in Hstep as (Ht & Hm & [[_ ->]|[_ ->]]);
      by rewrite set_sendNow_frame.
  - apply end_inv in Hstep as (sb & Ht & ->). rewrite set_sendNow_frame.
    by destruct (sendNow_end_cases sb resp w)
      as [(msg & _ & ->)|[(err & _ & ->)|[(_ & _ & ->)|(_ & Hlen & ->)]]].
  - by apply close_inv in Hstep as (_ & ->).
  - by apply closed_inv in Hstep as (n & err & rest & _ & _ & ->).
Qed.

Lemma deadline_run w evs w' (t0 : Time) :
  run P w evs = Some w' -> Forall (fun r : Time => t0 <= r) (readings evs) ->
  t0 + batchInterval (coll w) <= nextSend (coll w) ->
  t0 + batchInterval (coll w') <= nextSend (coll w').
Proof.
  revert w. induction evs as [|ev evs IH]; simpl; intros w.
  - by intros [= <-].
  - destruct (step P w ev) as [w1|] eqn:E; [|done].
    intros Hrun [H1 H2]%Forall_app Hd. apply (IH w1); [done..|].
    eapply deadline_step; [done| |done]. simpl. by rewrite app_nil_r.
Qed.

(** ** What holds in every reachable state *)

Lemma run_config w evs w' :
  run P w evs = Some w' ->
  url (coll w') = url (coll w) /\
  batchInterval (coll w') = batchInterval (coll w) /\
  batchSize (coll w') = batchSize (coll w) /\
  maxBacklog (coll w') = maxBacklog (coll w).
Proof.
  revert w. induction evs as [|ev evs IH]; simpl; intros w.
  - by intros [= <-].
  - destruct (step P w ev) as [w1|] eqn:E; [|done]. intros Hrun.
    destruct (IH _ Hrun) as (-> & -> & -> & ->).
    by destruct (step_config _ _ _ E) as (-> & -> & -> & -> & _).
Qed.

Lemma end_step w t sb resp :
  panicked w = None -> sendNow_of t w = Some (Sending sb) ->
  step P w (EvEnd t resp) =
    Some (set_sendNow t Returned (sendNow_end P sb resp w)).
Proof. intros Hp Ht. unfold step. by rewrite Hp, Ht. Qed.


Lemma reachable_exclusive w : reachable P w -> exclusive w.
Proof.
  apply reachable_ind.
  - intros url0 options now Hopt.
    destruct (new_collector url0 options now Hopt)
      as (_ & _ & _ & _ & _ & Hl & Hg & _).
    split; [intros _|]; intros [|i] ?; simpl; rewrite ?Hl, ?Hg; done.
  - intros w0 ev w1 _. apply exclusive_step.
Qed.

Lemma reachable_loaded w : reachable P w -> loaded w.
Proof.
  apply reachable_ind.
  - intros url0 options now Hopt.
    destruct (new_collector url0 options now Hopt)
      as (_ & _ & _ & _ & _ & Hl & Hg & _).
    intros [|i] ?; simpl; rewrite ?Hl, ?Hg; done.
  - intros w0 ev w1 _. apply loaded_step.
Qed.

Lemma reachable_fifo w : reachable P w -> overflowed w = false -> fifo w.
Proof.
  apply (reachable_ind (fun w => overflowed w = false -> fifo w)).
  - intros url0 options now Hopt _.
    destruct (new_collector url0 options now Hopt)
      as (_ & Hb & _ & _ & _ & Hl & Hg & _ & Hs & Hc & _).
    split.
    + unfold spans_of, delivered. by rewrite Hb, Hs, Hc.
    + intros [|i] ?; simpl; rewrite ?Hl, ?Hg; done.
  - intros w0 ev w1 Hr IH Hstep Hov.
    apply (fifo_step w0 ev w1); auto using reachable_exclusive.
    apply IH. by apply (overflowed_step w0 ev w1).
Qed.

Lemma reachable_bounded w :
  reachable P w -> 0 <= maxBacklog (coll w) -> bounded w.
Proof.
  apply (reachable_ind (fun w => 0 <= maxBacklog (coll w) -> bounded w)).
  - intros url0 options now Hopt Hm.
    destruct (new_collector url0 options now Hopt) as (_ & Hb & _).
    unfold bounded. by rewrite Hb.
  - intros w0 ev w1 Hr IH Hstep Hm.
    apply (bounded_step w0 ev w1); [|done]. apply IH.
    by destruct (step_config _ _ _ Hstep) as (_ & _ & _ & <- & _).
Qed.

Lemma reachable_counted w : reachable P w -> counted w.
Proof.
  apply reachable_ind.
  - intros url0 options now Hopt.
    destruct (new_collector url0 options now Hopt)
      as (_ & Hb & _ & _ & _ & _ & _ & Hlog & _ & Hc & _).
    unfold counted, spans_of, overflowed. by rewrite Hb, Hlog, Hc.
  - intros w0 ev w1 _. apply counted_step.
Qed.


Lemma reachable_stopped_first w : reachable P w -> stopped_first w.
Proof.
  apply reachable_ind.
  - intros url0 options now Hopt.
    destruct (new_collector url0 options now Hopt)
      as (_ & _ & _ & Hsh & _ & _ & _ & _ & _ & _ & _ & Hcl & _).
    unfold stopped_first. rewrite Hsh, Hcl. by intros [|].
  - intros w0 ev w1 _. apply stopped_first_step.
Qed.

Lemma reachable_drained w : reachable P w -> drained w.
Proof.
  apply reachable_ind.
  - intros url0 options now Hopt.
    destruct (new_collector url0 options now Hopt)
      as (_ & _ & _ & _ & _ & Hl & _).
    unfold drained. by rewrite Hl.
  - intros w0 ev w1 Hr. apply drained_step. by apply reachable_exclusive.
Qed.

Lemma reachable_results w :
  reachable P w ->
  Forall (fun a => a.2 = None) (collected w) /\
  Forall (fun err => err = None) (closed w) /\
  Forall (fun err => err = None) (shutdown (coll w)).
Proof.
  apply (reachable_ind (fun w =>
    Forall (fun a => a.2 = None) (collected w) /\
    Forall (fun err => err = None) (closed w) /\
    Forall (fun err => err = None) (shutdown (coll w)))).
  - intros url0 options now Hopt.
    destruct (new_collector url0 options now Hopt)
      as (_ & _ & _ & Hsh & _ & _ & _ & _ & _ & Hc & _ & Hcl & _).
    by rewrite Hsh, Hc, Hcl.
  - intros w0 ev w1 _ (H1 & H2 & H3) Hstep. by apply (step_results w0 ev w1).
Qed.

Lemma write_spans_panics (spans : list Span) (x : Span) buf :
  x ∈ spans -> (forall buf, is_Some (Span_Write P x buf).2) ->
  exists msg, write_spans P spans buf = Panics msg.
Proof.
  intros Hin Hbad. revert buf.
  induction spans as [|y spans IH]; intros buf; [by apply elem_of_nil in Hin|].
  simpl. destruct (Span_Write P y buf) as [buf' [err|]] eqn:E; [eauto|].
  apply elem_of_cons in Hin as [->|Hin]; [|auto].
  destruct (Hbad buf) as [err Herr]. rewrite E in Herr. discriminate.
Qed.

Lemma delivered_attempted w x : x ∈ delivered w -> x ∈ attempted w.
Proof.
  unfold delivered, attempted.
  induction (sends w) as [|[sb [err|]] l IH]; simpl; [done|..].
  - rewrite elem_of_app. auto.
  - rewrite !elem_of_app. intros [?|?]; auto.
Qed.

End Basics.

Lemma sample_reachable (ports : Ports nat) options evs :
  Forall exported options ->
  is_Some (run ports
             (NewHTTPCollector "http://zipkin:9411/api/v1/spans" options 0).1
             evs) ->
  reachable ports (sample_run ports options evs).
Proof.
  intros Hopt [w Hw]. unfold sample_run. rewrite Hw. simpl.
  by exists "http://zipkin:9411/api/v1/spans", options, 0, evs.
Qed.

(** * Parts of an execution *)

Section Windows.

Context {Span : Type} (P : Ports Span).
Implicit Types (w : world Span) (ev : event Span) (t : thread) (s : sender Span).

(** ** Evictions within a part of an execution *)

Lemma evictions_step w ev w' :
  step P w ev = Some w' -> (evictions w <= evictions w')%nat.
Proof.
  intros ([k Hk] & _)%(step_history P). unfold evictions.
  rewrite Hk, omap_app, length_app. lia.
Qed.

Lemma evictions_run w evs w' :
  run P w evs = Some w' -> (evictions w <= evictions w')%nat.
Proof.
  revert w. induction evs as [|ev evs IH]; simpl; intros w.
  - intros [= <-]. lia.
  - destruct (step P w ev) as [w1|] eqn:E; [|done]. intros Hrun.
    pose proof (evictions_step _ _ _ E). pose proof (IH _ Hrun). lia.
Qed.

(** Without an eviction, and apart from the end of a send, a step adds the
    span that arrives to the batch and changes nothing else of it. *)
Lemma calm_step w ev w' :
  step P w ev = Some w' -> evictions w' = evictions w ->
  (forall t resp, ev <> EvEnd t resp) ->
  batch (coll w') = batch (coll w) ++ arrivals [ev].
Proof.
  intros Hstep Hev Hne.
  destruct ev as [|span now|now now'| | |t|t resp| |]; simpl;
    rewrite ?app_nil_r.
  - apply start_inv in Hstep as [Hl ->]. unfold loop_start.
    by destruct (0 <? tickPeriod (coll w)).
  - apply collect_inv in Hstep as (Hl & w1 & n & Happ & Hcases).
    assert (evictions w1 = evictions w) as Hev1.
    { destruct Hcases as [(? & _ & ->)|[(_ & _ & ->)|(_ & _ & ->)]]; done. }
    assert (batch (coll w1) = batch (coll w) ++ [span]) as Hb1.
    { destruct (append_cases span (Collect span w))
        as [[_ Heq]|[(_ & _ & Heq)|(_ & _ & Heq)]];
        rewrite Heq in Happ; injection Happ as <- <-; try done;
        unfold evictions in Hev1; simpl in Hev1;
        rewrite omap_app, length_app in Hev1; simpl in Hev1; lia. }
    by destruct Hcases as [(? & _ & ->)|[(_ & _ & ->)|(_ & _ & ->)]].
  - by apply tick_inv in Hstep as (Hl & [[_ ->]|[_ ->]]).
  - by apply quit_inv in Hstep as (Hl & q & _ & ->).
  - by apply shutdown_inv in Hstep as (Hl & _ & ->).
  - apply begin_inv in Hstep as (Ht & Hm & [[_ ->]|[_ ->]]);
      by rewrite set_sendNow_frame.
  - by destruct (Hne t resp).
  - by apply close_inv in Hstep as (_ & ->).
  - by apply closed_inv in Hstep as (n & err & rest & _ & _ & ->).
Qed.

(** ** One invocation of [sendNow] *)

(** An invocation between its snapshot and the end of its network call
    stays there until that end. *)
Lemma sending_step w ev w' t sb :
  step P w ev = Some w' -> sendNow_of t w = Some (Sending sb) ->
  sendNow_of t w' = Some (Sending sb) \/ exists resp, ev = EvEnd t resp.
Proof.
  intros Hstep Ht.
  destruct ev as [|span now|now now'| | |t1|t1 resp| |].
  - apply start_inv in Hstep as [Hl ->]. left. unfold loop_start.
    destruct (0 <? tickPeriod (coll w)); [|done].
    destruct t; simpl in *; [by rewrite Hl in Ht|done].
  - apply collect_inv in Hstep as (Hl & w1 & n & Happ & Hcases).
    apply append_frame in Happ as (Hl1 & Hg1 & _). left.
    assert (sendNow_of t w1 = Some (Sending sb)) as Ht1
      by by rewrite (sendNow_of_ext t (Collect span w) w1).
    destruct Hcases as [(? & _ & ->)|[(_ & _ & ->)|(_ & _ & ->)]]; try done.
    destruct t as [|i]; simpl in *; [done|].
    by apply lookup_app_l_Some.
  - left. apply tick_inv in Hstep as (Hl & [[_ ->]|[_ ->]]); [done|].
    destruct t as [|i]; simpl in *; [done|]. by apply lookup_app_l_Some.
  - apply quit_inv in Hstep as (Hl & q & _ & ->). left.
    destruct t; simpl in *; [by rewrite Hl in Ht|done].
  - apply shutdown_inv in Hstep as (Hl & _ & ->). left.
    destruct t; simpl in *; [by rewrite Hl in Ht|done].
  - apply begin_inv in Hstep as (Ht1 & _ & Hcases). left.
    assert (t1 <> t) as Hne by (intros ->; congruence).
    destruct Hcases as [[_ ->]|[_ ->]]; by rewrite sendNow_of_set_ne.
  - destruct (decide (t1 = t)) as [->|Hne]; [right; eauto|]. left.
    apply end_inv in Hstep as (sb1 & Ht1 & ->).
    rewrite sendNow_of_set_ne by done.
    destruct (sendNow_end_frame P sb1 resp w) as (Hl & Hg & _).
    by rewrite (sendNow_of_ext t w (sendNow_end P sb1 resp w)).
  - left. by apply close_inv in Hstep as (_ & ->).
  - left. by apply closed_inv in Hstep as (n & err & rest & _ & _ & ->).
Qed.

(** An invocation that returned never runs again. *)
Lemma returned_step w ev w' t :
  step P w ev = Some w' ->
  sendNow_of t w = Some Returned \/ (t = TLoop /\ looper w = Stopped) ->
  sendNow_of t w' = Some Returned \/ (t = TLoop /\ looper w' = Stopped).
Proof.
  intros Hstep Ht.
  destruct ev as [|span now|now now'| | |t1|t1 resp| |].
  - apply start_inv in Hstep as [Hl ->]. unfold loop_start.
    destruct (0 <? tickPeriod (coll w)); [|done].
    destruct Ht as [Ht|[-> Hs]]; [|congruence].
    destruct t; simpl in *; [by rewrite Hl in Ht|by left].
  - apply collect_inv in Hstep as (Hl & w1 & n & Happ & Hcases).
    apply append_frame in Happ as (Hl1 & Hg1 & _).
    destruct Ht as [Ht|[-> Hs]]; [|congruence]. left.
    assert (sendNow_of t w1 = Some Returned) as Ht1
      by by rewrite (sendNow_of_ext t (Collect span w) w1).
    destruct Hcases as [(? & _ & ->)|[(_ & _ & ->)|(_ & _ & ->)]]; try done.
    destruct t as [|i]; simpl in *; [done|].
    by apply lookup_app_l_Some.
  - apply tick_inv in Hstep as (Hl & [[_ ->]|[_ ->]]); [done|].
    destruct Ht as [Ht|[-> Hs]]; [|congruence]. left.
    destruct t as [|i]; simpl in *; [done|]. by apply lookup_app_l_Some.
  - apply quit_inv in Hstep as (Hl & q & _ & ->).
    destruct Ht as [Ht|[-> Hs]]; [|congruence].
    destruct t; simpl in *; [by rewrite Hl in Ht|by left].
  - apply shutdown_inv in Hstep as (Hl & _ & ->).
    destruct Ht as [Ht|[-> Hs]]; [|congruence].
    destruct t; simpl in *; [by right|by left].
  - apply begin_inv in Hstep as (Ht1 & _ & Hcases).
    assert (t1 <> t) as Hne.
    { intros ->. destruct Ht as [Ht|[-> Hs]]; [congruence|].
      simpl in Ht1. by rewrite Hs in Ht1. }
    destruct Ht as [Ht|[-> Hs]].
    + left. destruct Hcases as [[_ ->]|[_ ->]]; by rewrite sendNow_of_set_ne.
    + right. split; [done|].
      destruct t1; [done|]. by destruct Hcases as [[_ ->]|[_ ->]].
  - apply end_inv in Hstep as (sb1 & Ht1 & ->).
    destruct (sendNow_end_frame P sb1 resp w) as (Hl & Hg & _).
    assert (t1 <> t) as Hne.
    { intros ->. destruct Ht as [Ht|[-> Hs]]; [congruence|].
      simpl in Ht1. by rewrite Hs in Ht1. }
    destruct Ht as [Ht|[-> Hs]].
    + left. rewrite sendNow_of_set_ne by done.
      by rewrite (sendNow_of_ext t w (sendNow_end P sb1 resp w)).
    + right. split; [done|]. destruct t1; [done|]. simpl. congruence.
  - apply close_inv in Hstep as (_ & ->). by destruct Ht as [Ht|[-> Hs]]; [left|right].
  - apply closed_inv in Hstep as (n & err & rest & _ & _ & ->).
    by destruct Ht as [Ht|[-> Hs]]; [left|right].
Qed.

Lemma returned_run w evs w' t :
  run P w evs = Some w' ->
  sendNow_of t w = Some Returned \/ (t = TLoop /\ looper w = Stopped) ->
  sendNow_of t w' = Some Returned \/ (t = TLoop /\ looper w' = Stopped).
Proof.
  revert w. induction evs as [|ev evs IH]; simpl; intros w.
  - by intros [= <-].
  - destruct (step P w ev) as [w1|] eqn:E; [|done]. intros Hrun Ht.
    apply (IH w1 Hrun). by apply (returned_step w ev).
Qed.

(** While one invocation is between its snapshot and the end of its network
    call, and nothing is evicted, the batch only grows by the spans that
    arrive. *)
Lemma in_flight_run w evs w' t sb sb' :
  exclusive w -> sendNow_of t w = Some (Sending sb) ->
  run P w evs = Some w' -> sendNow_of t w' = Some (Sending sb') ->
  evictions w' = evictions w ->
  sb' = sb /\ batch (coll w') = batch (coll w) ++ arrivals evs.
Proof.
  revert w. induction evs as [|ev evs IH]; simpl; intros w Hx Ht.
  - intros [= <-] Ht' _. rewrite app_nil_r. split; [congruence|done].
  - destruct (step P w ev) as [w1|] eqn:E; [|done]. intros Hrun Ht' Hev.
    pose proof (evictions_step _ _ _ E) as Hle1.
    pose proof (evictions_run _ _ _ Hrun) as Hle2.
    assert (forall t1 resp, ev <> EvEnd t1 resp) as Hne.
    { intros t1 resp ->. pose proof E as Hend.
      apply end_inv in Hend as (sb1 & Ht1 & ->).
      assert (t1 = t) as -> by (destruct Hx as [_ Hx]; eauto).
      assert (sendNow_of t (set_sendNow t Returned (sendNow_end P sb1 resp w))
              = Some Returned) as Hret.
      { apply sendNow_of_set_eq. exists (Sending sb1).
        destruct (sendNow_end_frame P sb1 resp w) as (Hl & Hg & _).
        by rewrite (sendNow_of_ext t w (sendNow_end P sb1 resp w)). }
      destruct (returned_run _ _ _ t Hrun (or_introl Hret)) as [H|[-> H]].
      - congruence.
      - simpl in Ht'. by rewrite H in Ht'. }
    destruct (sending_step w ev w1 t sb E Ht) as [Ht1|[resp ->]];
      [|by destruct (Hne t resp)].
    destruct (IH w1 (exclusive_step P _ _ _ Hx E) Ht1 Hrun Ht' ltac:(lia))
      as [-> Hb]. split; [done|].
    rewrite Hb, (calm_step w ev w1 E ltac:(lia) Hne), <-app_assoc. f_equal.
    unfold arrivals. simpl. by destruct ev.
Qed.

(** Between two flush attempts, without an eviction, the batch only grows
    by the spans that arrive. *)
Lemma calm_run w evs w' :
  idle w -> run P w evs = Some w' ->
  Forall (fun ev => begins ev = false) evs ->
  evictions w' = evictions w ->
  idle w' /\ batch (coll w') = batch (coll w) ++ arrivals evs.
Proof.
  intros Hi Hrun Hq. revert w Hi Hrun.
  induction Hq as [|ev evs Hev _ IH]; simpl; intros w Hi.
  - intros [= <-] _. by rewrite app_nil_r.
  - destruct (step P w ev) as [w1|] eqn:E; [|done]. intros Hrun Hevs.
    pose proof (evictions_step _ _ _ E) as Hle1.
    pose proof (evictions_run _ _ _ Hrun) as Hle2.
    assert (forall t1 resp, ev <> EvEnd t1 resp) as Hne.
    { intros t1 resp ->. apply end_inv in E as (sb1 & Ht1 & _).
      by apply Hi in Ht1. }
    assert (idle w1) as Hi1.
    { intros t sb Ht. 
      destruct ev as [|span now|now now'| | |t1|t1 resp| |]; try done.
      - apply start_inv in E as [Hl ->]. unfold loop_start in Ht.
        destruct (0 <? tickPeriod (coll w)); [|by apply Hi in Ht].
        destruct t; simpl in *; [done|by apply (Hi (TGo i) sb)].
      - apply collect_inv in E as (Hl & w2 & n & Happ & Hcases).
        apply append_frame in Happ as (Hl1 & Hg1 & _).
        assert (idle w2) as Hi2.
        { revert Hi. apply idle_mono. intros t2 sb2.
          by rewrite (sendNow_of_ext t2 (Collect span w) w2). }
        destruct Hcases as [(? & _ & ->)|[(_ & _ & ->)|(_ & _ & ->)]];
          try by apply Hi2 in Ht.
        apply sendNow_of_go in Ht as [Ht|Ht]; [by apply Hi2 in Ht|done].
      - apply tick_inv in E as (Hl & [[_ ->]|[_ ->]]); [by apply Hi in Ht|].
        apply sendNow_of_go in Ht as [Ht|Ht]; [by apply Hi in Ht|done].
      - apply quit_inv in E as (Hl & q & _ & ->).
        destruct t; simpl in *; [done|by apply (Hi (TGo i) sb)].
      - apply shutdown_inv in E as (Hl & _ & ->).
        destruct t; simpl in *; [done|by apply (Hi (TGo i) sb)].
      - by destruct (Hne t1 resp).
      - apply close_inv in E as (_ & ->). by apply Hi in Ht.
      - apply closed_inv in E as (n & err & rest & _ & _ & ->).
        by apply Hi in Ht. }
    destruct (IH w1 Hi1 Hrun ltac:(lia)) as [Hi' Hb']. split; [done|].
    rewrite Hb', (calm_step w ev w1 E ltac:(lia) Hne), <-app_assoc. f_equal.
    unfold arrivals. simpl. by destruct ev.
Qed.

(** ** Ticks *)

Lemma tick_fires w now now' :
  looper w = Running -> panicked w = None -> nextSend (coll w) < now ->
  step P w (EvTick now now') =
    Some (go_sendNow (with_coll (scheduleNextSend now' (coll w)) w)).
Proof.
  intros Hl Hp Hlt. unfold step. rewrite Hp, Hl. simpl.
  unfold Time_After. by destruct (Z.ltb_spec (nextSend (coll w)) now); [|lia].
Qed.

Lemma tick_waits w now now' :
  looper w = Running -> panicked w = None -> now <= nextSend (coll w) ->
  step P w (EvTick now now') = Some w.
Proof.
  intros Hl Hp Hle. unfold step. rewrite Hp, Hl. simpl.
  unfold Time_After. by destruct (Z.ltb_spec (nextSend (coll w)) now); [lia|].
Qed.

Lemma ticks_S base p n :
  ticks (Span:=Span) base p (S n) =
  ticks base p n ++
  [EvTick (base + Z.of_nat (S n) * p) (base + Z.of_nat (S n) * p)].
Proof. unfold ticks. by rewrite seq_S, fmap_app. Qed.

Lemma ticks_wait w base p n :
  looper w = Running -> panicked w = None -> 0 <= p ->
  base + Z.of_nat n * p <= nextSend (coll w) ->
  run P w (ticks base p n) = Some w.
Proof.
  intros Hl Hp Hpos. induction n as [|n IH]; [done|]. intros Hle.
  rewrite ticks_S. apply run_snoc. exists w. split.
  - apply IH. nia.
  - by apply tick_waits.
Qed.

(** ** What launches a send *)

Lemma launch_step w ev w' :
  step P w ev = Some w' ->
  length (goroutines w') = length (goroutines w) \/
  (goroutines w' = goroutines w ++ [Waiting] /\
   exists now : Time, now ∈ readings [ev] /\
     nextSend (coll w') = now + batchInterval (coll w)).
Proof.
  intros Hstep. destruct ev as [|span now|now now'| | |t|t resp| |].
  - apply start_inv in Hstep as [_ ->]. left. unfold loop_start.
    by destruct (0 <? tickPeriod (coll w)).
  - apply collect_inv in Hstep as (Hl & w1 & n & Happ & Hcases).
    assert (batchInterval (coll w1) = batchInterval (coll w)) as Hbi.
    { destruct (append_cases span (Collect span w))
        as [[_ Heq]|[(_ & _ & Heq)|(_ & _ & Heq)]];
        rewrite Heq in Happ; by injection Happ as <- <-. }
    apply append_frame in Happ as (_ & Hg1 & _). simpl in Hg1.
    destruct Hcases as [(msg & _ & ->)|[(_ & _ & ->)|(_ & _ & ->)]];
      [left; by rewrite Hg1..|].
    right. simpl. rewrite Hg1. split; [done|]. exists now.
    split; [simpl; repeat constructor|]. unfold Time_Add. by rewrite Hbi.
  - apply tick_inv in Hstep as (Hl & [[_ ->]|[_ ->]]); [by left|].
    right. simpl. split; [done|]. exists now'. split; [simpl; repeat constructor|done].
  - left. by apply quit_inv in Hstep as (Hl & q & _ & ->).
  - left. by apply shutdown_inv in Hstep as (Hl & _ & ->).
  - left. apply begin_inv in Hstep as (Ht & Hm & [[_ ->]|[_ ->]]);
      destruct t; simpl; by rewrite ?length_insert.
  - left. apply end_inv in Hstep as (sb & Ht & ->).
    destruct (sendNow_end_frame P sb resp w) as (_ & Hg & _).
    destruct t; simpl; by rewrite ?length_insert, Hg.
  - left. by apply close_inv in Hstep as (_ & ->).
  - left. by apply closed_inv in Hstep as (n & err & rest & _ & _ & ->).
Qed.

Lemma tickPeriod_tenth (c : HTTPCollector Span) :
  0 < tickPeriod c ->
  10 * tickPeriod c <= batchInterval c < 10 * tickPeriod c + 10.
Proof.
  unfold tickPeriod. intros Hpos.
  pose proof (Z.quot_rem' (batchInterval c) 10) as Hqr.
  assert (0 <= batchInterval c) as Hnn.
  { destruct (Z.neg_nonneg_cases (batchInterval c)) as [Hneg|]; [|done].
    pose proof (Z.quot_opp_l (batchInterval c) 10 ltac:(lia)).
    pose proof (Z.quot_pos (- batchInterval c) 10 ltac:(lia) ltac:(lia)).
    lia. }
  pose proof (Z.rem_bound_pos (batchInterval c) 10 Hnn ltac:(lia)).
  lia.
Qed.

End Windows.

(** * The claims *)




(** C2. As long as the backlog never overflows, the spans delivered by the
    successful sends, taken in order, followed by the spans still buffered
    are exactly the spans that were collected, in order; so once the batch
    is empty the delivered sequence is the collected sequence.  A send that
    succeeds removes exactly the first [len(sendBatch)] spans from the head
    of the batch, and these are the spans it sent.  Spans may arrive while a
    send is under way: without overflow they do not disturb the head. *)
Theorem C2_delivery_in_order {Span : Type} (P : Ports Span) (w : world Span) :
  reachable P w -> overflowed w = false ->
  spans_of w = delivered w ++ batch (coll w) /\
  (batch (coll w) = [] -> delivered w = spans_of w) /\
  forall t sb resp,
    panicked w = None -> sendNow_of t w = Some (Sending sb) ->
    send P (coll w) sb resp = Returns None ->
    exists w',
      step P w (EvEnd t resp) = Some w' /\
      take (length sb) (batch (coll w)) = sb /\
      batch (coll w') = drop (length sb) (batch (coll w)) /\
      sends w' = sends w ++ [(sb, None)] /\
      delivered w' = delivered w ++ sb /\
      spans_of w' = delivered w' ++ batch (coll w').
Proof.
  intros Hr Hov. destruct (reachable_fifo P w Hr Hov) as [Hall Hhead].
  split; [done|]. split.
  { intros Hb. by rewrite Hall, Hb, app_nil_r. }
  intros t sb resp Hp Ht Hsend.
  exists (set_sendNow t Returned (sendNow_end P sb resp w)).
  split; [by apply end_step|].
  destruct (Hhead t sb Ht) as [rest Hrest].
  rewrite set_sendNow_frame.
  destruct (set_sendNow_history t Returned (sendNow_end P sb resp w))
    as (_ & Hs & Hc & _).
  rewrite Hs. unfold delivered, spans_of in *. rewrite Hs, Hc.
  destruct (sendNow_end_cases P sb resp w)
    as [(msg & Hx & _)|[(err & Hx & _)|[(_ & _ & ->)|(_ & Hlen & _)]]].
  - by rewrite Hsend in Hx.
  - by rewrite Hsend in Hx.
  - simpl. rewrite omap_app, concat_app. simpl. rewrite app_nil_r.
    rewrite Hrest, take_app_length, drop_app_length.
    repeat split; try done. by rewrite Hall, Hrest, app_assoc.
  - rewrite Hrest, len_app in Hlen. unfold len in Hlen. lia.
Qed.

Lemma C2_delivery_in_order_witness :
  let w := sample_run sample_ports [HTTPBatchSize 2]
             [EvStart; EvCollect 1%nat 0; EvCollect 2%nat 0; EvBegin (TGo 0);
              EvCollect 3%nat 0] in
  exists w',
    step sample_ports w (EvEnd (TGo 0) None) = Some w' /\
    delivered w' = [1%nat; 2%nat] /\ batch (coll w') = [3%nat].
Proof.
  intros w.
  assert (reachable sample_ports w) as Hr.
  { apply sample_reachable; [repeat constructor|].
    eexists. vm_compute. reflexivity. }
  destruct (C2_delivery_in_order sample_ports w Hr eq_refl) as (_ & _ & Hend).
  destruct (Hend (TGo 0) [1%nat; 2%nat] None eq_refl eq_refl eq_refl)
    as (w' & Hstep & _ & Hb & _ & Hd & _).
  exists w'. split; [exact Hstep|]. split; [exact Hd|exact Hb].
Defined.

(** C3, as stated, fails: with room for one span in the backlog, a flush of
    span 1 fails and span 1 stays buffered; span 2 arrives and evicts it;
    the next flush attempt sends span 2 alone. *)
Lemma C3_unsent_spans_can_be_evicted :
  let schedule :=
    [EvStart; EvCollect 1%nat 0; EvTick 2000000000 2000000000;
     EvBegin (TGo 0); EvEnd (TGo 0) (Some "connection refused")] in
  let failed := sample_run sample_ports [HTTPMaxBacklog 1] schedule in
  let next :=
    sample_run sample_ports [HTTPMaxBacklog 1]
      (schedule ++ [EvCollect 2%nat 2000000001;
                    EvTick 4000000000 4000000000; EvBegin (TGo 1)]) in
  sends failed = [([1%nat], Some "connection refused")] /\
  batch (coll failed) = [1%nat] /\
  sendNow_of (TGo 1) next = Some (Sending [2%nat]) /\
  1%nat ∉ [2%nat].
Proof.
  repeat split; try reflexivity.
  intros H. apply list_elem_of_singleton in H. discriminate.
Qed.

(** C3, amended. A flush attempt whose send fails leaves the batch as it
    was; the error goes to the logger and nowhere else: nothing reaches the
    callers of [Collect] (every call returns [nil]) or of [Close].
    Provided nothing is evicted between the snapshot of the failed attempt
    and the next flush attempt, that attempt sends the unsent spans first,
    followed by the spans that arrived meanwhile, during the failed send or
    after it; evictions reported before the failed attempt took its
    snapshot do not matter. *)
Theorem C3_failed_send_keeps_batch {Span : Type} (P : Ports Span) :
  (forall (w : world Span) (t : thread) (sb : list Span) (resp : error)
          (err : string),
     reachable P w -> panicked w = None ->
     sendNow_of t w = Some (Sending sb) ->
     send P (coll w) sb resp = Returns (Some err) ->
     exists w1,
       step P w (EvEnd t resp) = Some w1 /\
       batch (coll w1) = batch (coll w) /\
       logged w1 = logged w ++ [[KString "err"; KString err]] /\
       sends w1 = sends w ++ [(sb, Some err)] /\
       collected w1 = collected w /\ closed w1 = closed w /\
       shutdown (coll w1) = shutdown (coll w) /\ panicked w1 = None /\
       forall evs w2,
         run P w1 evs = Some w2 ->
         Forall (fun a => a.2 = None) (collected w2)) /\
  (forall (w0 : world Span) (t : thread) wb evs0 w sb resp err w1 evs w2 t' w3,
     reachable P w0 ->
     step P w0 (EvBegin t) = Some wb -> run P wb evs0 = Some w ->
     sendNow_of t w = Some (Sending sb) ->
     send P (coll w) sb resp = Returns (Some err) ->
     step P w (EvEnd t resp) = Some w1 ->
     run P w1 evs = Some w2 ->
     Forall (fun ev => begins ev = false) evs ->
     step P w2 (EvBegin t') = Some w3 ->
     evictions w2 = evictions w0 ->
     sb = batch (coll w0) /\
     batch (coll w1) = sb ++ arrivals evs0 /\
     sendNow_of t' w3 = Some (Sending (sb ++ arrivals evs0 ++ arrivals evs))).
Proof.
  split.
  - intros w t sb resp err Hr Hp Ht Hsend.
    pose proof (end_step P w t sb resp Hp Ht) as Hstep.
    set (w1 := set_sendNow t Returned (sendNow_end P sb resp w)) in *.
    assert (sendNow_end P sb resp w =
            Unlock (Log [KString "err"; KString err]
                      (with_sends (sends w ++ [(sb, Some err)]) w))) as Hend.
    { destruct (sendNow_end_cases P sb resp w)
        as [(msg & Hx & _)|[(err' & Hx & ->)|[(Hx & _)|(Hx & _)]]];
        rewrite Hsend in Hx; try done. by injection Hx as ->. }
    exists w1. split; [done|]. subst w1. rewrite set_sendNow_frame.
    destruct (set_sendNow_history t Returned (sendNow_end P sb resp w))
      as (-> & -> & -> & -> & _ & Hp1).
    rewrite Hend in *. simpl in Hp1. simpl.
    do 6 (split; [done|]). split; [by rewrite Hp1|].
    intros evs w2 Hrun.
    pose proof (reachable_step P _ _ _ Hr Hstep) as Hr1.
    pose proof (reachable_run P _ _ _ Hr1 Hrun) as Hr2.
    by apply (reachable_results P w2).
  - intros w0 t wb evs0 w sb resp err w1 evs w2 t' w3
      Hr0 Hbegin Hrun0 Ht Hsend Hend Hrun Hquiet Hnext Hev.
    pose proof (reachable_step P _ _ _ Hr0 Hbegin) as Hrb.
    pose proof (reachable_run P _ _ _ Hrb Hrun0) as Hr.
    pose proof (evictions_step P _ _ _ Hbegin) as Hle0.
    pose proof (evictions_run P _ _ _ Hrun0) as Hle1.
    pose proof (evictions_step P _ _ _ Hend) as Hle2.
    pose proof (evictions_run P _ _ _ Hrun) as Hle3.
    apply begin_inv in Hbegin as (Ht0 & _ & [[Hb0 ->]|[Hb0 ->]]).
    { assert (sendNow_of t (set_sendNow t Returned w0) = Some Returned) as Hret
        by (apply sendNow_of_set_eq; eauto).
      destruct (returned_run P _ _ _ t Hrun0 (or_introl Hret)) as [H|[-> H]].
      - congruence.
      - simpl in Ht. by rewrite H in Ht. }
    assert (sendNow_of t
              (set_sendNow t (Sending (batch (coll w0)))
                 (with_coll (with_sendMutex true (coll w0)) w0))
            = Some (Sending (batch (coll w0)))) as Htb
      by (apply sendNow_of_set_eq; eauto).
    destruct (in_flight_run P _ _ _ t _ sb
                (reachable_exclusive P _ Hrb) Htb Hrun0 Ht ltac:(lia))
      as [-> Hbw].
    rewrite set_sendNow_frame in Hbw. simpl in Hbw.
    split; [done|].
    apply end_inv in Hend as (sb1 & Ht1 & ->).
    assert (sb1 = batch (coll w0)) as -> by congruence.
    assert (sendNow_end P (batch (coll w0)) resp w =
            Unlock (Log [KString "err"; KString err]
                      (with_sends (sends w ++ [(batch (coll w0), Some err)]) w)))
      as Heq.
    { destruct (sendNow_end_cases P (batch (coll w0)) resp w)
        as [(msg & Hx & _)|[(err' & Hx & ->)|[(Hx & _)|(Hx & _)]]];
        rewrite Hsend in Hx; try done. by injection Hx as ->. }
    rewrite Heq in *.
    assert (idle (set_sendNow t Returned
                    (Unlock (Log [KString "err"; KString err]
                       (with_sends (sends w ++ [(batch (coll w0), Some err)]) w)))))
      as Hidle.
    { unfold idle. apply (end_no_sender t (batch (coll w0)) w); try done.
      by apply reachable_exclusive with P. }
    destruct (calm_run P _ _ _ Hidle Hrun Hquiet ltac:(lia)) as [_ Hb2].
    rewrite set_sendNow_frame in Hb2 |- *. simpl in Hb2 |- *.
    split; [done|].
    apply begin_inv in Hnext as (Ht' & _ & [[Hb ->]|[_ ->]]).
    + rewrite Hb2, Hbw in Hb. destruct (batch (coll w0)); [done|discriminate].
    + rewrite sendNow_of_set_eq by (exists Waiting; exact Ht').
      by rewrite Hb2, Hbw, <-app_assoc.
Qed.

Lemma C3_failed_send_keeps_batch_witness :
  let past :=
    [EvStart; EvCollect 1%nat 0; EvCollect 2%nat 0; EvCollect 3%nat 0;
     EvTick 2000000000 2000000000; EvBegin (TGo 0); EvEnd (TGo 0) None;
     EvCollect 4%nat 2000000001; EvTick 4000000000 4000000000] in
  let flight := [EvCollect 5%nat 4000000001] in
  let refused := EvEnd (TGo 1) (Some "connection refused") in
  let later := [EvTick 6000000000 6000000000] in
  let w0 := sample_run sample_ports [HTTPMaxBacklog 2] past in
  let wb := sample_run sample_ports [HTTPMaxBacklog 2]
              (past ++ [EvBegin (TGo 1)]) in
  let w := sample_run sample_ports [HTTPMaxBacklog 2]
             (past ++ [EvBegin (TGo 1)] ++ flight) in
  let w1 := sample_run sample_ports [HTTPMaxBacklog 2]
              (past ++ [EvBegin (TGo 1)] ++ flight ++ [refused]) in
  let w2 := sample_run sample_ports [HTTPMaxBacklog 2]
              (past ++ [EvBegin (TGo 1)] ++ flight ++ [refused] ++ later) in
  let w3 := sample_run sample_ports [HTTPMaxBacklog 2]
              (past ++ [EvBegin (TGo 1)] ++ flight ++ [refused] ++ later ++
               [EvBegin (TGo 2)]) in
  overflowed w0 = true /\
  step sample_ports w refused = Some w1 /\
  batch (coll w1) = [4%nat; 5%nat] /\
  logged w1 = logged w ++ [[KString "err"; KString "connection refused"]] /\
  step sample_ports w2 (EvBegin (TGo 2)) = Some w3 /\
  sendNow_of (TGo 2) w3 = Some (Sending [4%nat; 5%nat]).
Proof.
  intros past flight refused later w0 wb w w1 w2 w3.
  destruct (C3_failed_send_keeps_batch sample_ports) as [Hfail Hretry].
  assert (reachable sample_ports w0) as Hr0.
  { apply sample_reachable; [repeat constructor|].
    eexists. vm_compute. reflexivity. }
  assert (reachable sample_ports w) as Hr.
  { apply sample_reachable; [repeat constructor|].
    eexists. vm_compute. reflexivity. }
  assert (step sample_ports w0 (EvBegin (TGo 1)) = Some wb) as Hs0
    by (vm_compute; reflexivity).
  assert (run sample_ports wb flight = Some w) as Hs1
    by (vm_compute; reflexivity).
  assert (step sample_ports w refused = Some w1) as Hs2
    by (vm_compute; reflexivity).
  assert (run sample_ports w1 later = Some w2) as Hs3
    by (vm_compute; reflexivity).
  assert (step sample_ports w2 (EvBegin (TGo 2)) = Some w3) as Hs4
    by (vm_compute; reflexivity).
  assert (panicked w = None) as Hp by (vm_compute; reflexivity).
  assert (sendNow_of (TGo 1) w = Some (Sending [4%nat])) as Ht
    by (vm_compute; reflexivity).
  assert (send sample_ports (coll w) [4%nat] (Some "connection refused") =
          Returns (Some "connection refused")) as Hsend
    by (vm_compute; reflexivity).
  assert (evictions w2 = evictions w0) as Hev by (vm_compute; reflexivity).
  destruct (Hfail w (TGo 1) [4%nat] (Some "connection refused")
              "connection refused" Hr Hp Ht Hsend)
    as (w1' & Hstep & Hb & Hl & _).
  assert (w1' = w1) as -> by (apply (inj Some); rewrite <-Hstep; exact Hs2).
  destruct (Hretry w0 (TGo 1) wb flight w [4%nat]
              (Some "connection refused") "connection refused" w1 later w2
              (TGo 2) w3 Hr0 Hs0 Hs1 Ht Hsend Hs2 Hs3
              ltac:(repeat constructor) Hs4 Hev)
    as (_ & Hb1 & Hsnap).
  split; [vm_compute; reflexivity|].
  split; [exact Hs2|]. split; [exact Hb1|]. split; [exact Hl|].
  split; [exact Hs4|exact Hsnap].
Defined.

(** C5. When the loop takes a span from [spanc] it appends it; if the batch
    then holds at least [batchSize] spans the loop sets the deadline anew
    and launches exactly one [sendNow] goroutine, which it does not wait
    for (the goroutine has not run when the loop is back in its [select]);
    if the batch holds fewer, nothing is launched.  In particular, with
    [HTTPBatchSize(3)], three spans trigger exactly one flush attempt, which
    sends those three spans, and two spans trigger none. *)
Theorem C5_count_trigger {Span : Type} (P : Ports Span) :
  (forall (w : world Span) span now w',
     step P w (EvCollect span now) = Some w' -> panicked w' = None ->
     looper w' = Running /\
     (batchSize (coll w) <= len (batch (coll w')) ->
      nextSend (coll w') = Time_Add now (batchInterval (coll w)) /\
      goroutines w' = goroutines w ++ [Waiting]) /\
     (len (batch (coll w')) < batchSize (coll w) ->
      nextSend (coll w') = nextSend (coll w) /\
      goroutines w' = goroutines w)) /\
  (forall url now (a b c : Span) ta tb tc,
     let w0 := (NewHTTPCollector url [HTTPBatchSize 3] now).1 in
     (exists w w',
        run P w0 [EvStart; EvCollect a ta; EvCollect b tb; EvCollect c tc]
          = Some w /\
        goroutines w = [Waiting] /\
        step P w (EvBegin (TGo 0)) = Some w' /\
        goroutines w' = [Sending [a; b; c]]) /\
     (exists w,
        run P w0 [EvStart; EvCollect a ta; EvCollect b tb] = Some w /\
        goroutines w = [])).
Proof.
  split.
  - intros w span now w' Hstep Hp.
    apply collect_inv in Hstep as (Hl & w1 & n & Happ & Hcases).
    assert (panicked w1 = None -> n = len (batch (coll w1))) as Hn.
    { destruct (append_cases span (Collect span w))
        as [[_ Heq]|[(_ & _ & Heq)|(_ & _ & Heq)]];
        rewrite Heq in Happ; by injection Happ as <- <-. }
    assert (batchSize (coll w1) = batchSize (coll w) /\
            batchInterval (coll w1) = batchInterval (coll w) /\
            nextSend (coll w1) = nextSend (coll w)) as (Hbs & Hbi & Hns).
    { destruct (append_cases span (Collect span w))
        as [[_ Heq]|[(_ & _ & Heq)|(_ & _ & Heq)]];
        rewrite Heq in Happ; by injection Happ as <- <-. }
    apply append_frame in Happ as (Hl1 & Hg1 & _). simpl in Hl1, Hg1.
    destruct Hcases as [(msg & Hp1 & ->)|[(Hp1 & Hlt & ->)|(Hp1 & Hge & ->)]].
    + by rewrite Hp in Hp1.
    + rewrite Hn in Hlt by done. split; [congruence|]. split; [lia|].
      intros _. split; congruence.
    + rewrite Hn in Hge by done. simpl. split; [congruence|]. split; [|lia].
      intros _. unfold go_sendNow. simpl. by rewrite Hbi, Hg1.
  - intros url0 now a b c ta tb tc w0. split.
    + eexists. eexists. split; [vm_compute; reflexivity|].
      split; [reflexivity|]. split; vm_compute; reflexivity.
    + eexists. split; vm_compute; reflexivity.
Qed.

Lemma C5_count_trigger_witness :
  let w := sample_run sample_ports [HTTPBatchSize 3]
             [EvStart; EvCollect 1%nat 0; EvCollect 2%nat 0] in
  exists w',
    step sample_ports w (EvCollect 3%nat 7) = Some w' /\
    nextSend (coll w') = 1000000007 /\
    goroutines w' = [Waiting] /\ looper w' = Running.
Proof.
  intros w.
  destruct (C5_count_trigger sample_ports) as [Harrival _].
  assert (is_Some (step sample_ports w (EvCollect 3%nat 7))) as [w' Hstep].
  { eexists. vm_compute. reflexivity. }
  assert (panicked w' = None) as Hp.
  { assert (Some (panicked w') = Some None) as [= ->]; [|done].
    change (Some (panicked w')) with (panicked <$> Some w').
    rewrite <-Hstep. vm_compute. reflexivity. }
  destruct (Harrival w 3%nat 7 w' Hstep Hp) as (Hl & Hfire & _).
  assert (batchSize (coll w) <= len (batch (coll w'))) as Hsize.
  { assert (Some (len (batch (coll w'))) = Some 3) as [= ->].
    { change (Some (len (batch (coll w'))))
        with ((fun x => len (batch (coll x))) <$> Some w').
      rewrite <-Hstep. vm_compute. reflexivity. }
    vm_compute. discriminate. }
  destruct (Hfire Hsize) as [Hd Hg].
  exists w'. split; [exact Hstep|]. split; [exact Hd|]. split; [exact Hg|exact Hl].
Defined.

(** C6. Whichever trigger fires, the loop sets [nextSend] to the current
    time plus [batchInterval] and then launches the send: when the new
    goroutine exists, still waiting to run, the deadline is already the new
    one (parts 1 and 2), and nothing but a trigger launches a send (part
    3).  A tick fires only when the clock is strictly past [nextSend]; so
    with a clock that does not run backwards, a tick that comes no more
    than [batchInterval] after a count-triggered flush launches nothing,
    and a time-triggered flush comes more than [batchInterval] after it
    (part 4).  The ticker that paces the time test has period
    [batchInterval / 10] (part 5): when the loop takes each tick as it
    fires, the ticks up to the deadline change nothing and the first tick
    past the deadline launches the send, less than one period, so at most
    a tenth of [batchInterval], after the deadline (part 6). *)
Theorem C6_deadline_rescheduled {Span : Type} (P : Ports Span) :
  (forall (w : world Span) span now w',
     step P w (EvCollect span now) = Some w' -> panicked w' = None ->
     batchSize (coll w) <= len (batch (coll w')) ->
     nextSend (coll w') = now + batchInterval (coll w) /\
     goroutines w' = goroutines w ++ [Waiting] /\
     exists w1,
       nextSend (coll w1) = now + batchInterval (coll w) /\
       goroutines w1 = goroutines w /\ w' = go_sendNow w1) /\
  (forall (w : world Span) now now',
     looper w = Running -> panicked w = None ->
     exists w',
       step P w (EvTick now now') = Some w' /\
       (nextSend (coll w) < now ->
        nextSend (coll w') = now' + batchInterval (coll w) /\
        goroutines w' = goroutines w ++ [Waiting] /\
        exists w1,
          nextSend (coll w1) = now' + batchInterval (coll w) /\
          goroutines w1 = goroutines w /\ w' = go_sendNow w1) /\
       (now <= nextSend (coll w) -> w' = w)) /\
  (forall (w : world Span) ev w',
     step P w ev = Some w' ->
     length (goroutines w') = length (goroutines w) \/
     (goroutines w' = goroutines w ++ [Waiting] /\
      exists now : Time, now ∈ readings [ev] /\
        nextSend (coll w') = now + batchInterval (coll w))) /\
  (forall (w : world Span) span (t0 : Time) w1 evs w2 now now' w3,
     step P w (EvCollect span t0) = Some w1 -> panicked w1 = None ->
     batchSize (coll w) <= len (batch (coll w1)) ->
     run P w1 evs = Some w2 ->
     Forall (fun r : Time => t0 <= r) (readings evs) ->
     step P w2 (EvTick now now') = Some w3 ->
     (now <= t0 + batchInterval (coll w) -> w3 = w2) /\
     (goroutines w3 <> goroutines w2 ->
      t0 + batchInterval (coll w) < now /\
      goroutines w3 = goroutines w2 ++ [Waiting])) /\
  (forall (w w' : world Span),
     step P w EvStart = Some w' -> panicked w' = None ->
     looper w' = Running /\ 0 < tickPeriod (coll w') /\
     tickPeriod (coll w') = batchInterval (coll w') `quot` 10 /\
     10 * tickPeriod (coll w') <= batchInterval (coll w')
       < 10 * tickPeriod (coll w') + 10) /\
  (forall (w : world Span) (base : Time),
     looper w = Running -> panicked w = None ->
     0 < tickPeriod (coll w) -> base <= nextSend (coll w) ->
     let p := tickPeriod (coll w) in
     let k := Z.to_nat ((nextSend (coll w) - base) / p) in
     let fire := base + Z.of_nat (S k) * p in
     run P w (ticks base p k) = Some w /\
     (exists w',
        run P w (ticks base p (S k)) = Some w' /\
        goroutines w' = goroutines w ++ [Waiting] /\
        nextSend (coll w') = fire + batchInterval (coll w)) /\
     nextSend (coll w) < fire <= nextSend (coll w) + p /\
     10 * (fire - nextSend (coll w)) <= batchInterval (coll w)).
Proof.
  assert (forall (w : world Span) span now w',
     step P w (EvCollect span now) = Some w' -> panicked w' = None ->
     batchSize (coll w) <= len (batch (coll w')) ->
     nextSend (coll w') = now + batchInterval (coll w) /\
     goroutines w' = goroutines w ++ [Waiting] /\
     exists w1,
       nextSend (coll w1) = now + batchInterval (coll w) /\
       goroutines w1 = goroutines w /\ w' = go_sendNow w1) as Hcount.
  { intros w span now w' Hstep Hp Hsize.
    apply collect_inv in Hstep as (Hl & w1 & n & Happ & Hcases).
    assert (panicked w1 = None -> n = len (batch (coll w1))) as Hn.
    { destruct (append_cases span (Collect span w))
        as [[_ Heq]|[(_ & _ & Heq)|(_ & _ & Heq)]];
        rewrite Heq in Happ; by injection Happ as <- <-. }
    assert (batchSize (coll w1) = batchSize (coll w) /\
            batchInterval (coll w1) = batchInterval (coll w)) as (Hbs & Hbi).
    { destruct (append_cases span (Collect span w))
        as [[_ Heq]|[(_ & _ & Heq)|(_ & _ & Heq)]];
        rewrite Heq in Happ; by injection Happ as <- <-. }
    apply append_frame in Happ as (_ & Hg1 & _). simpl in Hg1.
    destruct Hcases as [(msg & Hp1 & ->)|[(Hp1 & Hlt & ->)|(Hp1 & Hge & ->)]].
    - by rewrite Hp in Hp1.
    - rewrite Hn in Hlt by done. lia.
    - simpl. unfold Time_Add. rewrite Hbi, Hg1.
      split; [done|]. split; [done|].
      eexists. split; [|split; [|reflexivity]]; simpl; [|done].
      unfold Time_Add. by rewrite Hbi. }
  split; [exact Hcount|]. split; [|split; [|split; [|split]]].
  - intros w now now' Hl Hp.
    destruct (Z.lt_ge_cases (nextSend (coll w)) now) as [Hlt|Hge].
    + eexists. split; [by apply tick_fires|]. split; [|lia].
      intros _. simpl. split; [done|]. split; [done|].
      eexists. split; [|split; [|reflexivity]]; done.
    + exists w. split; [by apply tick_waits|]. split; [lia|done].
  - intros w ev w' Hstep. by apply (launch_step P w ev).
  - intros w span t0 w1 evs w2 now now' w3 Hstep Hp Hsize Hrun Hclock Htick.
    destruct (Hcount w span t0 w1 Hstep Hp Hsize) as (Hd & _ & _).
    destruct (step_config P _ _ _ Hstep) as (_ & Hbi & _).
    assert (t0 + batchInterval (coll w2) <= nextSend (coll w2)) as Hdl.
    { apply (deadline_run P w1 evs w2 t0 Hrun Hclock). rewrite Hd, Hbi. lia. }
    destruct (run_config P _ _ _ Hrun) as (_ & Hbi2 & _).
    rewrite Hbi2, Hbi in Hdl.
    apply tick_inv in Htick as (_ & [[_ ->]|[Hlt ->]]).
    + split; [done|]. by intros [].
    + split; [lia|]. intros _. split; [lia|done].
  - intros w w' Hstep Hp. apply start_inv in Hstep as [Hl ->].
    unfold loop_start in *.
    destruct (Z.ltb_spec 0 (tickPeriod (coll w))) as [Hpos|]; [|done].
    simpl. split; [done|]. split; [done|]. split; [done|].
    by apply tickPeriod_tenth.
  - intros w base Hl Hp Hpos Hbase p k fire.
    pose proof (tickPeriod_tenth (coll w) Hpos) as Hten.
    assert (0 <= (nextSend (coll w) - base) / p) as Hq
      by (apply Z.div_pos; lia).
    pose proof (Z.mul_div_le (nextSend (coll w) - base) p Hpos) as Hlo.
    pose proof (Z.mul_succ_div_gt (nextSend (coll w) - base) p Hpos) as Hhi.
    assert (Z.of_nat k = (nextSend (coll w) - base) / p) as Hk
      by (subst k; lia).
    assert (fire = base + ((nextSend (coll w) - base) / p + 1) * p) as Hfire
      by (subst fire; rewrite Nat2Z.inj_succ, Hk; lia).
    assert (nextSend (coll w) < fire <= nextSend (coll w) + p) as Hwin
      by (rewrite Hfire; lia).
    assert (run P w (ticks base p k) = Some w) as Hwait.
    { apply ticks_wait; try done; [lia|]. rewrite Hk. lia. }
    split; [done|]. split; [|split; [done|fold p in Hten; lia]].
    eexists. split.
    + rewrite ticks_S. apply run_snoc. exists w. split; [done|].
      apply tick_fires; try done. fold fire. lia.
    + done.
Qed.

Lemma C6_deadline_rescheduled_witness :
  let w := sample_run sample_ports [HTTPBatchSize 1] [EvStart] in
  let w1 := sample_run sample_ports [HTTPBatchSize 1]
              [EvStart; EvCollect 1%nat 5] in
  let w2 := sample_run sample_ports [HTTPBatchSize 1]
              [EvStart; EvCollect 1%nat 5; EvCollect 2%nat 6] in
  let early := EvTick 1000000005 1000000005 in
  let late := EvTick 2000000000 2000000001 in
  let w3 := sample_run sample_ports [HTTPBatchSize 1]
              [EvStart; EvCollect 1%nat 5; EvCollect 2%nat 6; late] in
  (nextSend (coll w1) = 1000000005 /\ goroutines w1 = [Waiting]) /\
  step sample_ports w2 early = Some w2 /\
  (goroutines w3 = [Waiting; Waiting; Waiting] /\
   nextSend (coll w3) = 3000000001) /\
  (run sample_ports w1 (ticks 0 100000000 10) = Some w1 /\
   exists w',
     run sample_ports w1 (ticks 0 100000000 11) = Some w' /\
     goroutines w' = [Waiting; Waiting] /\
     nextSend (coll w') = 2100000000).
Proof.
  intros w w1 w2 early late w3.
  destruct (C6_deadline_rescheduled sample_ports)
    as (Hcount & Htick & _ & Hgap & _ & Hpace).
  assert (step sample_ports w (EvCollect 1%nat 5) = Some w1) as Hs1
    by (vm_compute; reflexivity).
  assert (run sample_ports w1 [EvCollect 2%nat 6] = Some w2) as Hs2
    by (vm_compute; reflexivity).
  assert (step sample_ports w2 early = Some w2) as Hs3
    by (vm_compute; reflexivity).
  assert (step sample_ports w2 late = Some w3) as Hs4
    by (vm_compute; reflexivity).
  assert (panicked w1 = None) as Hp1 by (vm_compute; reflexivity).
  assert (batchSize (coll w) <= len (batch (coll w1))) as Hsize
    by (vm_compute; discriminate).
  assert (Forall (fun r : Time => 5 <= r) (readings [EvCollect 2%nat 6]))
    as Hclock by (repeat constructor; vm_compute; discriminate).
  split; [|split; [|split]].
  - destruct (Hcount w 1%nat 5 w1 Hs1 Hp1 Hsize) as (Hd & Hg & _).
    split; [exact Hd|exact Hg].
  - exact Hs3.
  - destruct (Hgap w 1%nat 5 w1 [EvCollect 2%nat 6] w2 2000000000 2000000001
                w3 Hs1 Hp1 Hsize Hs2 Hclock Hs4) as [_ Hfire].
    destruct (Hfire ltac:(vm_compute; discriminate)) as [_ Hg].
    split; [exact Hg|].
    destruct (Htick w2 2000000000 2000000001 eq_refl eq_refl)
      as (w3' & Hs4' & Hlaunch & _).
    assert (Some w3' = Some w3) as [= ->] by (rewrite <-Hs4'; exact Hs4).
    destruct (Hlaunch ltac:(vm_compute; reflexivity)) as (Hd & _).
    exact Hd.
  - assert (looper w1 = Running) as Hl by (vm_compute; reflexivity).
    assert (0 < tickPeriod (coll w1)) as Hpos by (vm_compute; reflexivity).
    assert (0 <= nextSend (coll w1)) as Hbase by (vm_compute; discriminate).
    destruct (Hpace w1 0 Hl Hp1 Hpos Hbase) as (Hwait & Hlaunch & _).
    split; [exact Hwait|exact Hlaunch].
Defined.

(** C7, as stated, fails: with room for one span in the backlog and the
    default [batchSize] of 100, two spans are collected and [Close] is
    called; span 1 was evicted when span 2 arrived, the final flush sends
    span 2 alone, and [Close] returns without span 1 ever being sent. *)
Lemma C7_evicted_span_is_not_drained :
  let w := sample_run sample_ports [HTTPMaxBacklog 1]
             [EvStart; EvCollect 1%nat 0; EvCollect 2%nat 0; EvClose; EvQuit;
              EvBegin TLoop; EvEnd TLoop None; EvShutdown; EvClosed] in
  spans_of w = [1%nat; 2%nat] /\
  len (spans_of w) < batchSize (coll w) /\
  closed w = [None] /\
  attempted w = [2%nat] /\
  1%nat ∉ attempted w.
Proof.
  repeat split; try reflexivity.
  intros H. apply list_elem_of_singleton in H. discriminate.
Qed.

(** C7, amended. On the quit signal the loop itself runs one last
    [sendNow]: its snapshot is the whole batch, nothing is added to the
    batch while it is sent, and only after it returned does the loop put
    the completion on [shutdown] and stop for good.  So when [Close] has
    returned the loop has stopped, and, provided no span was evicted by a
    backlog overflow, every span that was collected has been through a
    send. *)
Theorem C7_drain_on_close {Span : Type} (P : Ports Span) :
  (forall w w' : world Span,
     step P w EvQuit = Some w' -> looper w' = Draining Waiting) /\
  (forall w w' : world Span,
     looper w = Draining Waiting -> step P w (EvBegin TLoop) = Some w' ->
     (batch (coll w) = [] /\ looper w' = Draining Returned) \/
     (batch (coll w) <> [] /\
      looper w' = Draining (Sending (batch (coll w))))) /\
  (forall (w : world Span) sb,
     reachable P w -> looper w = Draining (Sending sb) ->
     batch (coll w) = sb) /\
  (forall w w' : world Span,
     step P w EvShutdown = Some w' ->
     looper w = Draining Returned /\ looper w' = Stopped /\
     shutdown (coll w') = [None]) /\
  (forall w : world Span,
     looper w = Stopped ->
     step P w EvQuit = None /\ step P w EvShutdown = None /\
     step P w (EvBegin TLoop) = None /\
     (forall resp, step P w (EvEnd TLoop resp) = None) /\
     (forall span now, step P w (EvCollect span now) = None) /\
     (forall now now', step P w (EvTick now now') = None)) /\
  (forall w : world Span,
     reachable P w -> closed w <> [] ->
     looper w = Stopped /\
     (overflowed w = false ->
      forall x, x ∈ spans_of w -> x ∈ attempted w)).
Proof.
  split; [|split; [|split; [|split; [|split]]]].
  - intros w w' Hstep. by apply quit_inv in Hstep as (_ & q & _ & ->).
  - intros w w' Hl Hstep.
    apply begin_inv in Hstep as (_ & _ & [[Hb ->]|[Hb ->]]); auto.
  - intros w sb Hr Hl. pose proof (reachable_drained P w Hr) as Hd.
    unfold drained in Hd. by rewrite Hl in Hd.
  - intros w w' Hstep. by apply shutdown_inv in Hstep as (Hl & _ & ->).
  - intros w Hl. unfold step, sendNow_of. rewrite Hl.
    by destruct (panicked w).
  - intros w Hr Hc.
    pose proof (reachable_stopped_first P w Hr (or_intror Hc)) as Hl.
    split; [done|]. intros Hov x Hx.
    destruct (reachable_fifo P w Hr Hov) as [Hall _].
    pose proof (reachable_drained P w Hr) as Hd.
    unfold drained in Hd. rewrite Hl in Hd.
    rewrite Hall in Hx. apply elem_of_app in Hx as [Hx|Hx]; [|auto].
    by apply delivered_attempted.
Qed.

Lemma C7_drain_on_close_witness :
  let w := sample_run sample_ports [HTTPMaxBacklog 1]
             [EvStart; EvCollect 1%nat 0; EvTick 2000000000 2000000000;
              EvBegin (TGo 0); EvEnd (TGo 0) None; EvCollect 2%nat 2000000001;
              EvClose; EvQuit; EvBegin TLoop;
              EvEnd TLoop (Some "connection refused"); EvShutdown; EvClosed] in
  looper w = Stopped /\ maxBacklog (coll w) < len (spans_of w) /\
  1%nat ∈ attempted w /\ 2%nat ∈ attempted w.
Proof.
  intros w.
  destruct (C7_drain_on_close sample_ports) as (_ & _ & _ & _ & _ & Hclose).
  assert (reachable sample_ports w) as Hr.
  { apply sample_reachable; [repeat constructor|].
    eexists. vm_compute. reflexivity. }
  assert (closed w <> []) as Hc by (vm_compute; discriminate).
  destruct (Hclose w Hr Hc) as [Hl Hall].
  assert (overflowed w = false) as Hov by (vm_compute; reflexivity).
  split; [exact Hl|]. split; [vm_compute; reflexivity|].
  split; apply (Hall Hov); vm_compute; repeat constructor.
Defined.

(** C8, as stated, fails: when span 13 cannot be encoded the flush attempt
    does not return an error; [httpSerialize] panics, no send is recorded
    as failed, nothing is logged, and no goroutine takes another step. *)
Lemma C8_encode_failure_panics :
  let w := sample_run strict_ports []
             [EvStart; EvCollect 13%nat 0; EvTick 2000000000 2000000000;
              EvBegin (TGo 0); EvEnd (TGo 0) None] in
  httpSerialize strict_ports [13%nat] = Panics "span cannot be encoded" /\
  panicked w = Some "span cannot be encoded" /\
  sends w = [] /\ logged w = [] /\
  step strict_ports w (EvTick 4000000000 4000000000) = None /\
  step strict_ports w EvClose = None.
Proof. repeat split; reflexivity. Qed.

(** C8, amended. When the serializer cannot produce a payload,
    [httpSerialize] panics: the flush attempt produces no error result and
    reports nothing to the logger, the batch is left as it was, and the
    process is aborted, so that no goroutine takes another step.  This
    happens whenever some span of the batch cannot be written. *)
Theorem C8_encode_failure_aborts {Span : Type} (P : Ports Span) :
  (forall (w : world Span) t sb resp msg,
     panicked w = None -> sendNow_of t w = Some (Sending sb) ->
     httpSerialize P sb = Panics msg ->
     exists w',
       step P w (EvEnd t resp) = Some w' /\
       panicked w' = Some msg /\
       batch (coll w') = batch (coll w) /\
       logged w' = logged w /\ sends w' = sends w /\
       forall ev, step P w' ev = None) /\
  (forall (spans : list Span) s,
     s ∈ spans -> (forall buf, is_Some (Span_Write P s buf).2) ->
     exists msg, httpSerialize P spans = Panics msg).
Proof.
  split.
  - intros w t sb resp msg Hp Ht Hser.
    exists (set_sendNow t Returned (sendNow_end P sb resp w)).
    split; [by apply end_step|].
    rewrite set_sendNow_frame.
    destruct (set_sendNow_history t Returned (sendNow_end P sb resp w))
      as (-> & -> & _ & _ & _ & Hp').
    assert (sendNow_end P sb resp w = panic msg (Unlock w)) as Hend.
    { unfold sendNow_end, send. by rewrite Hser. }
    rewrite Hend in *. simpl in *. repeat split; try done.
    intros ev. unfold step. by rewrite Hp'.
  - intros spans s Hin Hbad. unfold httpSerialize.
    destruct (WriteListBegin P (len spans) []) as [buf [err|]]; [eauto|].
    destruct (write_spans_panics P spans s buf Hin Hbad) as [msg ->]. eauto.
Qed.

Lemma C8_encode_failure_aborts_witness :
  let w := sample_run strict_ports []
             [EvStart; EvCollect 13%nat 0; EvTick 2000000000 2000000000;
              EvBegin (TGo 0)] in
  exists w',
    step strict_ports w (EvEnd (TGo 0) None) = Some w' /\
    panicked w' = Some "span cannot be encoded" /\
    batch (coll w') = [13%nat] /\ sends w' = [].
Proof.
  intros w.
  destruct (C8_encode_failure_aborts strict_ports) as [Habort Hwrite].
  assert (httpSerialize strict_ports [13%nat]
          = Panics "span cannot be encoded") as Hser.
  { destruct (Hwrite [13%nat] 13%nat) as [msg Hmsg].
    - apply list_elem_of_singleton. reflexivity.
    - intros buf. eexists. reflexivity.
    - rewrite Hmsg. change (httpSerialize strict_ports [13%nat])
        with (@Panics Buffer "span cannot be encoded") in Hmsg.
      exact (eq_sym Hmsg). }
  destruct (Habort w (TGo 0) [13%nat] None "span cannot be encoded"
              eq_refl eq_refl Hser)
    as (w' & Hstep & Hp & Hb & _ & Hs & _).
  exists w'. split; [exact Hstep|]. split; [exact Hp|].
  split; [exact Hb|exact Hs].
Defined.




(** C10. [NewHTTPCollector] returns a [nil] error for every URL and every
    list of options, and it keeps the URL as it is given, unexamined.  A
    URL that [http.NewRequest] rejects shows only when a flush is
    attempted: the send fails with that error, which goes to the logger,
    and the batch stays as it was. *)
Theorem C10_construction_never_fails {Span : Type} (P : Ports Span)
    (url0 : string) (options : list (HTTPOption Span)) (now : Time) :
  (NewHTTPCollector url0 options now).2 = None /\
  panicked (NewHTTPCollector url0 options now).1 = None /\
  (Forall exported options ->
   url (coll (NewHTTPCollector url0 options now).1) = url0 /\
   forall err,
     (forall body, NewRequest P "POST" url0 body = Some err) ->
     forall evs w t sb resp body,
       run P (NewHTTPCollector url0 options now).1 evs = Some w ->
       panicked w = None -> sendNow_of t w = Some (Sending sb) ->
       httpSerialize P sb = Returns body ->
       exists w',
         step P w (EvEnd t resp) = Some w' /\
         sends w' = sends w ++ [(sb, Some err)] /\
         logged w' = logged w ++ [[KString "err"; KString err]] /\
         batch (coll w') = batch (coll w) /\
         panicked w' = None).
Proof.
  split; [done|]. split; [done|]. intros Hopt.
  destruct (new_collector url0 options now Hopt) as (Hurl & _).
  split; [done|].
  intros err Hbad evs w t sb resp body Hrun Hp Ht Hbody.
  destruct (run_config P _ _ _ Hrun) as (Hurl' & _). rewrite Hurl in Hurl'.
  exists (set_sendNow t Returned (sendNow_end P sb resp w)).
  split; [by apply end_step|].
  rewrite set_sendNow_frame.
  destruct (set_sendNow_history t Returned (sendNow_end P sb resp w))
    as (-> & -> & _ & _ & _ & ->).
  assert (sendNow_end P sb resp w =
          Unlock (Log [KString "err"; KString err]
                    (with_sends (sends w ++ [(sb, Some err)]) w))) as ->.
  { unfold sendNow_end, send. by rewrite Hbody, Hurl', Hbad. }
  done.
Qed.

Lemma C10_construction_never_fails_witness :
  let new := NewHTTPCollector ":" [HTTPBatchSize 1] 0 in
  new.2 = None /\
  url (coll new.1) = ":" /\
  exists w w',
    run picky_ports new.1 [EvStart; EvCollect 1%nat 0; EvBegin (TGo 0)]
      = Some w /\
    step picky_ports w (EvEnd (TGo 0) None) = Some w' /\
    logged w' = [[KString "err"; KString "parse : missing protocol scheme"]] /\
    batch (coll w') = [1%nat].
Proof.
  intros new.
  destruct (C10_construction_never_fails picky_ports ":" [HTTPBatchSize 1] 0)
    as (Hnil & _ & Hlater).
  destruct (Hlater ltac:(repeat constructor)) as [Hurl Hflush].
  split; [exact Hnil|]. split; [exact Hurl|].
  assert (is_Some (run picky_ports new.1
                     [EvStart; EvCollect 1%nat 0; EvBegin (TGo 0)]))
    as [w Hrun].
  { eexists. vm_compute. reflexivity. }
  assert (Some (panicked w) = Some None /\
          Some (sendNow_of (TGo 0) w) = Some (Some (Sending [1%nat])) /\
          Some (logged w) = Some [] /\ Some (batch (coll w)) = Some [1%nat])
    as ([= Hp] & [= Ht] & [= Hl] & [= Hb]).
  { change (Some (panicked w)) with (panicked <$> Some w).
    change (Some (sendNow_of (TGo 0) w)) with (sendNow_of (TGo 0) <$> Some w).
    change (Some (logged w)) with (logged <$> Some w).
    change (Some (batch (coll w)))
      with ((fun x => batch (coll x)) <$> Some w).
    rewrite <-Hrun. repeat split; vm_compute; reflexivity. }
  destruct (Hflush "parse : missing protocol scheme" ltac:(reflexivity)
              _ w (TGo 0) [1%nat] None _ Hrun Hp Ht eq_refl)
    as (w' & Hstep & _ & Hlog & Hbatch & _).
  exists w, w'. split; [exact Hrun|]. split; [exact Hstep|].
  split; [by rewrite Hlog, Hl|by rewrite Hbatch, Hb].
Defined.

(** C1: the code fails the claim.  [Close] does wait for the final flush,
    but what it returns is the variable [err] of the loop, which is never
    assigned: here the final flush of span 7 fails with "connection
    refused", the failure is logged, and [Close] returns [nil]. *)
Lemma C1_close_drops_flush_error :
  let w := sample_run sample_ports []
             [EvStart; EvCollect 7%nat 0; EvClose; EvQuit; EvBegin TLoop;
              EvEnd TLoop (Some "connection refused"); EvShutdown; EvClosed] in
  sends w = [([7%nat], Some "connection refused")] /\
  logged w = [[KString "err"; KString "connection refused"]] /\
  looper w = Stopped /\
  closed w = [None].
Proof. repeat split; reflexivity. Qed.

(** Whatever the schedule and the outcome of the sends, every call of
    [Close] that returns does so after the loop has stopped, and returns
    [nil]; every call of [Collect] returns [nil]. *)
Lemma Close_returns_nil {Span : Type} (P : Ports Span) (w : world Span) :
  reachable P w ->
  Forall (fun err => err = None) (closed w) /\
  Forall (fun a => a.2 = None) (collected w) /\
  (closed w <> [] -> looper w = Stopped).
Proof.
  intros Hr. destruct (reachable_results P w Hr) as (Hc & Hd & _).
  split; [done|]. split; [done|]. intros Hne.
  apply (reachable_stopped_first P w Hr). by right.
Qed.

(** * More invariants *)

Section More.

Context {Span : Type} (P : Ports Span).
Implicit Types (w : world Span) (ev : event Span) (t : thread) (s : sender Span).

Lemma run_history w evs w' :
  run P w evs = Some w' ->
  logged w `prefix_of` logged w' /\ sends w `prefix_of` sends w' /\
  collected w `prefix_of` collected w' /\ closed w `prefix_of` closed w'.
Proof.
  revert w. induction evs as [|ev evs IH]; simpl; intros w.
  - by intros [= <-].
  - destruct (step P w ev) as [w1|] eqn:E; [|done]. intros Hrun.
    destruct (step_history P _ _ _ E) as (? & ? & ? & ?).
    destruct (IH _ Hrun) as (? & ? & ? & ?).
    repeat split; by etrans.
Qed.

(** ** The snapshot fits the batch *)

Lemma fits_mono w w' :
  (forall t sb, sendNow_of t w' = Some (Sending sb) ->
                sendNow_of t w = Some (Sending sb)) ->
  len (batch (coll w)) <= len (batch (coll w')) ->
  maxBacklog (coll w') = maxBacklog (coll w) ->
  fits w -> fits w'.
Proof.
  unfold fits. intros Hsub Hlen Hm Hf t sb Ht.
  destruct (Hf t sb (Hsub t sb Ht)). rewrite Hm. lia.
Qed.

Lemma fits_ext w w' :
  looper w' = looper w -> goroutines w' = goroutines w ->
  batch (coll w') = batch (coll w) ->
  maxBacklog (coll w') = maxBacklog (coll w) ->
  fits w -> fits w'.
Proof.
  intros Hl Hg Hb Hm. apply fits_mono; [|by rewrite Hb|done].
  intros t sb. by rewrite (sendNow_of_ext t w w').
Qed.

Lemma fits_step w ev w' :
  exclusive w -> bounded w -> fits w -> step P w ev = Some w' -> fits w'.
Proof.
  intros Hex Hb Hf Hstep.
  destruct ev as [|span now|now now'| | |t|t resp| |].
  - apply start_inv in Hstep as [Hl ->]. revert Hf. unfold loop_start.
    destruct (0 <? tickPeriod (coll w)); [|by apply fits_ext].
    apply fits_mono; try done. intros [|i] sb; simpl; done.
  - apply collect_inv in Hstep as (Hl & w1 & n & Happ & Hcases).
    assert (fits w1) as Hf1.
    { pose proof (len_app (batch (coll w)) [span]) as Hlen.
      change (len [span]) with 1 in Hlen.
      destruct (Z.le_gt_cases (len (batch (coll w) ++ [span]))
                  (maxBacklog (coll w))) as [Hfit|Hover].
      - rewrite (append_within span (Collect span w) Hfit) in Happ.
        injection Happ as <- <-. revert Hf.
        apply fits_mono; simpl; [done|lia|done].
      - destruct (append_bounded span (Collect span w) w1 n Hb Happ)
          as [_ Hw1]. destruct (Hw1 Hover) as [-> Hfull]. simpl in Hfull.
        intros t sb Ht. destruct (Hf t sb Ht) as [H1 H2]. simpl.
        split; [|done]. unfold len in *. rewrite length_drop, length_app.
        simpl. lia. }
    destruct Hcases as [(? & _ & ->)|[(_ & _ & ->)|(_ & _ & ->)]]; try done.
    revert Hf1. apply fits_mono; try done.
    intros t sb [H|H]%sendNow_of_go; done.
  - apply tick_inv in Hstep as (Hl & [[_ ->]|[_ ->]]); [done|].
    revert Hf. apply fits_mono; try done.
    intros t sb [H|H]%sendNow_of_go; done.
  - apply quit_inv in Hstep as (Hl & q & _ & ->). revert Hf.
    apply fits_mono; try done. intros [|i] sb; simpl; done.
  - apply shutdown_inv in Hstep as (Hl & _ & ->). revert Hf.
    apply fits_mono; try done. intros [|i] sb; simpl; done.
  - apply begin_inv in Hstep as (Ht & Hm & [[_ ->]|[_ ->]]).
    + revert Hf. apply fits_mono; try (by destruct t).
      intros t1 sb. destruct (decide (t = t1)) as [<-|Hne].
      * by rewrite sendNow_of_set_eq.
      * by rewrite sendNow_of_set_ne.
    + destruct Hex as [Hfree _]. specialize (Hfree Hm).
      intros t1 sb. rewrite set_sendNow_frame. simpl.
      destruct (decide (t = t1)) as [<-|Hne].
      * rewrite sendNow_of_set_eq by done. intros [= <-]. split; [done|].
        exact Hb.
      * rewrite sendNow_of_set_ne by done. intros H. by apply Hfree in H.
  - apply end_inv in Hstep as (sb & Ht & ->).
    destruct (sendNow_end_frame P sb resp w) as (Hl & Hg & _).
    intros t1 sb1 H1. by apply (end_no_sender t sb w _ Hex Ht Hl Hg) in H1.
  - apply close_inv in Hstep as (_ & ->). done.
  - apply closed_inv in Hstep as (n & err & rest & _ & _ & ->). done.
Qed.

Lemma reachable_fits w :
  reachable P w -> 0 <= maxBacklog (coll w) -> fits w.
Proof.
  apply (reachable_ind P (fun w => 0 <= maxBacklog (coll w) -> fits w)).
  - intros url0 options now Hopt Hm.
    destruct (new_collector url0 options now Hopt)
      as (_ & _ & _ & _ & _ & Hl & Hg & _).
    intros [|i] ?; simpl; rewrite ?Hl, ?Hg; done.
  - intros w0 ev w1 Hr IH Hstep Hm.
    destruct (step_config P _ _ _ Hstep) as (_ & _ & _ & Hcfg & _).
    rewrite Hcfg in Hm.
    apply (fits_step w0 ev w1); [by apply reachable_exclusive with P|
      by apply reachable_bounded with P|by apply IH|done].
Qed.

(** ** No panic *)

Lemma tickPeriod_positive (c : HTTPCollector Span) :
  0 < tickPeriod c <-> 10 <= batchInterval c.
Proof.
  unfold tickPeriod.
  pose proof (Z.quot_rem' (batchInterval c) 10) as Hqr.
  destruct (Z.neg_nonneg_cases (batchInterval c)) as [Hneg|Hnn].
  - pose proof (Z.quot_opp_l (batchInterval c) 10 ltac:(lia)).
    pose proof (Z.quot_pos (- batchInterval c) 10 ltac:(lia) ltac:(lia)).
    lia.
  - pose proof (Z.rem_bound_pos (batchInterval c) 10 Hnn ltac:(lia)). lia.
Qed.

Lemma step_sound w ev w' :
  exclusive w -> bounded w -> fits w ->
  10 <= batchInterval (coll w) ->
  (forall spans, exists body, httpSerialize P spans = Returns body) ->
  step P w ev = Some w' -> panicked w' = None.
Proof.
  intros Hex Hb Hf Hbi Hser Hstep.
  pose proof (step_live P _ _ _ Hstep) as Hp.
  destruct ev as [|span now|now now'| | |t|t resp| |].
  - apply start_inv in Hstep as [Hl ->]. unfold loop_start.
    destruct (Z.ltb_spec 0 (tickPeriod (coll w))) as [|Hle]; [done|].
    apply tickPeriod_positive in Hbi. lia.
  - apply collect_inv in Hstep as (Hl & w1 & n & Happ & Hcases).
    assert (panicked w1 = None) as Hp1.
    { destruct (Z.le_gt_cases (len (batch (coll w) ++ [span]))
                  (maxBacklog (coll w))) as [Hfit|Hover].
      - rewrite (append_within span (Collect span w) Hfit) in Happ.
        by injection Happ as <- <-.
      - destruct (append_bounded span (Collect span w) w1 n Hb Happ)
          as [_ Hw1]. by destruct (Hw1 Hover) as [-> _]. }
    destruct Hcases as [(msg & Hx & ->)|[(_ & _ & ->)|(_ & _ & ->)]]; done.
  - by apply tick_inv in Hstep as (Hl & [[_ ->]|[_ ->]]).
  - by apply quit_inv in Hstep as (Hl & q & _ & ->).
  - by apply shutdown_inv in Hstep as (Hl & _ & ->).
  - apply begin_inv in Hstep as (Ht & Hm & [[_ ->]|[_ ->]]); by destruct t.
  - apply end_inv in Hstep as (sb & Ht & ->).
    destruct (set_sendNow_history t Returned (sendNow_end P sb resp w))
      as (_ & _ & _ & _ & _ & ->).
    destruct (Hf t sb Ht) as [Hlen _].
    destruct (sendNow_end_cases P sb resp w)
      as [(msg & Hx & _)|[(err & _ & ->)|[(_ & _ & ->)|(_ & Hlt & _)]]];
      [|done|done|lia].
    unfold send in Hx. destruct (Hser sb) as [body Hbody].
    rewrite Hbody in Hx. by destruct (NewRequest P "POST" (url (coll w)) body).
  - by apply close_inv in Hstep as (_ & ->).
  - by apply closed_inv in Hstep as (n & err & rest & _ & _ & ->).
Qed.

(** ** What is logged *)

Lemma logged_errors_step w ev w' :
  logged_errors w = failed w -> step P w ev = Some w' ->
  logged_errors w' = failed w'.
Proof.
  unfold logged_errors, failed. intros Hle Hstep.
  destruct ev as [|span now|now now'| | |t|t resp| |].
  - apply start_inv in Hstep as [Hl ->]. unfold loop_start.
    by destruct (0 <? tickPeriod (coll w)).
  - apply collect_inv in Hstep as (Hl & w1 & n & Happ & Hcases).
    assert (omap error_of (logged w1) = omap (fun a => a.2) (sends w1)).
    { destruct (append_cases span (Collect span w))
        as [[_ Heq]|[(_ & _ & Heq)|(_ & _ & Heq)]];
        rewrite Heq in Happ; injection Happ as <- <-; simpl; try done;
        rewrite omap_app; simpl; by rewrite app_nil_r. }
    destruct Hcases as [(msg & Hx & ->)|[(_ & _ & ->)|(_ & _ & ->)]]; done.
  - by apply tick_inv in Hstep as (Hl & [[_ ->]|[_ ->]]).
  - by apply quit_inv in Hstep as (Hl & q & _ & ->).
  - by apply shutdown_inv in Hstep as (Hl & _ & ->).
  - apply begin_inv in Hstep as (Ht & Hm & [[_ ->]|[_ ->]]); by destruct t.
  - apply end_inv in Hstep as (sb & Ht & ->).
    destruct (set_sendNow_history t Returned (sendNow_end P sb resp w))
      as (-> & -> & _).
    destruct (sendNow_end_cases P sb resp w)
      as [(msg & _ & ->)|[(err & _ & ->)|[(_ & _ & ->)|(_ & _ & ->)]]];
      simpl; rewrite ?omap_app; simpl; rewrite ?app_nil_r; try done.
    by rewrite Hle.
  - by apply close_inv in Hstep as (_ & ->).
  - by apply closed_inv in Hstep as (n & err & rest & _ & _ & ->).
Qed.

Lemma reachable_logged_errors w : reachable P w -> logged_errors w = failed w.
Proof.
  apply (reachable_ind P (fun w => logged_errors w = failed w)).
  - intros url0 options now Hopt.
    destruct (new_collector url0 options now Hopt)
      as (_ & _ & _ & _ & _ & _ & _ & Hlog & Hs & _).
    unfold logged_errors, failed. by rewrite Hlog, Hs.
  - intros w0 ev w1 _. apply logged_errors_step.
Qed.

Lemma plain_reports_step w ev w' :
  bounded w -> plain_reports w -> step P w ev = Some w' -> plain_reports w'.
Proof.
  unfold plain_reports. intros Hb Hpl Hstep.
  destruct ev as [|span now|now now'| | |t|t resp| |].
  - apply start_inv in Hstep as [Hl ->]. unfold loop_start.
    by destruct (0 <? tickPeriod (coll w)).
  - apply collect_inv in Hstep as (Hl & w1 & n & Happ & Hcases).
    assert (plain_reports w1) as Hpl1.
    { unfold plain_reports.
      destruct (Z.le_gt_cases (len (batch (coll w) ++ [span]))
                  (maxBacklog (coll w))) as [Hfit|Hover].
      - rewrite (append_within span (Collect span w) Hfit) in Happ.
        by injection Happ as <- <-.
      - destruct (append_bounded span (Collect span w) w1 n Hb Happ)
          as [_ Hw1]. destruct (Hw1 Hover) as [-> _]. simpl.
        apply Forall_app. split; [done|]. constructor; [|done]. by left. }
    destruct Hcases as [(msg & Hx & ->)|[(_ & _ & ->)|(_ & _ & ->)]]; done.
  - by apply tick_inv in Hstep as (Hl & [[_ ->]|[_ ->]]).
  - by apply quit_inv in Hstep as (Hl & q & _ & ->).
  - by apply shutdown_inv in Hstep as (Hl & _ & ->).
  - apply begin_inv in Hstep as (Ht & Hm & [[_ ->]|[_ ->]]); by destruct t.
  - apply end_inv in Hstep as (sb & Ht & ->).
    destruct (set_sendNow_history t Returned (sendNow_end P sb resp w))
      as (-> & _).
    destruct (sendNow_end_cases P sb resp w)
      as [(msg & _ & ->)|[(err & _ & ->)|[(_ & _ & ->)|(_ & _ & ->)]]];
      simpl; try done.
    apply Forall_app. split; [done|]. constructor; [|done]. right. eauto.
  - by apply close_inv in Hstep as (_ & ->).
  - by apply closed_inv in Hstep as (n & err & rest & _ & _ & ->).
Qed.

(** ** The mutex is not left locked *)

Lemma held_step w ev w' : held w -> step P w ev = Some w' -> held w'.
Proof.
  unfold held. intros Hh Hstep.
  destruct ev as [|span now|now now'| | |t|t resp| |].
  - apply start_inv in Hstep as [Hl ->]. unfold loop_start.
    destruct (0 <? tickPeriod (coll w)); [|done]. simpl.
    intros (t & sb & Ht)%Hh. exists t, sb. destruct t; simpl in *; [|done].
    by rewrite Hl in Ht.
  - apply collect_inv in Hstep as (Hl & w1 & n & Happ & Hcases).
    apply append_frame in Happ as (Hl1 & Hg1 & Hm1 & _).
    assert (sendMutex (coll w1) = true ->
            exists t sb, sendNow_of t w1 = Some (Sending sb)) as Hh1.
    { rewrite Hm1. intros (t & sb & Ht)%Hh. exists t, sb.
      by rewrite (sendNow_of_ext t (Collect span w) w1). }
    destruct Hcases as [(msg & Hx & ->)|[(_ & _ & ->)|(_ & _ & ->)]]; try done.
    simpl. intros (t & sb & Ht)%Hh1. exists t, sb.
    destruct t as [|i]; simpl in *; [done|]. by apply lookup_app_l_Some.
  - apply tick_inv in Hstep as (Hl & [[_ ->]|[_ ->]]); [done|].
    simpl. intros (t & sb & Ht)%Hh. exists t, sb.
    destruct t as [|i]; simpl in *; [done|]. by apply lookup_app_l_Some.
  - apply quit_inv in Hstep as (Hl & q & _ & ->). simpl.
    intros (t & sb & Ht)%Hh. exists t, sb. destruct t; simpl in *; [|done].
    by rewrite Hl in Ht.
  - apply shutdown_inv in Hstep as (Hl & _ & ->). simpl.
    intros (t & sb & Ht)%Hh. exists t, sb. destruct t; simpl in *; [|done].
    by rewrite Hl in Ht.
  - apply begin_inv in Hstep as (Ht & Hm & [[_ ->]|[_ ->]]).
    + rewrite set_sendNow_frame. by rewrite Hm.
    + intros _. exists t, (batch (coll w)). apply sendNow_of_set_eq. eauto.
  - apply end_inv in Hstep as (sb & Ht & ->). rewrite set_sendNow_frame.
    destruct (sendNow_end_frame P sb resp w) as (_ & _ & -> & _). done.
  - by apply close_inv in Hstep as (_ & ->).
  - by apply closed_inv in Hstep as (n & err & rest & _ & _ & ->).
Qed.

Lemma reachable_held w : reachable P w -> held w.
Proof.
  apply (reachable_ind P held).
  - intros url0 options now Hopt.
    destruct (new_collector url0 options now Hopt)
      as (_ & _ & _ & _ & Hm & _).
    unfold held. by rewrite Hm.
  - intros w0 ev w1 _. apply held_step.
Qed.

(** ** One value through [shutdown] *)

Lemma closes_once_ext w w' :
  looper w' = looper w -> shutdown (coll w') = shutdown (coll w) ->
  closed w' = closed w -> closes_once w -> closes_once w'.
Proof. unfold closes_once. by intros -> -> ->. Qed.

Lemma closes_once_step w ev w' :
  closes_once w -> step P w ev = Some w' -> closes_once w'.
Proof.
  intros Hc Hstep.
  destruct ev as [|span now|now now'| | |t|t resp| |].
  - apply start_inv in Hstep as [Hl ->]. unfold loop_start, closes_once in *.
    rewrite Hl in Hc. destruct (0 <? tickPeriod (coll w)); simpl; [done|].
    by rewrite Hl.
  - apply collect_inv in Hstep as (Hl & w1 & n & Happ & Hcases).
    apply append_frame in Happ as (Hl1 & _ & _ & _ & _ & Hcl & Hsh & _).
    assert (closes_once w1) by (by apply (closes_once_ext (Collect span w))).
    destruct Hcases as [(msg & Hx & ->)|[(_ & _ & ->)|(_ & _ & ->)]]; done.
  - by apply tick_inv in Hstep as (Hl & [[_ ->]|[_ ->]]).
  - apply quit_inv in Hstep as (Hl & q & _ & ->). unfold closes_once in *.
    by rewrite Hl in Hc.
  - apply shutdown_inv in Hstep as (Hl & Hsh & ->). unfold closes_once in *.
    rewrite Hl in Hc. destruct Hc as [_ Hcl]. simpl. by rewrite Hcl.
  - apply begin_inv in Hstep as (Ht & Hm & [[_ ->]|[_ ->]]);
      (destruct t as [|i]; [|by apply (closes_once_ext w)]);
      simpl in Ht; unfold closes_once in *;
      destruct (looper w) as [| |[]|]; done.
  - apply end_inv in Hstep as (sb & Ht & ->).
    destruct (sendNow_end_frame P sb resp w)
      as (Hl & _ & _ & _ & Hcl & Hsh & _).
    destruct t as [|i].
    + simpl in Ht. unfold closes_once in *. simpl. rewrite Hsh, Hcl.
      destruct (looper w) as [| |[]|]; done.
    + by apply (closes_once_ext w).
  - by apply close_inv in Hstep as (_ & ->).
  - apply closed_inv in Hstep as (n & err & rest & _ & Hsh & ->).
    unfold closes_once in *. simpl.
    destruct (looper w) as [| |[]|]; rewrite Hsh in Hc;
      try (by destruct Hc).
    simpl in Hc. destruct rest, (closed w); simpl in *; try lia; done.
Qed.

Lemma reachable_closes_once w : reachable P w -> closes_once w.
Proof.
  apply (reachable_ind P closes_once).
  - intros url0 options now Hopt.
    destruct (new_collector url0 options now Hopt)
      as (_ & _ & _ & Hsh & _ & Hl & _ & _ & _ & _ & _ & Hcl & _).
    unfold closes_once. by rewrite Hl, Hsh, Hcl.
  - intros w0 ev w1 _. apply closes_once_step.
Qed.

(** ** After the quit signal *)

Lemma quitting_step w ev w' :
  quitting w -> step P w ev = Some w' ->
  quitting w' /\ collected w' = collected w /\
  batch (coll w') `suffix_of` batch (coll w).
Proof.
  unfold quitting. intros Hq Hstep.
  destruct ev as [|span now|now now'| | |t|t resp| |].
  - apply start_inv in Hstep as [Hl _]. by rewrite Hl in Hq.
  - apply collect_inv in Hstep as (Hl & _). by rewrite Hl in Hq.
  - apply tick_inv in Hstep as (Hl & _). by rewrite Hl in Hq.
  - apply quit_inv in Hstep as (Hl & _). by rewrite Hl in Hq.
  - by apply shutdown_inv in Hstep as (Hl & _ & ->).
  - apply begin_inv in Hstep as (Ht & Hm & [[_ ->]|[_ ->]]);
      rewrite set_sendNow_frame;
      (split; [by destruct t|]); (split; [by destruct t|done]).
  - apply end_inv in Hstep as (sb & Ht & ->). rewrite set_sendNow_frame.
    destruct (sendNow_end_frame P sb resp w) as (Hl & _ & _ & Hc & _).
    split; [destruct t; simpl; [done|by rewrite Hl]|].
    split; [destruct t; simpl; by rewrite Hc|].
    destruct (sendNow_end_cases P sb resp w)
      as [(msg & _ & ->)|[(err & _ & ->)|[(_ & _ & ->)|(_ & _ & ->)]]];
      simpl; try done.
    apply suffix_drop.
  - by apply close_inv in Hstep as (_ & ->).
  - by apply closed_inv in Hstep as (n & err & rest & _ & _ & ->).
Qed.

Lemma quitting_run w evs w' :
  quitting w -> run P w evs = Some w' ->
  quitting w' /\ collected w' = collected w /\
  batch (coll w') `suffix_of` batch (coll w).
Proof.
  revert w. induction evs as [|ev evs IH]; simpl; intros w Hq.
  - by intros [= <-].
  - destruct (step P w ev) as [w1|] eqn:E; [|done]. intros Hrun.
    destruct (quitting_step w ev w1 Hq E) as (Hq1 & Hc1 & Hb1).
    destruct (IH w1 Hq1 Hrun) as (Hq' & Hc' & Hb').
    split; [done|]. split; [congruence|]. by etrans.
Qed.

Lemma reachable_plain_reports w :
  reachable P w -> 0 <= maxBacklog (coll w) -> plain_reports w.
Proof.
  apply (reachable_ind P (fun w => 0 <= maxBacklog (coll w) -> plain_reports w)).
  - intros url0 options now Hopt Hm.
    destruct (new_collector url0 options now Hopt)
      as (_ & _ & _ & _ & _ & _ & _ & Hlog & _).
    unfold plain_reports. by rewrite Hlog.
  - intros w0 ev w1 Hr IH Hstep Hm.
    destruct (step_config P _ _ _ Hstep) as (_ & _ & _ & Hcfg & _).
    rewrite Hcfg in Hm.
    apply (plain_reports_step w0 ev w1); [by apply reachable_bounded with P|
      by apply IH|done].
Qed.

(** ** Accounting *)

Lemma accounted_ext w w' :
  batch (coll w') = batch (coll w) -> collected w' = collected w ->
  logged w' = logged w -> sends w' = sends w ->
  accounted w -> accounted w'.
Proof.
  unfold accounted, spans_of, delivered. intros -> -> Hlog ->.
  by rewrite (disposed_logged w w').
Qed.

Lemma accounted_step w ev w' :
  bounded w -> fits w -> accounted w -> step P w ev = Some w' -> accounted w'.
Proof.
  intros Hb Hf Ha Hstep.
  destruct ev as [|span now|now now'| | |t|t resp| |].
  - apply start_inv in Hstep as [_ ->]. unfold loop_start.
    by destruct (0 <? tickPeriod (coll w)).
  - apply collect_inv in Hstep as (Hl & w1 & n & Happ & Hcases).
    assert (accounted w1) as Ha1.
    { unfold accounted in *.
      pose proof (len_app (batch (coll w)) [span]) as Hlen.
      pose proof (len_app (spans_of w) [span]) as Hlen'.
      change (len [span]) with 1 in *.
      assert (spans_of (Collect span w) = spans_of w ++ [span]) as Hsp.
      { unfold spans_of. simpl. by rewrite fmap_app. }
      destruct (Z.le_gt_cases (len (batch (coll w) ++ [span]))
                  (maxBacklog (coll w))) as [Hfit|Hover].
      - rewrite (append_within span (Collect span w) Hfit) in Happ.
        injection Happ as <- <-. simpl.
        change (spans_of (with_coll _ _)) with (spans_of (Collect span w)).
        rewrite Hsp, Hlen', Hlen.
        rewrite (disposed_logged w) by done.
        change (delivered (with_coll _ _)) with (delivered w). lia.
      - destruct (append_bounded span (Collect span w) w1 n Hb Happ)
          as [_ Hw1]. destruct (Hw1 Hover) as [-> Hfull]. simpl in Hfull.
        simpl.
        change (spans_of (with_coll _ _)) with (spans_of (Collect span w)).
        rewrite Hsp, Hlen'.
        rewrite (disposed_logged (Log (disposing 1) w)) by done.
        rewrite disposed_Log. simpl.
        change (delivered (with_coll _ _)) with (delivered w).
        assert (len (drop 1 (batch (coll w) ++ [span])) = len (batch (coll w)))
          as ->; [|lia].
        unfold len in *. rewrite length_drop, length_app. simpl. lia. }
    destruct Hcases as [(msg & Hx & ->)|[(_ & _ & ->)|(_ & _ & ->)]]; done.
  - by apply tick_inv in Hstep as (Hl & [[_ ->]|[_ ->]]).
  - by apply quit_inv in Hstep as (Hl & q & _ & ->).
  - by apply shutdown_inv in Hstep as (Hl & _ & ->).
  - apply begin_inv in Hstep as (Ht & Hm & [[_ ->]|[_ ->]]);
      revert Ha; apply accounted_ext; by destruct t.
  - apply end_inv in Hstep as (sb & Ht & ->).
    assert (accounted (sendNow_end P sb resp w)) as Ha';
      [|revert Ha'; apply accounted_ext; by destruct t].
    destruct (Hf t sb Ht) as [Hlen _].
    destruct (sendNow_end_cases P sb resp w)
      as [(msg & _ & ->)|[(err & _ & ->)|[(_ & _ & ->)|(_ & Hlt & _)]]];
      [done| | |lia]; unfold accounted in *.
    + change (spans_of (Unlock _)) with (spans_of w).
      rewrite (disposed_logged (Log [KString "err"; KString err] w)) by done.
      rewrite disposed_Log. simpl.
      assert (delivered (Unlock (Log [KString "err"; KString err]
                (with_sends (sends w ++ [(sb, Some err)]) w))) = delivered w)
        as ->; [|lia].
      unfold delivered. simpl. rewrite omap_app. simpl. by rewrite app_nil_r.
    + change (spans_of (Unlock _)) with (spans_of w).
      rewrite (disposed_logged w) by done.
      assert (delivered (Unlock (with_coll
                (with_batch (drop (length sb) (batch (coll w))) (coll w))
                (with_sends (sends w ++ [(sb, None)]) w)))
              = delivered w ++ sb) as ->.
      { unfold delivered. simpl. rewrite omap_app, concat_app. simpl.
        by rewrite app_nil_r. }
      simpl. rewrite len_app. unfold len in *. rewrite length_drop. lia.
  - by apply close_inv in Hstep as (_ & ->).
  - by apply closed_inv in Hstep as (n & err & rest & _ & _ & ->).
Qed.

Lemma reachable_accounted w :
  reachable P w -> 0 <= maxBacklog (coll w) -> accounted w.
Proof.
  apply (reachable_ind P (fun w => 0 <= maxBacklog (coll w) -> accounted w)).
  - intros url0 options now Hopt Hm.
    destruct (new_collector url0 options now Hopt)
      as (_ & Hb & _ & _ & _ & _ & _ & Hlog & Hs & Hc & _).
    unfold accounted, spans_of, disposed, delivered.
    by rewrite Hb, Hlog, Hs, Hc.
  - intros w0 ev w1 Hr IH Hstep Hm.
    destruct (step_config P _ _ _ Hstep) as (_ & _ & _ & Hcfg & _).
    rewrite Hcfg in Hm.
    apply (accounted_step w0 ev w1); [by apply reachable_bounded with P|
      by apply reachable_fits|by apply IH|done].
Qed.

Lemma reachable_sound w :
  reachable P w -> 0 <= maxBacklog (coll w) -> 10 <= batchInterval (coll w) ->
  (forall spans, exists body, httpSerialize P spans = Returns body) ->
  panicked w = None.
Proof.
  intros Hr Hm Hbi Hser. revert Hm Hbi.
  apply (reachable_ind P (fun w => 0 <= maxBacklog (coll w) ->
           10 <= batchInterval (coll w) -> panicked w = None)); [| |done].
  - intros url0 options now Hopt _ _.
    by destruct (new_collector url0 options now Hopt)
      as (_ & _ & _ & _ & _ & _ & _ & _ & _ & _ & _ & _ & ->).
  - intros w0 ev w1 Hr0 IH Hstep Hm Hbi.
    destruct (step_config P _ _ _ Hstep) as (_ & Hcbi & _ & Hcfg & _).
    rewrite Hcfg in Hm. rewrite Hcbi in Hbi.
    apply (step_sound w0 ev w1); [by apply reachable_exclusive with P|
      by apply reachable_bounded with P|by apply reachable_fits|done..].
Qed.

(** ** What a step adds to the sends *)

Lemma sends_step w ev w' :
  step P w ev = Some w' ->
  sends w' = sends w \/
  exists t sb r, sendNow_of t w = Some (Sending sb) /\
                 sends w' = sends w ++ [(sb, r)].
Proof.
  intros Hstep. destruct ev as [|span now|now now'| | |t|t resp| |].
  - apply start_inv in Hstep as [_ ->]. left. unfold loop_start.
    by destruct (0 <? tickPeriod (coll w)).
  - apply collect_inv in Hstep as (Hl & w1 & n & Happ & Hcases).
    apply append_frame in Happ as (_ & _ & _ & Hs & _). left.
    destruct Hcases as [(msg & Hx & ->)|[(_ & _ & ->)|(_ & _ & ->)]]; done.
  - left. by apply tick_inv in Hstep as (Hl & [[_ ->]|[_ ->]]).
  - left. by apply quit_inv in Hstep as (Hl & q & _ & ->).
  - left. by apply shutdown_inv in Hstep as (Hl & _ & ->).
  - left. apply begin_inv in Hstep as (Ht & Hm & [[_ ->]|[_ ->]]);
      by destruct t.
  - apply end_inv in Hstep as (sb & Ht & ->).
    destruct (set_sendNow_history t Returned (sendNow_end P sb resp w))
      as (_ & -> & _).
    destruct (sendNow_end_cases P sb resp w)
      as [(msg & _ & ->)|[(err & _ & ->)|[(_ & _ & ->)|(_ & _ & ->)]]];
      simpl; eauto 10.
  - left. by apply close_inv in Hstep as (_ & ->).
  - left. by apply closed_inv in Hstep as (n & err & rest & _ & _ & ->).
Qed.

Lemma reachable_sends_loaded w :
  reachable P w -> Forall (fun a => a.1 <> []) (sends w).
Proof.
  apply (reachable_ind P (fun w => Forall (fun a => a.1 <> []) (sends w))).
  - intros url0 options now Hopt.
    destruct (new_collector url0 options now Hopt)
      as (_ & _ & _ & _ & _ & _ & _ & _ & Hs & _).
    by rewrite Hs.
  - intros w0 ev w1 Hr IH Hstep.
    destruct (sends_step w0 ev w1 Hstep) as [->|(t & sb & r & Ht & ->)];
      [done|].
    apply Forall_app. split; [done|]. constructor; [|done]. simpl.
    by apply (reachable_loaded P w0 Hr t sb).
Qed.

(** ** Degenerate backlogs *)

Lemma int_sub_negative (m : Z) :
  - 2 ^ 63 <= m < 0 -> ~ (0 <= int_sub 1 m <= 1).
Proof.
  unfold int_sub, int_wrap.
  change (2 ^ 63) with 9223372036854775808.
  change (2 ^ 64) with 18446744073709551616.
  intros Hm. pose proof (Z.mod_pos_bound (1 - m + 9223372036854775808)
                           18446744073709551616 ltac:(lia)) as Hb.
  pose proof (Z.div_mod (1 - m + 9223372036854775808) 18446744073709551616
                ltac:(lia)) as Hdm.
  lia.
Qed.

Lemma negative_backlog_step w ev w' :
  - 2 ^ 63 <= maxBacklog (coll w) < 0 -> batch (coll w) = [] ->
  step P w ev = Some w' ->
  match ev with
  | EvCollect _ _ => panicked w' = Some "slice bounds out of range"
  | _ => batch (coll w') = []
  end.
Proof.
  intros Hm Hb Hstep.
  destruct ev as [|span now|now now'| | |t|t resp| |].
  - apply start_inv in Hstep as [_ ->]. unfold loop_start.
    by destruct (0 <? tickPeriod (coll w)).
  - apply collect_inv in Hstep as (Hl & w1 & n & Happ & Hcases).
    assert (panicked w1 = Some "slice bounds out of range") as Hp1.
    { destruct (append_cases span (Collect span w))
        as [[Hfit Heq]|[(_ & Hd & Heq)|(_ & _ & Heq)]];
        simpl in *; rewrite Hb in *.
      - change (len ([] ++ [span])) with 1 in Hfit. lia.
      - change (len ([] ++ [span])) with 1 in Hd.
        by apply int_sub_negative in Hd.
      - rewrite Heq in Happ. by injection Happ as <- <-. }
    destruct Hcases as [(msg & Hx & ->)|[(Hx & _)|(Hx & _)]]; congruence.
  - by apply tick_inv in Hstep as (Hl & [[_ ->]|[_ ->]]).
  - by apply quit_inv in Hstep as (Hl & q & _ & ->).
  - by apply shutdown_inv in Hstep as (Hl & _ & ->).
  - apply begin_inv in Hstep as (Ht & _ & [[_ ->]|[_ ->]]);
      by rewrite set_sendNow_frame.
  - apply end_inv in Hstep as (sb & Ht & ->). rewrite set_sendNow_frame.
    destruct (sendNow_end_cases P sb resp w)
      as [(msg & _ & ->)|[(err & _ & ->)|[(_ & _ & ->)|(_ & _ & ->)]]];
      simpl; rewrite ?Hb; try done. by rewrite drop_nil.
  - by apply close_inv in Hstep as (_ & ->).
  - by apply closed_inv in Hstep as (n & err & rest & _ & _ & ->).
Qed.

Lemma reachable_negative_backlog w :
  reachable P w -> - 2 ^ 63 <= maxBacklog (coll w) < 0 ->
  panicked w = None -> batch (coll w) = [].
Proof.
  apply (reachable_ind P (fun w => - 2 ^ 63 <= maxBacklog (coll w) < 0 ->
           panicked w = None -> batch (coll w) = [])).
  - intros url0 options now Hopt _ _.
    by destruct (new_collector url0 options now Hopt) as (_ & -> & _).
  - intros w0 ev w1 Hr IH Hstep Hm Hp.
    destruct (step_config P _ _ _ Hstep) as (_ & _ & _ & Hcfg & _).
    rewrite Hcfg in Hm.
    pose proof (negative_backlog_step w0 ev w1 Hm
                  (IH Hm (step_live P _ _ _ Hstep)) Hstep) as Hcase.
    destruct ev; try done. by rewrite Hp in Hcase.
Qed.

Lemma zero_backlog_step w ev w' :
  batch (coll w) = [] -> idle w -> sends w = [] ->
  step P w ev = Some w' -> idle w' /\ sends w' = [].
Proof.
  intros Hb Hi Hs Hstep. split.
  - destruct ev as [|span now|now now'| | |t|t resp| |].
    + apply start_inv in Hstep as [Hl ->]. revert Hi. unfold loop_start.
      destruct (0 <? tickPeriod (coll w)); [|done].
      apply idle_mono. intros [|i] sb; simpl; done.
    + apply collect_inv in Hstep as (Hl & w1 & n & Happ & Hcases).
      apply append_frame in Happ as (Hl1 & Hg1 & _).
      assert (idle w1).
      { revert Hi. apply idle_mono. intros t sb.
        by rewrite (sendNow_of_ext t (Collect span w) w1). }
      destruct Hcases as [(msg & Hx & ->)|[(_ & _ & ->)|(_ & _ & ->)]];
        try done.
      revert H. apply idle_mono. intros t sb [H|H]%sendNow_of_go; done.
    + apply tick_inv in Hstep as (Hl & [[_ ->]|[_ ->]]); [done|].
      revert Hi. apply idle_mono. intros t sb [H|H]%sendNow_of_go; done.
    + apply quit_inv in Hstep as (Hl & q & _ & ->). revert Hi.
      apply idle_mono. intros [|i] sb; simpl; done.
    + apply shutdown_inv in Hstep as (Hl & _ & ->). revert Hi.
      apply idle_mono. intros [|i] sb; simpl; done.
    + apply begin_inv in Hstep as (Ht & _ & [[_ ->]|[Hne _]]); [|done].
      revert Hi. apply idle_mono. intros t1 sb.
      destruct (decide (t = t1)) as [<-|Hne].
      * by rewrite sendNow_of_set_eq.
      * by rewrite sendNow_of_set_ne.
    + apply end_inv in Hstep as (sb & Ht & _). by apply Hi in Ht.
    + by apply close_inv in Hstep as (_ & ->).
    + by apply closed_inv in Hstep as (n & err & rest & _ & _ & ->).
  - destruct (sends_step w ev w' Hstep) as [->|(t & sb & r & Ht & _)];
      [done|]. by apply Hi in Ht.
Qed.

Lemma reachable_zero_backlog w :
  reachable P w -> maxBacklog (coll w) = 0 -> idle w /\ sends w = [].
Proof.
  apply (reachable_ind P (fun w => maxBacklog (coll w) = 0 ->
                                   idle w /\ sends w = [])).
  - intros url0 options now Hopt _.
    destruct (new_collector url0 options now Hopt)
      as (_ & _ & _ & _ & _ & Hl & Hg & _ & Hs & _).
    split; [|done]. intros [|i] ?; simpl; rewrite ?Hl, ?Hg; done.
  - intros w0 ev w1 Hr IH Hstep Hm.
    destruct (step_config P _ _ _ Hstep) as (_ & _ & _ & Hcfg & _).
    rewrite Hcfg in Hm. destruct (IH Hm) as [Hi Hs].
    apply (zero_backlog_step w0 ev w1); try done.
    pose proof (reachable_bounded P w0 Hr ltac:(lia)) as Hb.
    unfold bounded, len in Hb. rewrite Hm in Hb.
    destruct (batch (coll w0)); [done|simpl in Hb; lia].
Qed.

(** ** Reports and counts *)

Lemma disposed_evictions w :
  plain_reports w -> disposed w = Z.of_nat (evictions w).
Proof.
  unfold plain_reports, disposed, evictions.
  induction (logged w) as [|call l IH]; [done|].
  intros [Hcall Hl]%Forall_cons. specialize (IH Hl).
  change (omap dispose_count (call :: l))
    with (match dispose_count call with
          | Some y => y :: omap dispose_count l
          | None => omap dispose_count l
          end).
  destruct Hcall as [[Hc _]|[Hc _]]; rewrite Hc; cbn [foldr length]; lia.
Qed.

(** ** Serialization *)

Lemma write_spans_app (l1 l2 : list Span) buf :
  write_spans P (l1 ++ l2) buf =
  match write_spans P l1 buf with
  | Returns buf' => write_spans P l2 buf'
  | Panics msg => Panics msg
  end.
Proof.
  revert buf. induction l1 as [|x l1 IH]; intros buf; [done|]. simpl.
  by destruct (Span_Write P x buf) as [buf' [err|]].
Qed.

(** ** Options *)

Lemma options_last (ss : list setting) (c : HTTPCollector Span) :
  let c' := fold_left (fun c option => option c) (option_of <$> ss) c in
  logger c' =
    last_of (fun st => match st with SetLogger l => Some l | _ => None end)
      (logger c) ss /\
  client c' =
    last_of (fun st => match st with
                      | SetTimeout d => Some (mkClient d) | _ => None end)
      (client c) ss /\
  batchSize c' =
    last_of (fun st => match st with SetBatchSize n => Some n | _ => None end)
      (batchSize c) ss /\
  maxBacklog c' =
    last_of (fun st => match st with SetMaxBacklog n => Some n | _ => None end)
      (maxBacklog c) ss /\
  batchInterval c' =
    last_of (fun st => match st with
                      | SetBatchInterval d => Some d | _ => None end)
      (batchInterval c) ss /\
  url c' = url c /\ nextSend c' = nextSend c /\ batch c' = batch c /\
  quit c' = quit c /\ shutdown c' = shutdown c /\ sendMutex c' = sendMutex c.
Proof.
  induction ss as [|st ss IH] using rev_ind; [done|].
  simpl in *. unfold last_of in *.
  rewrite fmap_app, fold_left_app. simpl.
  destruct IH as (H1 & H2 & H3 & H4 & H5 & H6 & H7 & H8 & H9 & H10 & H11).
  rewrite !omap_app. destruct st; simpl; rewrite ?app_nil_r, ?last_snoc; simpl;
    repeat split; done.
Qed.

(** ** The mutex *)

Lemma reachable_mutex w :
  reachable P w ->
  sendMutex (coll w) = true <-> exists t sb, sendNow_of t w = Some (Sending sb).
Proof.
  intros Hr. split; [by apply reachable_held|].
  intros (t & sb & Ht). destruct (reachable_exclusive P w Hr) as [Hfree _].
  destruct (sendMutex (coll w)); [done|]. by destruct (Hfree eq_refl t sb).
Qed.

End More.

Lemma httpSerialize_total {Span : Type} (P : Ports Span) :
  (forall n buf, (WriteListBegin P n buf).2 = None) ->
  (forall span buf, (Span_Write P span buf).2 = None) ->
  (forall buf, (WriteListEnd P buf).2 = None) ->
  forall spans, exists body, httpSerialize P spans = Returns body.
Proof.
  intros Hbegin Hwrite Hend spans.
  assert (forall l buf, exists buf', write_spans P l buf = Returns buf') as Hw.
  { induction l as [|x l IH]; intros buf; simpl; [eauto|].
    specialize (Hwrite x buf).
    destruct (Span_Write P x buf) as [buf' [err|]]; [done|]. apply IH. }
  unfold httpSerialize. specialize (Hbegin (len spans) []).
  destruct (WriteListBegin P (len spans) []) as [buf [err|]]; [done|].
  destruct (Hw spans buf) as [buf' ->]. specialize (Hend buf').
  destruct (WriteListEnd P buf') as [buf'' [err|]]; [done|]. eauto.
Qed.

(** * Further properties *)

(** X1. [sendNow] never sends an empty batch: every call of [send] that
    was made carried at least one span, and a [sendNow] that finds the
    batch empty returns at once, leaving the collector, the log and the
    sends as they were. *)
Theorem X1_no_empty_send {Span : Type} (P : Ports Span) (w : world Span) :
  reachable P w ->
  Forall (fun a => a.1 <> []) (sends w) /\
  forall t w',
    batch (coll w) = [] -> step P w (EvBegin t) = Some w' ->
    sendNow_of t w' = Some Returned /\ coll w' = coll w /\
    logged w' = logged w /\ sends w' = sends w.
Proof.
  intros Hr. split; [by apply reachable_sends_loaded with P|].
  intros t w' Hb Hstep.
  apply begin_inv in Hstep as (Ht & _ & [[_ ->]|[Hne _]]); [|done].
  rewrite sendNow_of_set_eq by eauto. rewrite set_sendNow_frame.
  by destruct (set_sendNow_history t Returned w) as (-> & -> & _).
Qed.

Lemma X1_no_empty_send_witness :
  let w := sample_run sample_ports []
             [EvStart; EvTick 2000000000 2000000000] in
  let w' := sample_run sample_ports []
              [EvStart; EvTick 2000000000 2000000000; EvBegin (TGo 0)] in
  sendNow_of (TGo 0) w = Some Waiting /\
  sendNow_of (TGo 0) w' = Some Returned /\ sends w' = sends w.
Proof.
  intros w w'.
  assert (reachable sample_ports w) as Hr.
  { apply sample_reachable; [repeat constructor|].
    eexists. vm_compute. reflexivity. }
  assert (step sample_ports w (EvBegin (TGo 0)) = Some w') as Hs
    by (vm_compute; reflexivity).
  assert (batch (coll w) = []) as Hb by (vm_compute; reflexivity).
  destruct (X1_no_empty_send sample_ports w Hr) as [_ Hempty].
  destruct (Hempty (TGo 0) w' Hb Hs) as (H1 & _ & _ & H2).
  split; [vm_compute; reflexivity|]. split; [exact H1|exact H2].
Defined.

(** X2. The errors reported to the logger are exactly the errors of the
    sends that failed, in the same order: [sendNow] reports every failed
    send once, and nothing else is ever reported as an error. *)
Theorem X2_failed_sends_are_logged {Span : Type} (P : Ports Span)
    (w : world Span) :
  reachable P w -> logged_errors w = failed w.
Proof. apply reachable_logged_errors. Qed.

Lemma X2_failed_sends_are_logged_witness :
  let w := sample_run sample_ports [HTTPMaxBacklog 1]
             [EvStart; EvCollect 1%nat 0; EvTick 2000000000 2000000000;
              EvBegin (TGo 0); EvEnd (TGo 0) (Some "connection refused");
              EvCollect 2%nat 2000000001; EvTick 4000000000 4000000000;
              EvBegin (TGo 1); EvEnd (TGo 1) (Some "timeout")] in
  failed w = ["connection refused"; "timeout"]%string /\
  logged_errors w = failed w /\ length (logged w) = 3%nat.
Proof.
  intros w.
  assert (reachable sample_ports w) as Hr.
  { apply sample_reachable; [repeat constructor|].
    eexists. vm_compute. reflexivity. }
  split; [vm_compute; reflexivity|].
  split; [exact (X2_failed_sends_are_logged sample_ports w Hr)|].
  vm_compute. reflexivity.
Defined.

(** X3. With a [maxBacklog] that is not negative, every call of the logger
    either reports the eviction of exactly one span or reports an error:
    [append] never evicts more than the span that made the batch too long,
    so the number of spans reported as evicted is the number of eviction
    reports. *)
Theorem X3_one_eviction_per_report {Span : Type} (P : Ports Span)
    (w : world Span) :
  reachable P w -> 0 <= maxBacklog (coll w) ->
  plain_reports w /\ disposed w = Z.of_nat (evictions w).
Proof.
  intros Hr Hm. pose proof (reachable_plain_reports P w Hr Hm) as Hpl.
  split; [done|]. by apply disposed_evictions.
Qed.

Lemma X3_one_eviction_per_report_witness :
  let w := sample_run sample_ports [HTTPMaxBacklog 1]
             [EvStart; EvCollect 1%nat 0; EvCollect 2%nat 0; EvCollect 3%nat 0] in
  logged w = [disposing 1; disposing 1] /\ disposed w = 2.
Proof.
  intros w.
  assert (reachable sample_ports w) as Hr.
  { apply sample_reachable; [repeat constructor|].
    eexists. vm_compute. reflexivity. }
  assert (0 <= maxBacklog (coll w)) as Hm by (vm_compute; discriminate).
  destruct (X3_one_eviction_per_report sample_ports w Hr Hm) as [_ Hd].
  split; [vm_compute; reflexivity|]. rewrite Hd. vm_compute. reflexivity.
Defined.

(** X4. With a [maxBacklog] that is not negative, the spans add up: the
    number of spans collected is the number still in the batch, plus the
    number reported as evicted, plus the number removed from the batch
    after sends that succeeded. *)
Theorem X4_spans_add_up {Span : Type} (P : Ports Span) (w : world Span) :
  reachable P w -> 0 <= maxBacklog (coll w) ->
  len (spans_of w) = len (batch (coll w)) + disposed w + len (delivered w).
Proof. apply reachable_accounted. Qed.

Lemma X4_spans_add_up_witness :
  let w := sample_run sample_ports [HTTPMaxBacklog 2; HTTPBatchSize 2]
             [EvStart; EvCollect 1%nat 0; EvCollect 2%nat 0; EvBegin (TGo 0);
              EvCollect 3%nat 0; EvEnd (TGo 0) None; EvCollect 4%nat 0] in
  len (spans_of w) = 4 /\
  len (batch (coll w)) + disposed w + len (delivered w) = 4.
Proof.
  intros w.
  assert (reachable sample_ports w) as Hr.
  { apply sample_reachable; [repeat constructor|].
    eexists. vm_compute. reflexivity. }
  assert (0 <= maxBacklog (coll w)) as Hm by (vm_compute; discriminate).
  split; [vm_compute; reflexivity|].
  rewrite <-(X4_spans_add_up sample_ports w Hr Hm). vm_compute. reflexivity.
Defined.

(** X5. The collector panics for three reasons only: a negative
    [maxBacklog], a [batchInterval] below ten nanoseconds, and a thrift
    write that fails.  With none of them, no schedule makes any goroutine
    panic. *)
Theorem X5_no_panic {Span : Type} (P : Ports Span) (w : world Span) :
  reachable P w ->
  0 <= maxBacklog (coll w) -> 10 <= batchInterval (coll w) ->
  (forall n buf, (WriteListBegin P n buf).2 = None) ->
  (forall span buf, (Span_Write P span buf).2 = None) ->
  (forall buf, (WriteListEnd P buf).2 = None) ->
  panicked w = None.
Proof.
  intros Hr Hm Hbi Hbegin Hwrite Hend.
  apply (reachable_sound P w Hr Hm Hbi).
  by apply httpSerialize_total.
Qed.

Lemma X5_no_panic_witness :
  let w := sample_run sample_ports [HTTPMaxBacklog 1; HTTPBatchSize 1]
             [EvStart; EvCollect 1%nat 0; EvBegin (TGo 0); EvCollect 2%nat 0;
              EvEnd (TGo 0) None] in
  batch (coll w) = [] /\ panicked w = None.
Proof.
  intros w.
  assert (reachable sample_ports w) as Hr.
  { apply sample_reachable; [repeat constructor|].
    eexists. vm_compute. reflexivity. }
  assert (0 <= maxBacklog (coll w)) as Hm by (vm_compute; discriminate).
  assert (10 <= batchInterval (coll w)) as Hbi by (vm_compute; discriminate).
  split; [vm_compute; reflexivity|].
  apply (X5_no_panic sample_ports w Hr Hm Hbi); intros; reflexivity.
Defined.

(** X6. With a [maxBacklog] that is not negative, the slice expression
    [c.batch[len(sendBatch):]] of [sendNow] is always within bounds: a
    snapshot being sent is never longer than the batch, whatever arrived or
    was evicted during the send; so a send that succeeds ends with the
    first [len(sendBatch)] spans removed, no panic, and the mutex free. *)
Theorem X6_removal_in_range {Span : Type} (P : Ports Span) (w : world Span)
    (t : thread) (sb : list Span) (resp : error) :
  reachable P w -> 0 <= maxBacklog (coll w) -> panicked w = None ->
  sendNow_of t w = Some (Sending sb) ->
  send P (coll w) sb resp = Returns None ->
  len sb <= len (batch (coll w)) /\
  exists w',
    step P w (EvEnd t resp) = Some w' /\ panicked w' = None /\
    batch (coll w') = drop (length sb) (batch (coll w)) /\
    sendMutex (coll w') = false.
Proof.
  intros Hr Hm Hp Ht Hsend.
  destruct (reachable_fits P w Hr Hm t sb Ht) as [Hlen _].
  split; [done|]. eexists. split; [by apply end_step|].
  rewrite set_sendNow_frame.
  destruct (set_sendNow_history t Returned (sendNow_end P sb resp w))
    as (_ & _ & _ & _ & _ & ->).
  destruct (sendNow_end_cases P sb resp w)
    as [(msg & Hx & _)|[(err & Hx & _)|[(_ & _ & ->)|(_ & Hlt & _)]]];
    [congruence|congruence| |lia].
  done.
Qed.

Lemma X6_removal_in_range_witness :
  let w := sample_run sample_ports [HTTPMaxBacklog 2; HTTPBatchSize 2]
             [EvStart; EvCollect 1%nat 0; EvCollect 2%nat 0; EvBegin (TGo 0);
              EvCollect 3%nat 0] in
  batch (coll w) = [2%nat; 3%nat] /\
  exists w',
    step sample_ports w (EvEnd (TGo 0) None) = Some w' /\
    panicked w' = None /\ batch (coll w') = [].
Proof.
  intros w.
  assert (reachable sample_ports w) as Hr.
  { apply sample_reachable; [repeat constructor|].
    eexists. vm_compute. reflexivity. }
  assert (0 <= maxBacklog (coll w)) as Hm by (vm_compute; discriminate).
  assert (panicked w = None) as Hp by (vm_compute; reflexivity).
  assert (sendNow_of (TGo 0) w = Some (Sending [1%nat; 2%nat])) as Ht
    by (vm_compute; reflexivity).
  assert (send sample_ports (coll w) [1%nat; 2%nat] None = Returns None)
    as Hsend by (vm_compute; reflexivity).
  destruct (X6_removal_in_range sample_ports w (TGo 0) [1%nat; 2%nat] None
              Hr Hm Hp Ht Hsend) as (_ & w' & Hs & Hp' & Hb & _).
  split; [vm_compute; reflexivity|].
  exists w'. split; [exact Hs|]. split; [exact Hp'|exact Hb].
Defined.

(** X7. [HTTPMaxBacklog] accepts a negative number, and with it the
    collector cannot take a single span: the first span the loop receives
    makes [append] panic on its slice expression, after which no goroutine
    takes another step. *)
Theorem X7_negative_backlog_crashes {Span : Type} (P : Ports Span)
    (w : world Span) (span : Span) (now : Time) (w' : world Span) :
  reachable P w -> - 2 ^ 63 <= maxBacklog (coll w) < 0 ->
  step P w (EvCollect span now) = Some w' ->
  batch (coll w) = [] /\
  panicked w' = Some "slice bounds out of range" /\
  forall ev, step P w' ev = None.
Proof.
  intros Hr Hm Hstep.
  pose proof (reachable_negative_backlog P w Hr Hm
                (step_live P _ _ _ Hstep)) as Hb.
  pose proof (negative_backlog_step P w _ w' Hm Hb Hstep) as Hp.
  simpl in Hp. split; [done|]. split; [done|].
  intros ev. unfold step. by rewrite Hp.
Qed.

Lemma X7_negative_backlog_crashes_witness :
  let w := sample_run sample_ports [HTTPMaxBacklog (-5)] [EvStart] in
  exists w',
    step sample_ports w (EvCollect 1%nat 0) = Some w' /\
    panicked w' = Some "slice bounds out of range"%string.
Proof.
  intros w.
  assert (reachable sample_ports w) as Hr.
  { apply sample_reachable; [repeat constructor|].
    eexists. vm_compute. reflexivity. }
  assert (- 2 ^ 63 <= maxBacklog (coll w) < 0) as Hm
    by (split; vm_compute; [discriminate|reflexivity]).
  assert (is_Some (step sample_ports w (EvCollect 1%nat 0))) as [w' Hs]
    by (eexists; vm_compute; reflexivity).
  destruct (X7_negative_backlog_crashes sample_ports w 1%nat 0 w' Hr Hm Hs)
    as (_ & Hp & _).
  exists w'. split; [exact Hs|exact Hp].
Defined.

(** X8. With [HTTPMaxBacklog(0)] the collector sends nothing at all: every
    span is evicted by the append that adds it, the batch is always empty,
    no [sendNow] ever gets past its emptiness test, and every span
    collected is reported as evicted. *)
Theorem X8_zero_backlog_sends_nothing {Span : Type} (P : Ports Span)
    (w : world Span) :
  reachable P w -> maxBacklog (coll w) = 0 ->
  batch (coll w) = [] /\ sends w = [] /\
  (forall t sb, sendNow_of t w <> Some (Sending sb)) /\
  disposed w = len (spans_of w).
Proof.
  intros Hr Hm. destruct (reachable_zero_backlog P w Hr Hm) as [Hi Hs].
  pose proof (reachable_bounded P w Hr ltac:(lia)) as Hb.
  pose proof (reachable_accounted P w Hr ltac:(lia)) as Ha.
  unfold bounded in Hb. unfold accounted, delivered in Ha.
  rewrite Hm in Hb. rewrite Hs in Ha. simpl in Ha.
  assert (batch (coll w) = []) as Hnil.
  { destruct (batch (coll w)); [done|]. unfold len in Hb. simpl in Hb. lia. }
  rewrite Hnil in Ha. change (len []) with 0 in Ha.
  split; [done|]. split; [done|]. split; [done|]. lia.
Qed.

Lemma X8_zero_backlog_sends_nothing_witness :
  let w := sample_run sample_ports [HTTPMaxBacklog 0; HTTPBatchSize 0]
             [EvStart; EvCollect 1%nat 0; EvBegin (TGo 0); EvCollect 2%nat 0;
              EvTick 2000000000 2000000000; EvBegin (TGo 2)] in
  len (spans_of w) = 2 /\ sends w = [] /\ disposed w = 2.
Proof.
  intros w.
  assert (reachable sample_ports w) as Hr.
  { apply sample_reachable; [repeat constructor|].
    eexists. vm_compute. reflexivity. }
  assert (maxBacklog (coll w) = 0) as Hm by (vm_compute; reflexivity).
  destruct (X8_zero_backlog_sends_nothing sample_ports w Hr Hm)
    as (_ & Hs & _ & Hd).
  split; [vm_compute; reflexivity|]. split; [exact Hs|].
  rewrite Hd. vm_compute. reflexivity.
Defined.

(** X9. The loop survives its first statement exactly when
    [batchInterval] is at least ten nanoseconds: below that,
    [c.batchInterval / 10] is not positive, [time.NewTicker] panics, and
    no goroutine takes another step. *)
Theorem X9_short_interval_crashes {Span : Type} (P : Ports Span)
    (w w' : world Span) :
  step P w EvStart = Some w' ->
  (panicked w' = None <-> 10 <= batchInterval (coll w)) /\
  (batchInterval (coll w) < 10 ->
   panicked w' = Some "non-positive interval for NewTicker" /\
   looper w' = Starting /\ forall ev, step P w' ev = None).
Proof.
  intros Hstep. pose proof (step_live P _ _ _ Hstep) as Hp.
  apply start_inv in Hstep as [Hl ->]. unfold loop_start.
  pose proof (tickPeriod_positive (coll w)) as Hpos.
  destruct (Z.ltb_spec 0 (tickPeriod (coll w))) as [Hlt|Hge]; simpl.
  - split; [split; [intros _; by apply Hpos|done]|]. intros Hshort.
    apply Hpos in Hlt. lia.
  - split.
    + split; [done|]. intros Hok. apply Hpos in Hok. lia.
    + intros _. split; [done|]. split; [done|]. intros ev. by unfold step.
Qed.

Lemma X9_short_interval_crashes_witness :
  let w := sample_run sample_ports [HTTPBatchInterval 9] [] in
  exists w',
    step sample_ports w EvStart = Some w' /\
    panicked w' = Some "non-positive interval for NewTicker"%string.
Proof.
  intros w.
  assert (is_Some (step sample_ports w EvStart)) as [w' Hs]
    by (eexists; vm_compute; reflexivity).
  destruct (X9_short_interval_crashes sample_ports w w' Hs) as [_ Hshort].
  destruct (Hshort ltac:(vm_compute; reflexivity)) as (Hp & _).
  exists w'. split; [exact Hs|exact Hp].
Defined.

(** X10. [Collect] completes exactly while the loop is in its [select]
    and nothing has panicked: the unbuffered [spanc] has no other
    receiver.  Once the loop has received the quit signal no call of
    [Collect] completes any more, whatever the schedule, and the batch only
    shrinks. *)
Theorem X10_collect_needs_running_loop {Span : Type} (P : Ports Span) :
  (forall (w : world Span) span now,
     is_Some (step P w (EvCollect span now)) <->
     panicked w = None /\ looper w = Running) /\
  (forall (w : world Span) evs w',
     quitting w -> run P w evs = Some w' ->
     quitting w' /\ collected w' = collected w /\
     batch (coll w') `suffix_of` batch (coll w)).
Proof.
  split.
  - intros w span now. split.
    + intros [w' Hstep]. split; [by apply (step_live P _ _ _ Hstep)|].
      by apply collect_inv in Hstep as [Hl _].
    + intros [Hp Hl]. unfold step. rewrite Hp, Hl. simpl.
      destruct (append span (Collect span w)) as [w1 n].
      destruct (panicked w1); [done|].
      by destruct (batchSize (coll w1) <=? n).
  - intros w evs w'. apply quitting_run.
Qed.

Lemma X10_collect_needs_running_loop_witness :
  let w := sample_run sample_ports []
             [EvStart; EvCollect 1%nat 0; EvClose; EvQuit] in
  let w' := sample_run sample_ports []
              [EvStart; EvCollect 1%nat 0; EvClose; EvQuit; EvBegin TLoop;
               EvEnd TLoop None; EvShutdown] in
  step sample_ports w (EvCollect 2%nat 0) = None /\
  collected w' = [(1%nat, None)].
Proof.
  intros w w'.
  destruct (X10_collect_needs_running_loop sample_ports) as [Hen Hquit].
  split; [vm_compute; reflexivity|].
  assert (quitting w) as Hq by (vm_compute; exact I).
  assert (run sample_ports w [EvBegin TLoop; EvEnd TLoop None; EvShutdown]
          = Some w') as Hrun by (vm_compute; reflexivity).
  destruct (Hquit w _ w' Hq Hrun) as (_ & Hc & _).
  rewrite Hc. vm_compute. reflexivity.
Defined.

(** X11. At most one call of [Close] ever returns: the loop puts a single
    value on [shutdown] and returns, so once a call of [Close] has
    returned, no other call returns, whatever the schedule; a second
    caller blocks for ever. *)
Theorem X11_close_returns_once {Span : Type} (P : Ports Span)
    (w : world Span) :
  reachable P w ->
  (length (closed w) <= 1)%nat /\
  (closed w <> [] ->
   forall evs w', run P w evs = Some w' ->
     closed w' = closed w /\ shutdown (coll w') = [] /\
     step P w' EvClosed = None).
Proof.
  intros Hr.
  assert (forall w0, reachable P w0 -> (length (closed w0) <= 1)%nat /\
            (closed w0 <> [] -> shutdown (coll w0) = [])) as Hone.
  { intros w0 Hr0. pose proof (reachable_closes_once P w0 Hr0) as Hc.
    unfold closes_once in Hc.
    destruct (looper w0);
      [destruct Hc as [_ ->]; simpl; split; [lia|done]..|].
    split; [lia|]. intros Hne.
    destruct (closed w0); [done|]. simpl in Hc.
    destruct (shutdown (coll w0)); [done|simpl in Hc; lia]. }
  split; [by apply Hone|]. intros Hne evs w' Hrun.
  pose proof (reachable_run P _ _ _ Hr Hrun) as Hr'.
  destruct (run_history P _ _ _ Hrun) as (_ & _ & _ & [k Hk]).
  destruct (Hone w Hr) as [Hl _]. destruct (Hone w' Hr') as [Hl' Hs'].
  assert (k = []) as ->.
  { rewrite Hk, length_app in Hl'. destruct (closed w); [done|].
    destruct k; [done|]. simpl in Hl'. lia. }
  rewrite app_nil_r in Hk. split; [done|].
  assert (shutdown (coll w') = []) as Hsh by (apply Hs'; by rewrite Hk).
  split; [done|]. unfold step, Close_return. rewrite Hsh.
  destruct (panicked w'); [done|]. by destruct (closing w').
Qed.

Lemma X11_close_returns_once_witness :
  let w := sample_run sample_ports []
             [EvStart; EvClose; EvQuit; EvBegin TLoop; EvShutdown; EvClosed] in
  let w' := sample_run sample_ports []
              [EvStart; EvClose; EvQuit; EvBegin TLoop; EvShutdown; EvClosed;
               EvClose] in
  closing w' = 1%nat /\ closed w' = [None] /\
  step sample_ports w' EvClosed = None.
Proof.
  intros w w'.
  assert (reachable sample_ports w) as Hr.
  { apply sample_reachable; [repeat constructor|].
    eexists. vm_compute. reflexivity. }
  destruct (X11_close_returns_once sample_ports w Hr) as [_ Honce].
  assert (closed w <> []) as Hne by (vm_compute; discriminate).
  assert (run sample_ports w [EvClose] = Some w') as Hrun
    by (vm_compute; reflexivity).
  destruct (Honce Hne [EvClose] w' Hrun) as (Hc & _ & Hblocked).
  split; [vm_compute; reflexivity|].
  split; [rewrite Hc; vm_compute; reflexivity|exact Hblocked].
Defined.

(** X12. Removal by count can drop a span that was never sent.  While a
    send of the snapshot [sb] is under way, the batch is full and holds a
    further span [x] behind the snapshot; a new span arrives, so [append]
    evicts the head of the batch, which is the first span of [sb]; the send
    then succeeds and [sendNow] removes [len(sb)] spans from the head:
    the rest of [sb] and [x].  So [x] is neither sent nor reported as
    evicted, and a single eviction is reported. *)
Theorem X12_eviction_during_send_drops_unsent_span {Span : Type}
    (P : Ports Span) (w : world Span) (t : thread) (sb : list Span)
    (x : Span) (rest : list Span) (span : Span) (now : Time) (resp : error)
    (w1 : world Span) :
  reachable P w ->
  sendNow_of t w = Some (Sending sb) ->
  batch (coll w) = sb ++ x :: rest ->
  len (batch (coll w)) = maxBacklog (coll w) ->
  step P w (EvCollect span now) = Some w1 ->
  send P (coll w1) sb resp = Returns None ->
  exists w2,
    step P w1 (EvEnd t resp) = Some w2 /\
    batch (coll w2) = rest ++ [span] /\
    logged w2 = logged w ++ [disposing 1] /\
    sends w2 = sends w ++ [(sb, None)] /\
    panicked w2 = None.
Proof.
  intros Hr Ht Hb Hfull Hstep Hsend.
  pose proof (reachable_loaded P w Hr t sb Ht) as Hne.
  destruct sb as [|s0 sb']; [done|].
  assert (0 <= maxBacklog (coll w)) as Hm by (unfold len in Hfull; lia).
  pose proof (reachable_bounded P w Hr Hm) as Hbd.
  destruct (sending_step P w _ w1 t _ Hstep Ht) as [Ht1|[? ?]]; [|done].
  pose proof (len_app (batch (coll w)) [span]) as Hlen.
  change (len [span]) with 1 in Hlen.
  assert (batch (coll w1) = sb' ++ x :: rest ++ [span] /\
          logged w1 = logged w ++ [disposing 1] /\ sends w1 = sends w /\
          panicked w1 = None) as (Hb1 & Hl1 & Hs1 & Hp1).
  { pose proof (step_live P _ _ _ Hstep) as Hpw.
    apply collect_inv in Hstep as (Hl & w0 & n & Happ & Hcases).
    destruct (append_bounded span (Collect span w) w0 n Hbd Happ)
      as [_ Hev]. simpl in Hev.
    destruct (Hev ltac:(lia)) as [-> _].
    assert (batch (coll w) ++ [span] = s0 :: sb' ++ x :: rest ++ [span]) as Hbb
      by (rewrite Hb; simpl; by rewrite <-app_assoc).
    destruct Hcases as [(msg & Hx & ->)|[(_ & _ & ->)|(_ & _ & ->)]];
      simpl in *; rewrite ?Hbb; try done; by rewrite Hpw in Hx. }
  exists (set_sendNow t Returned (sendNow_end P (s0 :: sb') resp w1)).
  split; [by apply end_step|].
  rewrite set_sendNow_frame.
  destruct (set_sendNow_history t Returned (sendNow_end P (s0 :: sb') resp w1))
    as (-> & -> & _ & _ & _ & ->).
  destruct (sendNow_end_cases P (s0 :: sb') resp w1)
    as [(msg & Hx & _)|[(err & Hx & _)|[(_ & _ & ->)|(_ & Hlt & _)]]];
    [congruence|congruence| |].
  - simpl. rewrite Hb1, Hl1, Hs1, Hp1.
    split; [|done].
    replace (sb' ++ x :: rest ++ [span])
      with ((sb' ++ [x]) ++ rest ++ [span]) by by rewrite <-app_assoc.
    rewrite drop_app_length'; [done|]. rewrite length_app. simpl. lia.
  - rewrite Hb1 in Hlt. unfold len in Hlt.
    rewrite length_app in Hlt. simpl in Hlt. lia.
Qed.

Lemma X12_eviction_during_send_drops_unsent_span_witness :
  let w := sample_run sample_ports [HTTPMaxBacklog 3; HTTPBatchSize 2]
             [EvStart; EvCollect 1%nat 0; EvCollect 2%nat 0; EvBegin (TGo 0);
              EvCollect 3%nat 0] in
  let w1 := sample_run sample_ports [HTTPMaxBacklog 3; HTTPBatchSize 2]
              [EvStart; EvCollect 1%nat 0; EvCollect 2%nat 0; EvBegin (TGo 0);
               EvCollect 3%nat 0; EvCollect 4%nat 0] in
  batch (coll w) = [1%nat; 2%nat; 3%nat] /\
  exists w2,
    step sample_ports w1 (EvEnd (TGo 0) None) = Some w2 /\
    batch (coll w2) = [4%nat] /\
    sends w2 = [([1%nat; 2%nat], None)] /\
    logged w2 = [disposing 1].
Proof.
  intros w w1.
  assert (reachable sample_ports w) as Hr.
  { apply sample_reachable; [repeat constructor|].
    eexists. vm_compute. reflexivity. }
  assert (sendNow_of (TGo 0) w = Some (Sending [1%nat; 2%nat])) as Ht
    by (vm_compute; reflexivity).
  assert (batch (coll w) = [1%nat; 2%nat] ++ 3%nat :: []) as Hb
    by (vm_compute; reflexivity).
  assert (len (batch (coll w)) = maxBacklog (coll w)) as Hfull
    by (vm_compute; reflexivity).
  assert (step sample_ports w (EvCollect 4%nat 0) = Some w1) as Hs
    by (vm_compute; reflexivity).
  assert (send sample_ports (coll w1) [1%nat; 2%nat] None = Returns None)
    as Hsend by (vm_compute; reflexivity).
  destruct (X12_eviction_during_send_drops_unsent_span sample_ports w (TGo 0)
              [1%nat; 2%nat] 3%nat [] 4%nat 0 None w1 Hr Ht Hb Hfull Hs Hsend)
    as (w2 & Hend & Hb2 & Hl2 & Hs2 & _).
  split; [exact Hb|]. exists w2.
  split; [exact Hend|]. split; [exact Hb2|]. split; [exact Hs2|exact Hl2].
Defined.

(** X13. [NewHTTPCollector] applies the options in the order given, on top
    of the defaults: every field has the value of the last option that
    sets it, or its default (a no-op logger, a timeout of five seconds, a
    batch size of 100, a backlog of 1000, an interval of one second) when
    no option does; the options being applied first, the first deadline is
    the construction time plus the interval that was configured. *)
Theorem X13_last_option_wins {Span : Type} (url0 : string)
    (ss : list setting) (now : Time) :
  let w := (NewHTTPCollector (Span:=Span) url0 (option_of <$> ss) now).1 in
  logger (coll w) =
    last_of (fun st => match st with SetLogger l => Some l | _ => None end)
      NewNopLogger ss /\
  Timeout (client (coll w)) =
    last_of (fun st => match st with SetTimeout d => Some d | _ => None end)
      (5 * Second) ss /\
  batchSize (coll w) =
    last_of (fun st => match st with SetBatchSize n => Some n | _ => None end)
      100 ss /\
  maxBacklog (coll w) =
    last_of (fun st => match st with SetMaxBacklog n => Some n | _ => None end)
      1000 ss /\
  batchInterval (coll w) =
    last_of (fun st => match st with
                       | SetBatchInterval d => Some d | _ => None end)
      Second ss /\
  nextSend (coll w) = now + batchInterval (coll w) /\
  url (coll w) = url0 /\ batch (coll w) = [] /\ looper w = Starting.
Proof.
  intros w. subst w. unfold NewHTTPCollector. simpl.
  set (c0 := mkHTTPCollector _ _ _ _ _ _ _ _ _ _ _).
  destruct (options_last ss c0)
    as (H1 & H2 & H3 & H4 & H5 & H6 & H7 & H8 & _).
  unfold scheduleNextSend, Time_Add. simpl.
  rewrite H1, H3, H4, H5, H6, H8.
  do 1 (split; [done|]). split.
  { rewrite H2. unfold last_of. simpl. clear.
    induction ss as [|st ss IH] using rev_ind; [done|].
    rewrite !omap_app.
    destruct st; simpl; rewrite ?app_nil_r, ?last_snoc; done. }
  repeat split; done.
Qed.

(** X14. [httpSerialize] writes the spans in order and panics with the
    error of the first write that fails: the spans before it were written,
    none after it is, and [send] panics with that error before any request
    is built. *)
Theorem X14_first_write_error_panics {Span : Type} (P : Ports Span)
    (l1 : list Span) (x : Span) (l2 : list Span) (buf0 buf buf1 : Buffer)
    (err : string) :
  WriteListBegin P (len (l1 ++ x :: l2)) [] = (buf0, None) ->
  write_spans P l1 buf0 = Returns buf ->
  Span_Write P x buf = (buf1, Some err) ->
  write_spans P (l1 ++ x :: l2) buf0 = Panics err /\
  httpSerialize P (l1 ++ x :: l2) = Panics err /\
  forall c resp, send P c (l1 ++ x :: l2) resp = Panics err.
Proof.
  intros Hbegin Hl1 Hx.
  assert (write_spans P (l1 ++ x :: l2) buf0 = Panics err) as Hw.
  { rewrite write_spans_app, Hl1. simpl. by rewrite Hx. }
  assert (httpSerialize P (l1 ++ x :: l2) = Panics err) as Hser.
  { unfold httpSerialize. by rewrite Hbegin, Hw. }
  split; [done|]. split; [done|]. intros c resp. unfold send. by rewrite Hser.
Qed.

Lemma X14_first_write_error_panics_witness :
  httpSerialize strict_ports [1%nat; 2%nat; 13%nat; 14%nat] =
    Panics "span cannot be encoded" /\
  httpSerialize strict_ports [1%nat; 2%nat] =
    Returns [x0c; x00; x00; x00; x02; x01; x02].
Proof.
  destruct (X14_first_write_error_panics strict_ports [1%nat; 2%nat] 13%nat
              [14%nat] [x0c; x00; x00; x00; x04]
              [x0c; x00; x00; x00; x04; x01; x02]
              [x0c; x00; x00; x00; x04; x01; x02]
              "span cannot be encoded" eq_refl eq_refl eq_refl)
    as (_ & Hser & _).
  split; [exact Hser|]. vm_compute. reflexivity.
Defined.

(** X15. No time-triggered flush comes earlier than [batchInterval] after
    the construction: [NewHTTPCollector] sets the first deadline, and with a
    clock that does not run backwards every tick that launches a send is
    read strictly later than the construction time plus [batchInterval]. *)
Theorem X15_first_deadline {Span : Type} (P : Ports Span) (url0 : string)
    (options : list (HTTPOption Span)) (t0 : Time) (evs : list (event Span))
    (w : world Span) (now now' : Time) (w' : world Span) :
  Forall exported options ->
  run P (NewHTTPCollector url0 options t0).1 evs = Some w ->
  Forall (fun r : Time => t0 <= r) (readings evs) ->
  step P w (EvTick now now') = Some w' ->
  t0 + batchInterval (coll w) <= nextSend (coll w) /\
  (now <= t0 + batchInterval (coll w) -> w' = w) /\
  (goroutines w' <> goroutines w -> t0 + batchInterval (coll w) < now).
Proof.
  intros Hopt Hrun Hclock Htick.
  assert (t0 + batchInterval (coll w) <= nextSend (coll w)) as Hdl.
  { apply (deadline_run P _ evs w t0 Hrun Hclock).
    unfold NewHTTPCollector, scheduleNextSend, Time_Add. simpl. lia. }
  split; [done|].
  apply tick_inv in Htick as (_ & [[_ ->]|[Hlt ->]]).
  - split; [done|]. by intros [].
  - split; [lia|]. intros _. lia.
Qed.

Lemma X15_first_deadline_witness :
  let w := sample_run sample_ports [HTTPBatchInterval 50]
             [EvStart; EvCollect 1%nat 7] in
  step sample_ports w (EvTick 50 50) = Some w /\
  exists w', step sample_ports w (EvTick 51 52) = Some w' /\
             goroutines w' = [Waiting].
Proof.
  intros w.
  assert (run sample_ports
            (NewHTTPCollector "http://zipkin:9411/api/v1/spans"
               [HTTPBatchInterval 50] 0).1
            [EvStart; EvCollect 1%nat 7] = Some w) as Hrun
    by (vm_compute; reflexivity).
  assert (Forall (fun r : Time => 0 <= r)
            (readings [EvStart; EvCollect 1%nat 7])) as Hclock
    by (repeat constructor; vm_compute; discriminate).
  assert (is_Some (step sample_ports w (EvTick 50 50))) as [w1 Hs1]
    by (eexists; vm_compute; reflexivity).
  destruct (X15_first_deadline sample_ports "http://zipkin:9411/api/v1/spans"
              [HTTPBatchInterval 50] 0 [EvStart; EvCollect 1%nat 7] w 50 50 w1
              ltac:(repeat constructor) Hrun Hclock Hs1) as (_ & Hwait & _).
  rewrite (Hwait ltac:(vm_compute; discriminate)) in Hs1.
  split; [exact Hs1|].
  eexists. split; vm_compute; reflexivity.
Defined.

(** X16. [sendMutex] is held exactly while some [sendNow] is between its
    snapshot and the end of its network call, and the deferred [Unlock]
    frees it on every way out of [sendNow]: after a send that succeeded,
    after one that failed, and after a panic. *)
Theorem X16_mutex_released {Span : Type} (P : Ports Span) (w : world Span) :
  reachable P w ->
  (sendMutex (coll w) = true <->
   exists t sb, sendNow_of t w = Some (Sending sb)) /\
  (forall t resp w',
     step P w (EvEnd t resp) = Some w' ->
     sendMutex (coll w) = true /\ sendMutex (coll w') = false /\
     forall t' sb, sendNow_of t' w' <> Some (Sending sb)) /\
  (forall t w',
     step P w (EvBegin t) = Some w' -> sendMutex (coll w) = false).
Proof.
  intros Hr. pose proof (reachable_mutex P w Hr) as Hmutex.
  split; [done|]. split.
  - intros t resp w' Hstep. pose proof Hstep as Hend.
    apply end_inv in Hend as (sb & Ht & ->).
    split; [apply Hmutex; eauto|].
    destruct (sendNow_end_frame P sb resp w) as (Hl & Hg & Hfree & _).
    split; [by rewrite set_sendNow_frame|].
    apply (end_no_sender t sb w); try done.
    by apply reachable_exclusive with P.
  - intros t w' Hstep. by apply begin_inv in Hstep as (_ & Hm & _).
Qed.

Lemma X16_mutex_released_witness :
  let w := sample_run strict_ports [HTTPBatchSize 1]
             [EvStart; EvCollect 13%nat 0; EvBegin (TGo 0)] in
  sendMutex (coll w) = true /\
  exists w',
    step strict_ports w (EvEnd (TGo 0) None) = Some w' /\
    panicked w' = Some "span cannot be encoded"%string /\
    sendMutex (coll w') = false.
Proof.
  intros w.
  assert (reachable strict_ports w) as Hr.
  { apply sample_reachable; [repeat constructor|].
    eexists. vm_compute. reflexivity. }
  destruct (X16_mutex_released strict_ports w Hr) as (_ & Hend & _).
  assert (is_Some (step strict_ports w (EvEnd (TGo 0) None))) as [w' Hs]
    by (eexists; vm_compute; reflexivity).
  destruct (Hend (TGo 0) None w' Hs) as (Hheld & Hfree & _).
  split; [exact Hheld|]. exists w'. split; [exact Hs|].
  split; [|exact Hfree].
  assert (Some (panicked w') = Some (Some "span cannot be encoded"%string))
    as [= ->]; [|done].
  change (Some (panicked w')) with (panicked <$> Some w').
  rewrite <-Hs. vm_compute. reflexivity.
Defined.
